(** * Unocab: a shallow embedding of the UNO rules engine

    The development follows [game.ts] method by method.  The engine is a
    single mutable object ([this._state]); a method is modelled as a function
    from the state before the call to a completion (a returned value or a
    thrown exception) together with the state after the call.  A thrown
    exception does not undo the assignments made before it, exactly as in the
    TypeScript source. *)

From Stdlib Require Import ZArith String Ascii Bool Lia Permutation List.
Import ListNotations.

Local Open Scope Z_scope.

(* ------------------------------------------------------------------------- *)
(** * Cards ([types.ts]) *)

(** [regularCards] and [nonColorSwitchingScs]: the types that carry a color. *)
Inductive ColoredType : Type :=
  | zero | one | two | three | four | five | six | seven | eight | nine
  | plus_two | reverse | skip.

(** [colorSwitchingScs]. *)
Inductive ColorSwitchingScs : Type := plus_four | color_chooser.

(** [allCards]. *)
Inductive AllCards : Type :=
  | Plain (t : ColoredType)
  | Switching (t : ColorSwitchingScs).

Inductive CardColor : Type := red | blue | green | yellow.

(** [Card] is the union of [{ type; color }] for a colored type and
    [{ type }] (with [color] undefined) for a color switching type. *)
Inductive Card : Type :=
  | ColoredCard (type : ColoredType) (color : CardColor)
  | SwitchingCard (type : ColorSwitchingScs).

Scheme Equality for ColoredType.
Scheme Equality for ColorSwitchingScs.
Scheme Equality for AllCards.
Scheme Equality for CardColor.
Scheme Equality for Card.

(** [card.type] *)
Definition card_type (c : Card) : AllCards :=
  match c with
  | ColoredCard t _ => Plain t
  | SwitchingCard t => Switching t
  end.

(** [card.color] *)
Definition card_color (c : Card) : option CardColor :=
  match c with
  | ColoredCard _ col => Some col
  | SwitchingCard _ => None
  end.

(** [includes(colorSwitchingScs.options, type)] *)
Definition isColorSwitching (t : AllCards) : bool :=
  match t with
  | Switching _ => true
  | Plain _ => false
  end.

Definition option_beq {A : Type} (eqb : A -> A -> bool) (x y : option A) : bool :=
  match x, y with
  | Some a, Some b => eqb a b
  | None, None => true
  | _, _ => false
  end.

Definition PlayerId : Type := string.

(* ------------------------------------------------------------------------- *)
(** * Events ([types.ts]) *)

Inductive GameEvent : Type :=
  | card_played (by_ : PlayerId) (card : Card)
  | bluff_called (by_ : PlayerId)
  | choose_color (by_ : PlayerId) (color : CardColor)
  | draw (by_ : PlayerId)
  | pass (by_ : PlayerId).

Definition event_by (e : GameEvent) : PlayerId :=
  match e with
  | card_played b _ | bluff_called b | choose_color b _ | draw b | pass b => b
  end.

(** The payload of an [infoEvent]. *)
Inductive Info : Type :=
  | info_bluff_called (by_ : PlayerId)
  | bluff_call_succeeded (by_ of_ : PlayerId)
  | bluff_call_failed (by_ of_ : PlayerId)
  | seed_changed (newSeed : Z)
  | player_won (id : PlayerId)
  | game_ended (loser : PlayerId)
  | player_joined (id : PlayerId)
  | player_left (id : PlayerId)
  | pile_to_deck.

(** An entry of [state.events]: [GameEvent | InfoEvent]. *)
Inductive LoggedEvent : Type :=
  | game_event (e : GameEvent)
  | game_info (info : Info).

(** An entry of [last3CardPlayOrColorChanges]: [Card | CardColor]. *)
Inductive PlayOrColor : Type :=
  | PlayedCard (c : Card)
  | ChosenColor (c : CardColor).

(** [turnStep]: the literal type [1 | -1]. *)
Inductive TurnStep : Type := Forward | Backward.

Definition step_value (t : TurnStep) : Z :=
  match t with Forward => 1 | Backward => -1 end.

(** [turnStep *= -1] *)
Definition flip_step (t : TurnStep) : TurnStep :=
  match t with Forward => Backward | Backward => Forward end.

(* ------------------------------------------------------------------------- *)
(** * Game state ([types.ts], [commonGameState])

    Numbers that the engine only ever treats as integers are integers here:
    [index], [seed] and [initialSeed] are in [Z] (the source adds to [seed]
    without wrapping, which is exact for a double below [2^53]), and
    [stackedPlusTwos], which the engine only increments and resets, is a
    natural number.

    [hands] is a JavaScript object used as a map from player id to hand.  It
    is kept here as the list of its entries in the order in which
    [Object.entries] enumerates them; see [hands_set]. *)

Record Cache : Type := mkCache {
  hands : list (PlayerId * list Card);
  deck : list Card;
  seed : Z;
  stackedPlusTwos : nat;
  turnStep : TurnStep;
  ended : bool;
  pile : list Card;
  last3CardPlayOrColorChanges : list PlayOrColor
}.

Record GameState : Type := mkGameState {
  shorthandMode : bool;
  index : Z;
  initialSeed : Z;
  players : list PlayerId;
  stackPlusTwos : bool;
  events : list LoggedEvent;
  cache : Cache
}.

(** Field assignments. *)
Definition set_cache (c : Cache) (s : GameState) : GameState :=
  mkGameState (shorthandMode s) (index s) (initialSeed s) (players s)
              (stackPlusTwos s) (events s) c.
Definition set_index (i : Z) (s : GameState) : GameState :=
  mkGameState (shorthandMode s) i (initialSeed s) (players s)
              (stackPlusTwos s) (events s) (cache s).
Definition set_players (p : list PlayerId) (s : GameState) : GameState :=
  mkGameState (shorthandMode s) (index s) (initialSeed s) p
              (stackPlusTwos s) (events s) (cache s).
Definition set_events (e : list LoggedEvent) (s : GameState) : GameState :=
  mkGameState (shorthandMode s) (index s) (initialSeed s) (players s)
              (stackPlusTwos s) e (cache s).

Definition set_hands (h : list (PlayerId * list Card)) (s : GameState) : GameState :=
  let c := cache s in
  set_cache (mkCache h (deck c) (seed c) (stackedPlusTwos c) (turnStep c)
                     (ended c) (pile c) (last3CardPlayOrColorChanges c)) s.
Definition set_deck (d : list Card) (s : GameState) : GameState :=
  let c := cache s in
  set_cache (mkCache (hands c) d (seed c) (stackedPlusTwos c) (turnStep c)
                     (ended c) (pile c) (last3CardPlayOrColorChanges c)) s.
Definition set_seed (z : Z) (s : GameState) : GameState :=
  let c := cache s in
  set_cache (mkCache (hands c) (deck c) z (stackedPlusTwos c) (turnStep c)
                     (ended c) (pile c) (last3CardPlayOrColorChanges c)) s.
Definition set_stackedPlusTwos (n : nat) (s : GameState) : GameState :=
  let c := cache s in
  set_cache (mkCache (hands c) (deck c) (seed c) n (turnStep c)
                     (ended c) (pile c) (last3CardPlayOrColorChanges c)) s.
Definition set_turnStep (t : TurnStep) (s : GameState) : GameState :=
  let c := cache s in
  set_cache (mkCache (hands c) (deck c) (seed c) (stackedPlusTwos c) t
                     (ended c) (pile c) (last3CardPlayOrColorChanges c)) s.
Definition set_ended (b : bool) (s : GameState) : GameState :=
  let c := cache s in
  set_cache (mkCache (hands c) (deck c) (seed c) (stackedPlusTwos c) (turnStep c)
                     b (pile c) (last3CardPlayOrColorChanges c)) s.
Definition set_pile (p : list Card) (s : GameState) : GameState :=
  let c := cache s in
  set_cache (mkCache (hands c) (deck c) (seed c) (stackedPlusTwos c) (turnStep c)
                     (ended c) p (last3CardPlayOrColorChanges c)) s.
Definition set_last3 (l : list PlayOrColor) (s : GameState) : GameState :=
  let c := cache s in
  set_cache (mkCache (hands c) (deck c) (seed c) (stackedPlusTwos c) (turnStep c)
                     (ended c) (pile c) l) s.

(* ------------------------------------------------------------------------- *)
(** * Errors ([errors.ts]) *)

(** A [UnocabError]: the constructor is the [UECode], its arguments the
    [UEData] of that code.  The message strings are left out. *)
Inductive UnocabError : Type :=
  | GameEnded (loser : PlayerId)
  | MustPickColor (performedEvent : GameEvent)
  | MustNotPlayLastCardColorChanging (performedEvent : GameEvent)
  | MustDrawOrPlusTwo (performedEvent : GameEvent)
  | MustDrawOrCallBluff (performedEvent : GameEvent)
  | MustPlayExpectedCard (expectedType : option AllCards)
                         (expectedColor : option CardColor) (found : Card)
  | MustNotDrawTwice
  | MustNotPassWithoutDraw
  | CannotCallBluff
  | CannotSwitchColors
  | TooFewPlayers (playerCount : nat)
  | TooManyPlayers (playerCount : nat)
  | InvalidId (id : PlayerId)
  | NotPlayersTurn (playerId : PlayerId)
  | PlayerNotInGame (playerId : PlayerId)
  | PlayerDoesntHaveCard (playerId : PlayerId) (card : Card)
  | DeckPileExhausted.

(** What a method can throw: a [UnocabError], the string thrown at the end of
    [processNewEvent], a plain [Error] (from [jumpToEventIndex]), the
    [TypeError] of a property read on [undefined], or the error of a failed
    schema parse.  [Undefined] stands for a place where the source would carry
    on with the value [undefined] where a card is expected; lemma
    [deckTopCard_defined] shows that drawing never produces it. *)
Inductive Thrown : Type :=
  | ThrowUnocab (e : UnocabError)
  | ThrowString (s : string)
  | ThrowError (message : string)
  | TypeError
  | ZodError
  | Undefined.

Inductive Completion (A : Type) : Type :=
  | Normal (a : A)
  | Abrupt (t : Thrown).
Arguments Normal {A} a.
Arguments Abrupt {A} t.

(** A method of the [Game] object. *)
Definition Method (A : Type) : Type := GameState -> Completion A * GameState.

Definition ret {A : Type} (a : A) : Method A := fun s => (Normal a, s).

Definition bind {A B : Type} (m : Method A) (k : A -> Method B) : Method B :=
  fun s =>
    match m s with
    | (Normal a, s') => k a s'
    | (Abrupt t, s') => (Abrupt t, s')
    end.

Definition throw {A : Type} (t : Thrown) : Method A := fun s => (Abrupt t, s).
Definition throwUnocab {A : Type} (e : UnocabError) : Method A :=
  throw (ThrowUnocab e).

(** Reading [this._state]. *)
Definition gets {A : Type} (f : GameState -> A) : Method A :=
  fun s => (Normal (f s), s).

(** Assigning to a part of [this._state]. *)
Definition modify (f : GameState -> GameState) : Method unit :=
  fun s => (Normal tt, f s).

Declare Scope method_scope.
Delimit Scope method_scope with method.
Notation "x <- m ;; k" := (bind m (fun x => k))
  (at level 100, m at next level, right associativity) : method_scope.
Notation "m ;;; k" := (bind m (fun _ => k))
  (at level 100, right associativity) : method_scope.
Local Open Scope method_scope.

(** [arr.forEach(f)] for an [f] that may throw. *)
Fixpoint forEach {A : Type} (l : list A) (f : A -> Method unit) : Method unit :=
  match l with
  | [] => ret tt
  | x :: r => f x ;;; forEach r f
  end.

(** [Array(n).fill(null).map(() => m)] *)
Fixpoint replicateM {A : Type} (n : nat) (m : Method A) : Method (list A) :=
  match n with
  | O => ret []
  | S n' => x <- m ;; r <- replicateM n' m ;; ret (x :: r)
  end.

(* ------------------------------------------------------------------------- *)
(** * JavaScript primitives used by the engine *)

Module JS.

(** [ToInt32] and [ToUint32] of an integral number. *)
Definition toInt32 (z : Z) : Z := (z + 2147483648) mod 4294967296 - 2147483648.
Definition toUint32 (z : Z) : Z := z mod 4294967296.

(** [a ^ b], [a | b], [a >>> n] and [Math.imul(a, b)]. *)
Definition xor (a b : Z) : Z := Z.lxor (toInt32 a) (toInt32 b).
Definition or (a b : Z) : Z := Z.lor (toInt32 a) (toInt32 b).
Definition ushr (a n : Z) : Z := Z.shiftr (toUint32 a) n.
Definition imul (a b : Z) : Z := toInt32 (toInt32 a * toInt32 b).

(** [str.charCodeAt(i)] for each [i]; a character of a Rocq string is one
    code unit below 256. *)
Fixpoint charCodes (s : string) : list Z :=
  match s with
  | EmptyString => []
  | String c r => Z.of_N (N_of_ascii c) :: charCodes r
  end.

(** [arr.slice(start, end)] with JavaScript's treatment of negative and
    out of range bounds; [end_ = None] is an [undefined] end. *)
Definition slice {A : Type} (start : Z) (end_ : option Z) (l : list A) : list A :=
  let len := Z.of_nat (length l) in
  let rel (i : Z) := if i <? 0 then Z.max (len + i) 0 else Z.min i len in
  let k := rel start in
  let final := match end_ with None => len | Some e => rel e end in
  firstn (Z.to_nat (final - k)) (skipn (Z.to_nat k) l).

(** [arr.at(-n)] for [n >= 1]. *)
Definition at_back {A : Type} (n : nat) (l : list A) : option A :=
  if (length l <? n)%nat then None else nth_error l (length l - n)%nat.

(** [arr.findIndex(p)], [None] standing for [-1]. *)
Fixpoint findIndex {A : Type} (p : A -> bool) (l : list A) : option nat :=
  match l with
  | [] => None
  | x :: r => if p x then Some O else option_map S (findIndex p r)
  end.

(** [arr.splice(i, 1)] on an index inside the array: the array without its
    element [i]. *)
Fixpoint remove_at {A : Type} (i : nat) (l : list A) : list A :=
  match i, l with
  | _, [] => []
  | O, _ :: r => r
  | S i', x :: r => x :: remove_at i' r
  end.

(** [arr[i] = v] on an index inside the array. *)
Fixpoint set_at {A : Type} (i : nat) (v : A) (l : list A) : list A :=
  match i, l with
  | _, [] => []
  | O, _ :: r => v :: r
  | S i', x :: r => x :: set_at i' v r
  end.

(** [[arr[i], arr[j]] = [arr[j], arr[i]]] *)
Definition swap {A : Type} (i j : nat) (l : list A) : list A :=
  match nth_error l i, nth_error l j with
  | Some x, Some y => set_at j x (set_at i y l)
  | _, _ => l
  end.

(** The keys that [Object.entries] enumerates first, in ascending numeric
    order: canonical decimal strings below [2^32 - 1]. *)
Definition digit (c : ascii) : option Z :=
  let n := Z.of_N (N_of_ascii c) in
  if (48 <=? n) && (n <=? 57) then Some (n - 48) else None.

Fixpoint digits (s : string) (acc : Z) : option Z :=
  match s with
  | EmptyString => Some acc
  | String c r =>
      match digit c with
      | Some d => digits r (acc * 10 + d)
      | None => None
      end
  end.

Definition arrayIndex (k : string) : option Z :=
  match k with
  | EmptyString => None
  | String c r =>
      if Ascii.eqb c "0"%char && negb (String.eqb r EmptyString) then None
      else match digits k 0 with
           | Some n => if n <=? 4294967294 then Some n else None
           | None => None
           end
  end.

(** Whether a key [k] that is being created is enumerated before the
    existing key [k']. *)
Definition enumeratedBefore (k k' : string) : bool :=
  match arrayIndex k, arrayIndex k' with
  | Some i, Some i' => i <? i'
  | Some _, None => true
  | None, _ => false
  end.

End JS.

(* ------------------------------------------------------------------------- *)
(** * The [hands] object *)

Definition Hands : Type := list (PlayerId * list Card).

(** [hands[k]] *)
Fixpoint hands_get (k : PlayerId) (h : Hands) : option (list Card) :=
  match h with
  | [] => None
  | (k', v) :: r => if String.eqb k k' then Some v else hands_get k r
  end.

(** [hands[k] = v]: an existing key keeps its place, a new key is created
    where [Object.entries] will enumerate it. *)
Fixpoint hands_set (k : PlayerId) (v : list Card) (h : Hands) : Hands :=
  match h with
  | [] => [(k, v)]
  | (k', v') :: r =>
      if String.eqb k k' then (k, v) :: r
      else if JS.enumeratedBefore k k' then (k, v) :: h
      else (k', v') :: hands_set k v r
  end.

(** In-place mutation ([splice], [push]) of the array stored under [k]. *)
Fixpoint hands_update (k : PlayerId) (f : list Card -> list Card) (h : Hands) : Hands :=
  match h with
  | [] => []
  | (k', v) :: r =>
      if String.eqb k k' then (k', f v) :: r else (k', v) :: hands_update k f r
  end.

(* ------------------------------------------------------------------------- *)
(** * Constants and helpers ([utils.ts]) *)

Definition ENGINE_ID : PlayerId := "ENGINE"%string.
Definition MAX_SHORTHAND_EVENTS : nat := 5.
Definition MIN_PLAYERS : nat := 2.
Definition MAX_PLAYERS : nat := 10.

Definition cardColor_options : list CardColor := [red; blue; green; yellow].
Definition colorSwitchingScs_options : list ColorSwitchingScs := [plus_four; color_chooser].

(** [twoCardTypes]: one to nine, then the non color switching specials. *)
Definition twoCardTypes : list ColoredType :=
  [one; two; three; four; five; six; seven; eight; nine; plus_two; reverse; skip].

Definition DECK : list Card :=
  map (fun color => ColoredCard zero color) cardColor_options
  ++ flat_map (fun color =>
       flat_map (fun type => repeat (ColoredCard type color) 2) twoCardTypes)
     cardColor_options
  ++ flat_map (fun type => repeat (SwitchingCard type) 4) colorSwitchingScs_options.

(** [cyrb128]: a 32 bit hash of a string seed. *)
Fixpoint cyrb128_loop (codes : list Z) (h : Z * Z * Z * Z) : Z * Z * Z * Z :=
  match codes with
  | [] => h
  | k :: r =>
      let '(h1, h2, h3, h4) := h in
      let h1 := JS.xor h2 (JS.imul (JS.xor h1 k) 597399067) in
      let h2 := JS.xor h3 (JS.imul (JS.xor h2 k) 2869860233) in
      let h3 := JS.xor h4 (JS.imul (JS.xor h3 k) 951274213) in
      let h4 := JS.xor h1 (JS.imul (JS.xor h4 k) 2716044179) in
      cyrb128_loop r (h1, h2, h3, h4)
  end.

Definition cyrb128 (str : string) : Z :=
  let '(h1, h2, h3, h4) :=
    cyrb128_loop (JS.charCodes str) (1779033703, 3144134277, 1013904242, 2773480762) in
  let h1 := JS.imul (JS.xor h3 (JS.ushr h1 18)) 597399067 in
  let h2 := JS.imul (JS.xor h4 (JS.ushr h2 22)) 2869860233 in
  let h3 := JS.imul (JS.xor h1 (JS.ushr h3 17)) 951274213 in
  let h4 := JS.imul (JS.xor h2 (JS.ushr h4 19)) 2716044179 in
  JS.toUint32 (JS.xor (JS.xor (JS.xor h1 h2) h3) h4).

(** [playerId.safeParse(id).success]: the schema is [z.string()], and an id
    is a string here. *)
Definition playerId_safeParse (id : PlayerId) : bool := true.

(* ------------------------------------------------------------------------- *)
(** * The engine ([game.ts]), leaf methods first *)

(** The arithmetic of [random()] (mulberry32) on the incremented seed [t].
    The source returns this 32 bit value divided by [4294967296]; the
    numerator is kept here, and the only use of the result, in
    [shuffleDeck], does the division. *)
Definition mulberry32 (t : Z) : Z :=
  let t := JS.imul (JS.xor t (JS.ushr t 15)) (JS.or t 1) in
  let t := JS.xor t (t + JS.imul (JS.xor t (JS.ushr t 7)) (JS.or t 61)) in
  JS.toUint32 (JS.xor t (JS.ushr t 14)).

Definition random : Method Z :=
  old <- gets (fun s => seed (cache s)) ;;
  let t := old + 0x6d2b79f5 in
  modify (set_seed t) ;;;
  ret (mulberry32 t).

Definition recordEvent (event : LoggedEvent) : Method unit :=
  shorthand <- gets shorthandMode ;;
  if shorthand then
    match event with
    | game_info _ => ret tt
    | game_event _ =>
        modify (fun s =>
          if (length (events s) =? MAX_SHORTHAND_EVENTS)%nat
          then set_events (tl (events s)) s else s) ;;;
        modify (fun s => set_events (events s ++ [event]) s)
    end
  else modify (fun s => set_events (events s ++ [event]) s).

(** The loop of [shuffleDeck]: positions [i], [i - 1], ..., [1]. *)
Fixpoint shuffle_loop (i : nat) : Method unit :=
  match i with
  | O => ret tt
  | S i' =>
      r <- random ;;
      (* Math.floor(random() * (i + 1)) *)
      let j := Z.to_nat (r * (Z.of_nat i + 1) / 4294967296) in
      modify (fun s => set_deck (JS.swap i j (deck (cache s))) s) ;;;
      shuffle_loop i'
  end.

Definition shuffleDeck : Method unit :=
  len <- gets (fun s => length (deck (cache s))) ;;
  shuffle_loop (len - 1)%nat ;;;
  newSeed <- gets (fun s => seed (cache s)) ;;
  recordEvent (game_info (seed_changed newSeed)).

(** [this.state.events.filter((e) => e.type !== "game_info")] *)
Fixpoint non_info (l : list LoggedEvent) : list GameEvent :=
  match l with
  | [] => []
  | game_event e :: r => e :: non_info r
  | game_info _ :: r => non_info r
  end.

Definition nonInfoEvents : Method (list GameEvent) :=
  gets (fun s => non_info (events s)).

(** [init()], without the custom top card of the test subclass. *)
Definition init : Method unit :=
  modify (set_deck DECK) ;;;
  shuffleDeck ;;;
  d <- gets (fun s => deck (cache s)) ;;
  (* findIndex gives -1 when nothing is found, and splice(-1, 1) takes the
     last card *)
  let index_ :=
    match JS.findIndex (fun card => negb (isColorSwitching (card_type card))) d with
    | Some i => i
    | None => (length d - 1)%nat
    end in
  match nth_error d index_ with
  | None => throw Undefined
  | Some pileTopCard =>
      modify (set_deck (JS.remove_at index_ d)) ;;;
      modify (set_events [game_event (card_played ENGINE_ID pileTopCard)]) ;;;
      modify (set_pile [pileTopCard]) ;;;
      modify (set_last3 [PlayedCard pileTopCard])
  end.

(** [getPile()]: a copy of the pile. *)
Definition getPile : Method (list Card) := gets (fun s => pile (cache s)).

(** The first statement of [deckTopCard]: if the deck is empty, the pile is
    shuffled and becomes the new deck. *)
Definition recycleIfEmpty : Method unit :=
  d <- gets (fun s => deck (cache s)) ;;
  if (length d =? 0)%nat then
    pile_ <- getPile ;;
    if (length pile_ =? 0)%nat then throwUnocab DeckPileExhausted
    else
      modify (set_deck pile_) ;;;
      shuffleDeck ;;;
      modify (set_pile []) ;;;
      recordEvent (game_info pile_to_deck)
  else ret tt.

Definition deckTopCard : Method Card :=
  recycleIfEmpty ;;;
  (* return this._state.cache.deck.shift()! *)
  d <- gets (fun s => deck (cache s)) ;;
  match d with
  | [] => throw Undefined
  | top :: rest => modify (set_deck rest) ;;; ret top
  end.

(** [lastTwoNonInfoEvents(ignoredEvents)]: the result array, most recent
    event first. *)
Definition lastTwoNonInfoEvents (ignoredEvents : option Z) : Method (list GameEvent) :=
  evs <- nonInfoEvents ;;
  let ignored := match ignoredEvents with Some n => n | None => 0 end in
  ret (rev (JS.slice (-2 + ignored) ignoredEvents evs)).

Definition handOf (playerId : PlayerId) : Method (list Card) :=
  h <- gets (fun s => hands_get playerId (hands (cache s))) ;;
  match h with
  | None => throwUnocab (PlayerNotInGame playerId)
  | Some hand => ret hand
  end.

(** [activePlayer()]; [None] is the [undefined] read from an empty
    [validPlayers] (where the index is [NaN]). *)
Definition activePlayer : Method (option PlayerId) :=
  gets (fun s =>
    let validPlayers := map fst (hands (cache s)) in
    match validPlayers with
    | [] => None
    | _ =>
        let i := Z.abs (Z.rem (index s) (Z.of_nat (length validPlayers))) in
        nth_error validPlayers (Z.to_nat i)
    end).

(** [hasEnded()]: [Some loser] for [{ loser }], [None] for [false]. *)
Definition hasEnded : Method (option PlayerId) :=
  isEnded <- gets (fun s => ended (cache s)) ;;
  if isEnded then
    h <- gets (fun s => hands (cache s)) ;;
    match find (fun kv => negb (length (snd kv) =? 0)%nat) h with
    | Some (loser, _) => ret (Some loser)
    | None => throw TypeError
    end
  else ret None.

(** [expectedCard(bluffSiteCheck)]: [(expectedType, expectedColor)]. *)
Definition expectedCard (bluffSiteCheck : bool)
  : Method (option AllCards * option CardColor) :=
  gets (fun s =>
    let expectedType :=
      match JS.at_back 1 (pile (cache s)) with
      | Some lastPileCard =>
          if negb (isColorSwitching (card_type lastPileCard))
          then Some (card_type lastPileCard) else None
      | None => None
      end in
    let expectedColor :=
      match JS.at_back (if bluffSiteCheck then 3 else 1)
                       (last3CardPlayOrColorChanges (cache s)) with
      | Some (ChosenColor c) => Some c
      | Some (PlayedCard c) => card_color c
      | None => None
      end in
    (expectedType, expectedColor)).

(* ------------------------------------------------------------------------- *)
(** * Validation: [checkEvent] *)

Definition isCardPlayed (e : GameEvent) : bool :=
  match e with card_played _ _ => true | _ => false end.
Definition isDraw (e : GameEvent) : bool :=
  match e with draw _ => true | _ => false end.
Definition isBluffCalled (e : GameEvent) : bool :=
  match e with bluff_called _ => true | _ => false end.
Definition isChooseColor (e : GameEvent) : bool :=
  match e with choose_color _ _ => true | _ => false end.

(** [e.type == "card_played" && includes(colorSwitchingScs.options, e.card.type)] *)
Definition playedColorSwitching (e : GameEvent) : bool :=
  match e with
  | card_played _ c => isColorSwitching (card_type c)
  | _ => false
  end.

(** [e.type == "card_played" && e.card.type == t] *)
Definition playedType (t : AllCards) (e : GameEvent) : bool :=
  match e with
  | card_played _ c => AllCards_beq (card_type c) t
  | _ => false
  end.

(** [e.type == "draw" && e.by == by] *)
Definition drawnBy (by_ : PlayerId) (e : GameEvent) : bool :=
  match e with
  | draw b => String.eqb b by_
  | _ => false
  end.

(** The checks of [checkEvent] that are specific to the kind of event. *)
Definition checkKind (event : GameEvent) (bluffSiteCheck : bool)
    (lastEvent : GameEvent) : Method (option UnocabError) :=
  match event with
  | card_played by_ card =>
      lastCard <-
        (if isColorSwitching (card_type card) then
           hand <- handOf by_ ;; ret (length hand =? 1)%nat
         else ret false) ;;
      if lastCard then ret (Some (MustNotPlayLastCardColorChanging event))
      else
        expected <- expectedCard bluffSiteCheck ;;
        let '(expectedType, expectedColor) := expected in
        if negb (option_beq AllCards_beq expectedType (Some (card_type card)))
           && match card_color card with
              | Some c => negb (option_beq CardColor_beq (Some c) expectedColor)
              | None => false
              end
        then ret (Some (MustPlayExpectedCard expectedType expectedColor card))
        else ret None
  | draw by_ =>
      if drawnBy by_ lastEvent then ret (Some MustNotDrawTwice) else ret None
  | pass by_ =>
      let hasDrawn := drawnBy by_ lastEvent in
      if negb hasDrawn then ret (Some MustNotPassWithoutDraw) else ret None
  | bluff_called _ =>
      lastTwo <- lastTwoNonInfoEvents None ;;
      match nth_error lastTwo 1 with
      | Some secondLastEvent =>
          if negb (playedType (Switching plus_four) secondLastEvent)
          then ret (Some CannotCallBluff) else ret None
      | None => ret (Some CannotCallBluff)
      end
  | choose_color by_ _ =>
      if negb (playedColorSwitching lastEvent)
         || negb (String.eqb by_ (event_by lastEvent))
      then ret (Some CannotSwitchColors) else ret None
  end.

(** The first two checks of [checkEvent], which a bluff site check skips:
    the player count and whose turn it is. *)
Definition earlyChecks (event : GameEvent) (bluffSiteCheck : bool)
  : Method (option UnocabError) :=
  if negb bluffSiteCheck then
    playerCount <- gets (fun s => length (players s)) ;;
    if (playerCount <? MIN_PLAYERS)%nat then ret (Some (TooFewPlayers playerCount))
    else
      active <- activePlayer ;;
      if negb (option_beq String.eqb (Some (event_by event)) active)
      then ret (Some (NotPlayersTurn (event_by event)))
      else ret None
  else ret None.

(** [checkEvent(event, bluffSiteCheck)]: [Some err] is a returned error,
    [None] the [undefined] returned for a valid event. *)
Definition checkEvent (event : GameEvent) (bluffSiteCheck : bool)
  : Method (option UnocabError) :=
  early <- earlyChecks event bluffSiteCheck ;;
  match early with
  | Some err => ret (Some err)
  | None =>
      gameEnded <- hasEnded ;;
      match gameEnded with
      | Some loser => ret (Some (GameEnded loser))
      | None =>
          lastTwo <- lastTwoNonInfoEvents (if bluffSiteCheck then Some (-3) else None) ;;
          match lastTwo with
          | [] => throw TypeError
          | lastEvent :: rest =>
              if playedColorSwitching lastEvent && negb (isChooseColor event)
              then ret (Some (MustPickColor event))
              else if playedType (Plain plus_two) lastEvent && negb (isDraw event)
                      && negb (playedType (Plain plus_two) event)
              then ret (Some (MustDrawOrPlusTwo event))
              else if match rest with
                      | secondLastEvent :: _ =>
                          playedType (Switching plus_four) secondLastEvent
                          && negb (isDraw event) && negb (isBluffCalled event)
                      | [] => false
                      end
              then ret (Some (MustDrawOrCallBluff event))
              else checkKind event bluffSiteCheck lastEvent
          end
      end
  end.

(* ------------------------------------------------------------------------- *)
(** * Applying an event: [processNewEvent] *)

(** [ProcessEventResult], without the [formatted] strings. *)
Inductive ProcessEventResult : Type :=
  | result_card_played (card : Card)
  | player_win_game_end (won lost : PlayerId)
  | player_win (won : PlayerId)
  | drawing_cards (cards : list Card) (count : nat)
  | turn_passed
  | result_bluff_call_succeeded (by_ of_ : PlayerId)
  | result_bluff_call_failed (by_ of_ : PlayerId)
  | color_changed (to : CardColor).

(** [if (last3.length == 3) last3.shift(); last3.push(x)] *)
Definition pushLast3 (x : PlayOrColor) : Method unit :=
  modify (fun s =>
    let l := last3CardPlayOrColorChanges (cache s) in
    if (length l =? 3)%nat then set_last3 (tl l) s else s) ;;;
  modify (fun s => set_last3 (last3CardPlayOrColorChanges (cache s) ++ [x]) s).

(** [this._state.index += this._state.cache.turnStep * multiplier] *)
Definition advanceTurn (multiplier : Z) : Method unit :=
  modify (fun s => set_index (index s + step_value (turnStep (cache s)) * multiplier) s).

(** [this.handOf(id).push(...cards)] once [cards] has been computed. *)
Definition pushToHand (id : PlayerId) (cards : list Card) : Method unit :=
  modify (fun s => set_hands (hands_update id (fun h => h ++ cards) (hands (cache s))) s).

(** [cards.some((c) => !this.checkEvent({ type: "card_played", card: c, by:
    ENGINE_ID }, true))] *)
Fixpoint someValidAtBluffSite (cards : list Card) : Method bool :=
  match cards with
  | [] => ret false
  | c :: r =>
      err <- checkEvent (card_played ENGINE_ID c) true ;;
      match err with
      | None => ret true
      | Some _ => someValidAtBluffSite r
      end
  end.

Definition sameCard (a b : Card) : bool :=
  AllCards_beq (card_type a) (card_type b)
  && option_beq CardColor_beq (card_color a) (card_color b).

Definition processCardPlayed (event : GameEvent) (by_ : PlayerId)
    (currentCard : Card) (hand : list Card) : Method ProcessEventResult :=
  match JS.findIndex (fun c => sameCard c currentCard) hand with
  | None => throwUnocab (PlayerDoesntHaveCard by_ currentCard)
  | Some cardIndex =>
      modify (fun s =>
        set_hands (hands_update by_ (JS.remove_at cardIndex) (hands (cache s))) s) ;;;
      recordEvent (game_event event) ;;;
      pushLast3 (PlayedCard currentCard) ;;;
      modify (fun s => set_pile (pile (cache s) ++ [currentCard]) s) ;;;
      (if AllCards_beq (card_type currentCard) (Plain plus_two)
       then modify (fun s => set_stackedPlusTwos (S (stackedPlusTwos (cache s))) s)
       else ret tt) ;;;
      (if AllCards_beq (card_type currentCard) (Plain reverse)
       then modify (fun s => set_turnStep (flip_step (turnStep (cache s))) s)
       else ret tt) ;;;
      (if negb (isColorSwitching (card_type currentCard)) then
         playerCount <- gets (fun s => length (players s)) ;;
         let turnStepMultiplier :=
           if AllCards_beq (card_type currentCard) (Plain skip) then 2
           else if AllCards_beq (card_type currentCard) (Plain reverse)
                then (if (playerCount =? 2)%nat then 2 else 1)
                else 1 in
         advanceTurn turnStepMultiplier
       else ret tt) ;;;
      left <- handOf by_ ;;
      if (length left =? 0)%nat then
        recordEvent (game_info (player_won by_)) ;;;
        playersWithCards <- gets (fun s =>
          map fst (filter (fun kv => negb (length (snd kv) =? 0)%nat)
                          (hands (cache s)))) ;;
        match playersWithCards with
        | [loser] =>
            recordEvent (game_info (game_ended loser)) ;;;
            modify (set_ended true) ;;;
            ret (player_win_game_end by_ loser)
        | _ => ret (player_win by_)
        end
      else
        (* no return statement on this path: control leaves the if/else
           chain and reaches the final throw of processNewEvent *)
        throw (ThrowString "unreachable")
  end.

(** The number of cards a draw takes, from the last two events. *)
Definition toDraw (lastTwo : list GameEvent) (s : GameState) : nat :=
  match lastTwo with
  | [] => 1
  | lastEvent :: rest =>
      if playedType (Plain plus_two) lastEvent then
        (if stackPlusTwos s then stackedPlusTwos (cache s) else 1) * 2
      else
        match rest with
        | secondLastEvent :: _ =>
            if playedType (Switching plus_four) secondLastEvent then 4 else 1
        | [] => 1
        end
  end%nat.

Definition processDraw (event : GameEvent) (by_ : PlayerId) : Method ProcessEventResult :=
  lastTwo <- lastTwoNonInfoEvents None ;;
  match lastTwo with
  | [] => throw TypeError
  | _ :: _ =>
      n <- gets (toDraw lastTwo) ;;
      drawCards <- replicateM n deckTopCard ;;
      handOf by_ ;;;
      pushToHand by_ drawCards ;;;
      (if negb (n =? 1)%nat then advanceTurn 1 else ret tt) ;;;
      recordEvent (game_event event) ;;;
      modify (set_stackedPlusTwos 0) ;;;
      ret (drawing_cards drawCards (length drawCards))
  end.

Definition processBluffCalled (event : GameEvent) (by_ : PlayerId)
  : Method ProcessEventResult :=
  lastTwo <- lastTwoNonInfoEvents None ;;
  match nth_error lastTwo 1 with
  | None => throw TypeError
  | Some secondLastEvent =>
      let lastPlayerId := event_by secondLastEvent in
      lastPlayerHand <- handOf lastPlayerId ;;
      recordEvent (game_event event) ;;;
      advanceTurn 1 ;;;
      bluffed <- someValidAtBluffSite
        (filter (fun c => negb (isColorSwitching (card_type c))) lastPlayerHand) ;;
      if bluffed then
        cards <- replicateM 4 deckTopCard ;;
        pushToHand lastPlayerId cards ;;;
        recordEvent (game_info (bluff_call_succeeded by_ lastPlayerId)) ;;;
        ret (result_bluff_call_succeeded by_ lastPlayerId)
      else
        handOf by_ ;;;
        cards <- replicateM 6 deckTopCard ;;
        pushToHand by_ cards ;;;
        recordEvent (game_info (bluff_call_failed by_ lastPlayerId)) ;;;
        ret (result_bluff_call_failed by_ lastPlayerId)
  end.

Definition processNewEvent (event : GameEvent) : Method ProcessEventResult :=
  (if negb (playerId_safeParse (event_by event))
   then throwUnocab (InvalidId (event_by event)) else ret tt) ;;;
  hand <- handOf (event_by event) ;;
  err <- checkEvent event false ;;
  match err with
  | Some e => throwUnocab e
  | None =>
      match event with
      | card_played by_ currentCard => processCardPlayed event by_ currentCard hand
      | draw by_ => processDraw event by_
      | pass _ =>
          recordEvent (game_event event) ;;;
          advanceTurn 1 ;;;
          ret turn_passed
      | bluff_called by_ => processBluffCalled event by_
      | choose_color _ color =>
          pushLast3 (ChosenColor color) ;;;
          recordEvent (game_event event) ;;;
          advanceTurn 1 ;;;
          ret (color_changed color)
      end
  end.

(* ------------------------------------------------------------------------- *)
(** * Gameplay methods *)

Definition join (playerIds : list PlayerId) : Method unit :=
  playerCount <- gets (fun s => length (players s)) ;;
  if (playerCount =? MAX_PLAYERS)%nat then throwUnocab (TooManyPlayers playerCount)
  else
    forEach playerIds (fun id =>
      if String.eqb id ENGINE_ID || negb (playerId_safeParse id)
      then throwUnocab (InvalidId id) else ret tt) ;;;
    forEach playerIds (fun playerId =>
      hand <- replicateM 7 deckTopCard ;;
      modify (fun s => set_players (players s ++ [playerId]) s) ;;;
      modify (fun s => set_hands (hands_set playerId hand (hands (cache s))) s) ;;;
      recordEvent (game_info (player_joined playerId))).

(** [!this._state.players.find((id) => id == playerId)]: [find] returns the
    id it found, and the empty string is falsy like [undefined]. *)
Definition notFound (playerId : PlayerId) (l : list PlayerId) : bool :=
  match find (fun id => String.eqb id playerId) l with
  | Some id => String.eqb id EmptyString
  | None => true
  end.

Definition leave (playerIds : list PlayerId) : Method unit :=
  forEach playerIds (fun playerId =>
    ps <- gets players ;;
    if notFound playerId ps then throwUnocab (PlayerNotInGame playerId)
    else
      modify (fun s =>
        set_players (filter (fun id => negb (String.eqb id playerId)) (players s)) s) ;;;
      recordEvent (game_info (player_left playerId))).

Definition play (by_ : PlayerId) (card : Card) : Method ProcessEventResult :=
  processNewEvent (card_played by_ card).
Definition drawCard (by_ : PlayerId) : Method ProcessEventResult :=
  processNewEvent (draw by_).
Definition passTurn (by_ : PlayerId) : Method ProcessEventResult :=
  processNewEvent (pass by_).
Definition callBluff (by_ : PlayerId) : Method ProcessEventResult :=
  processNewEvent (bluff_called by_).
Definition chooseColor (by_ : PlayerId) (color : CardColor) : Method ProcessEventResult :=
  processNewEvent (choose_color by_ color).

(** [allEvents.filter((e) => !this.checkEvent(e))] *)
Fixpoint filterValid (l : list GameEvent) : Method (list GameEvent) :=
  match l with
  | [] => ret []
  | e :: r =>
      err <- checkEvent e false ;;
      valid <- filterValid r ;;
      ret (match err with None => e :: valid | Some _ => valid end)
  end.

Definition validEvents (playerId : PlayerId) : Method (list GameEvent) :=
  hand <- handOf playerId ;;
  filterValid
    ([draw playerId; bluff_called playerId; pass playerId; choose_color playerId red]
     ++ map (fun card => card_played playerId card) hand).

(* ------------------------------------------------------------------------- *)
(** * Construction *)

(** [initialSeed?: string | number] *)
Inductive SeedProp : Type :=
  | SeedString (s : string)
  | SeedNumber (n : Z).

(** The customisation props of the constructor; an absent [shorthandMode]
    or [noInit] is [false]. *)
Record Props : Type := mkProps {
  prop_shorthandMode : bool;
  prop_stackPlusTwos : option bool;
  prop_initialSeed : option SeedProp;
  prop_noInit : bool
}.

Definition defaultProps : Props := mkProps false None None false.

(** The seed the constructor settles on.  [entropy] is the number that
    [crypto.getRandomValues] writes; it is used when [props.initialSeed] is
    falsy, which an absent seed is, and so are [0] and the empty string. *)
Definition chooseSeed (entropy : Z) (p : option SeedProp) : Z :=
  match p with
  | Some (SeedString str) => if String.eqb str EmptyString then entropy else cyrb128 str
  | Some (SeedNumber n) => if n =? 0 then entropy else n
  | None => entropy
  end.

Definition blankState (entropy : Z) (props : Props) : GameState :=
  let initialSeed_ := chooseSeed entropy (prop_initialSeed props) in
  mkGameState (prop_shorthandMode props) 0 initialSeed_ []
    (match prop_stackPlusTwos props with Some b => b | None => true end)
    []
    (mkCache [] [] initialSeed_ 0%nat Forward false [] []).

(** [new Game(props)] for customisation props: the completion of the
    constructor and the state of the new object. *)
Definition newGame (entropy : Z) (props : Props) : Completion unit * GameState :=
  (if negb (prop_noInit props) then init else ret tt) (blankState entropy props).

(* ------------------------------------------------------------------------- *)
(** * Replay: [jumpToEventIndex] *)

(** The loop of [jumpToEventIndex] over the retained events, run on the
    scratch game [cg]. *)
Fixpoint replay (evs : list LoggedEvent) : Method unit :=
  match evs with
  | [] => ret tt
  | game_info (game_ended _) :: _ => ret tt
  | game_info (player_joined id) :: r => join [id] ;;; replay r
  | game_info (player_left id) :: r => leave [id] ;;; replay r
  | game_info _ :: r => replay r
  | game_event e :: r =>
      if String.eqb (event_by e) ENGINE_ID then replay r
      else processNewEvent e ;;; replay r
  end.

Definition jumpToEventIndex (entropy : Z) (index_ : Z) : Method (list LoggedEvent) :=
  shorthand <- gets shorthandMode ;;
  if shorthand then throw (ThrowError "Cannot jump to index in shorthand mode")
  else
    len <- gets (fun s => Z.of_nat (length (events s))) ;;
    if (index_ <? - len) || (index_ >=? len) then throw (ThrowError "Invalid event index")
    else
      let index_ := if index_ <? 0 then len + index_ else index_ in
      (* splice(index + 1) *)
      remainingEvents <- gets (fun s => skipn (Z.to_nat (index_ + 1)) (events s)) ;;
      modify (fun s => set_events (firstn (Z.to_nat (index_ + 1)) (events s)) s) ;;;
      seed_ <- gets initialSeed ;;
      retained <- gets events ;;
      match newGame entropy (mkProps false None (Some (SeedNumber seed_)) false) with
      | (Abrupt t, _) => throw t
      | (Normal _, cg) =>
          match replay retained cg with
          | (Abrupt t, _) => throw t
          | (Normal _, cg') => modify (fun _ => cg') ;;; ret remainingEvents
          end
      end.

(* ------------------------------------------------------------------------- *)
(** * Serialisation

    [serialise()] is [JSON.stringify(this._state)] and the constructor reads
    it back with [JSON.parse] and validates it with the zod schema
    [gameState] of [types.ts].  [JSON.stringify] and [JSON.parse] are the
    platform's; they are modelled by the JSON value that the text denotes
    (a property whose value is [undefined] is not written).  The schema is
    modelled by the parsers below, each of which accepts what its zod schema
    accepts and returns the value of the state type that was read. *)

#[warnings="-register-all"]
Inductive JSON : Type :=
  | JNull
  | JBool (b : bool)
  | JNumber (z : Z)
  | JString (s : string)
  | JArray (l : list JSON)
  | JObject (fields : list (string * JSON)).

Module Schema.
Local Open Scope string_scope.

Definition field (name : string) (fields : list (string * JSON)) : option JSON :=
  option_map snd (find (fun kv => String.eqb (fst kv) name) fields).

Fixpoint traverse {A B : Type} (f : A -> option B) (l : list A) : option (list B) :=
  match l with
  | [] => Some []
  | x :: r =>
      match f x, traverse f r with
      | Some y, Some ys => Some (y :: ys)
      | _, _ => None
      end
  end.

Definition array {A : Type} (f : JSON -> option A) (j : JSON) : option (list A) :=
  match j with
  | JArray l => traverse f l
  | _ => None
  end.

(** ** Names of the enumerations *)

Definition coloredTypes : list ColoredType :=
  [zero; one; two; three; four; five; six; seven; eight; nine; plus_two; reverse; skip].

Definition coloredType_name (t : ColoredType) : string :=
  match t with
  | zero => "zero" | one => "one" | two => "two" | three => "three"
  | four => "four" | five => "five" | six => "six" | seven => "seven"
  | eight => "eight" | nine => "nine"
  | plus_two => "plus-two" | reverse => "reverse" | skip => "skip"
  end.

Definition switching_name (t : ColorSwitchingScs) : string :=
  match t with plus_four => "plus-four" | color_chooser => "color-chooser" end.

Definition color_name (c : CardColor) : string :=
  match c with red => "red" | blue => "blue" | green => "green" | yellow => "yellow" end.

Definition by_name {A : Type} (name : A -> string) (options : list A) (s : string)
  : option A :=
  find (fun a => String.eqb (name a) s) options.

Definition string_ (j : JSON) : option string :=
  match j with JString s => Some s | _ => None end.

Definition enum {A : Type} (name : A -> string) (options : list A) (j : JSON)
  : option A :=
  match j with JString s => by_name name options s | _ => None end.

Definition cardColor : JSON -> option CardColor := enum color_name cardColor_options.

(** ** Writers (what [JSON.stringify] writes for a value of each type) *)

Definition of_card (c : Card) : JSON :=
  match c with
  | ColoredCard t col =>
      JObject [("type", JString (coloredType_name t)); ("color", JString (color_name col))]
  | SwitchingCard t => JObject [("type", JString (switching_name t))]
  end.

Definition of_gameEvent (e : GameEvent) : JSON :=
  match e with
  | card_played b c =>
      JObject [("type", JString "card_played"); ("by", JString b); ("card", of_card c)]
  | bluff_called b => JObject [("type", JString "bluff_called"); ("by", JString b)]
  | choose_color b c =>
      JObject [("type", JString "choose-color"); ("by", JString b);
               ("color", JString (color_name c))]
  | draw b => JObject [("type", JString "draw"); ("by", JString b)]
  | pass b => JObject [("type", JString "pass"); ("by", JString b)]
  end.

Definition of_info (i : Info) : JSON :=
  match i with
  | info_bluff_called b => JObject [("type", JString "bluff_called"); ("by", JString b)]
  | bluff_call_succeeded b o =>
      JObject [("type", JString "bluff_call_succeeded"); ("by", JString b); ("of", JString o)]
  | bluff_call_failed b o =>
      JObject [("type", JString "bluff_call_failed"); ("by", JString b); ("of", JString o)]
  | seed_changed n => JObject [("type", JString "seed_changed"); ("newSeed", JNumber n)]
  | player_won id => JObject [("type", JString "player_won"); ("id", JString id)]
  | game_ended l => JObject [("type", JString "game_ended"); ("loser", JString l)]
  | player_joined id => JObject [("type", JString "player_joined"); ("id", JString id)]
  | player_left id => JObject [("type", JString "player_left"); ("id", JString id)]
  | pile_to_deck => JObject [("type", JString "pile_to_deck")]
  end.

Definition of_logged (e : LoggedEvent) : JSON :=
  match e with
  | game_event g => of_gameEvent g
  | game_info i => JObject [("type", JString "game_info"); ("info", of_info i)]
  end.

Definition of_playOrColor (x : PlayOrColor) : JSON :=
  match x with
  | PlayedCard c => of_card c
  | ChosenColor c => JString (color_name c)
  end.

Definition of_hands (h : Hands) : JSON :=
  JObject (map (fun kv => (fst kv, JArray (map of_card (snd kv)))) h).

Definition of_cache (c : Cache) : JSON :=
  JObject [("hands", of_hands (hands c));
           ("deck", JArray (map of_card (deck c)));
           ("seed", JNumber (seed c));
           ("ended", JBool (ended c));
           ("stackedPlusTwos", JNumber (Z.of_nat (stackedPlusTwos c)));
           ("turnStep", JNumber (step_value (turnStep c)));
           ("pile", JArray (map of_card (pile c)));
           ("last3CardPlayOrColorChanges",
            JArray (map of_playOrColor (last3CardPlayOrColorChanges c)))].

Definition of_gameState (s : GameState) : JSON :=
  JObject [("shorthandMode", JBool (shorthandMode s));
           ("events", JArray (map of_logged (events s)));
           ("index", JNumber (index s));
           ("players", JArray (map JString (players s)));
           ("initialSeed", JNumber (initialSeed s));
           ("stackPlusTwos", JBool (stackPlusTwos s));
           ("cache", of_cache (cache s))].

(** ** Parsers (the zod schemas) *)

(** [card]: the union of the colored and the color switching object. *)
Definition card (j : JSON) : option Card :=
  match j with
  | JObject f =>
      match field "type" f with
      | Some (JString t) =>
          match by_name coloredType_name coloredTypes t with
          | Some ct =>
              match field "color" f with
              | Some c => option_map (ColoredCard ct) (cardColor c)
              | None => None
              end
          | None =>
              match by_name switching_name colorSwitchingScs_options t, field "color" f with
              | Some cs, None => Some (SwitchingCard cs)
              | _, _ => None
              end
          end
      | _ => None
      end
  | _ => None
  end.

Definition by_field (f : list (string * JSON)) : option PlayerId :=
  match field "by" f with Some j => string_ j | None => None end.

Definition str_field (name : string) (f : list (string * JSON)) : option string :=
  match field name f with Some j => string_ j | None => None end.

(** [gameEvent] *)
Definition gameEvent (j : JSON) : option GameEvent :=
  match j with
  | JObject f =>
      match str_field "type" f, by_field f with
      | Some t, Some b =>
          if String.eqb t "card_played" then
            match field "card" f with
            | Some c => option_map (card_played b) (card c)
            | None => None
            end
          else if String.eqb t "bluff_called" then Some (bluff_called b)
          else if String.eqb t "choose-color" then
            match field "color" f with
            | Some c => option_map (choose_color b) (cardColor c)
            | None => None
            end
          else if String.eqb t "draw" then Some (draw b)
          else if String.eqb t "pass" then Some (pass b)
          else None
      | _, _ => None
      end
  | _ => None
  end.

(** The [info] object of [infoEvent] *)
Definition info (j : JSON) : option Info :=
  match j with
  | JObject f =>
      match str_field "type" f with
      | Some t =>
          if String.eqb t "bluff_called" then option_map info_bluff_called (by_field f)
          else if String.eqb t "bluff_call_succeeded" then
            match by_field f, str_field "of" f with
            | Some b, Some o => Some (bluff_call_succeeded b o)
            | _, _ => None
            end
          else if String.eqb t "bluff_call_failed" then
            match by_field f, str_field "of" f with
            | Some b, Some o => Some (bluff_call_failed b o)
            | _, _ => None
            end
          else if String.eqb t "seed_changed" then
            match field "newSeed" f with
            | Some (JNumber n) => Some (seed_changed n)
            | _ => None
            end
          else if String.eqb t "player_won" then option_map player_won (str_field "id" f)
          else if String.eqb t "game_ended" then option_map game_ended (str_field "loser" f)
          else if String.eqb t "player_joined" then option_map player_joined (str_field "id" f)
          else if String.eqb t "player_left" then option_map player_left (str_field "id" f)
          else if String.eqb t "pile_to_deck" then Some pile_to_deck
          else None
      | None => None
      end
  | _ => None
  end.

(** An element of [events]: [gameEvent] in shorthand mode, the union of
    [gameEvent] and [infoEvent] in full mode. *)
Definition logged (shorthand : bool) (j : JSON) : option LoggedEvent :=
  match gameEvent j with
  | Some e => Some (game_event e)
  | None =>
      if shorthand then None
      else match j with
           | JObject f =>
               match str_field "type" f, field "info" f with
               | Some t, Some i =>
                   if String.eqb t "game_info" then option_map game_info (info i) else None
               | _, _ => None
               end
           | _ => None
           end
  end.

Definition playOrColor (j : JSON) : option PlayOrColor :=
  match card j with
  | Some c => Some (PlayedCard c)
  | None => option_map ChosenColor (cardColor j)
  end.

Definition turnStep_ (j : JSON) : option TurnStep :=
  match j with
  | JNumber 1 => Some Forward
  | JNumber (-1) => Some Backward
  | _ => None
  end.

(** The object that [JSON.parse] builds from the members of a JSON object,
    creating them in the order of the text. *)
Definition hands_of_members (l : list (PlayerId * list Card)) : Hands :=
  fold_left (fun h kv => hands_set (fst kv) (snd kv) h) l [].

(** [z.record(playerId, card.array())] *)
Definition hands_ (j : JSON) : option Hands :=
  match j with
  | JObject f =>
      option_map hands_of_members
        (traverse (fun kv => option_map (pair (fst kv)) (array card (snd kv))) f)
  | _ => None
  end.

Definition cache_ (j : JSON) : option Cache :=
  match j with
  | JObject f =>
      match field "hands" f, field "deck" f, field "seed" f, field "stackedPlusTwos" f,
            field "turnStep" f, field "ended" f, field "pile" f,
            field "last3CardPlayOrColorChanges" f with
      | Some h, Some d, Some (JNumber sd), Some (JNumber st), Some ts,
        Some (JBool e), Some p, Some l3 =>
          match hands_ h, array card d, turnStep_ ts, array card p, array playOrColor l3 with
          | Some h, Some d, Some ts, Some p, Some l3 =>
              if (st <? 0)%Z then None
              else Some (mkCache h d sd (Z.to_nat st) ts e p l3)
          | _, _, _, _, _ => None
          end
      | _, _, _, _, _, _, _, _ => None
      end
  | _ => None
  end.

(** [gameState]: the union of [fullGameState] and [shorthandGameState]. *)
Definition gameState (j : JSON) : option GameState :=
  match j with
  | JObject f =>
      match field "shorthandMode" f, field "index" f, field "initialSeed" f,
            field "players" f, field "stackPlusTwos" f, field "events" f,
            field "cache" f with
      | Some (JBool sh), Some (JNumber i), Some (JNumber is_), Some ps,
        Some (JBool sp), Some evs, Some c =>
          match array string_ ps, array (logged sh) evs, cache_ c with
          | Some ps, Some evs, Some c => Some (mkGameState sh i is_ ps sp evs c)
          | _, _, _ => None
          end
      | _, _, _, _, _, _, _ => None
      end
  | _ => None
  end.

End Schema.

(** [serialise()] *)
Definition serialise : Method JSON := gets Schema.of_gameState.

(** [new Game({ serialisedState })]: the completion of the constructor and,
    when it returns, the state of the new object. *)
Definition newGameFrom (serialisedState : JSON) : Completion GameState :=
  match Schema.gameState serialisedState with
  | Some state => Normal state
  | None => Abrupt ZodError
  end.

(** [clone()] *)
Definition clone : Method (Completion GameState) :=
  json <- serialise ;; ret (newGameFrom json).

(* ------------------------------------------------------------------------- *)
(** * Calls from outside, traces and reachable states *)

Inductive Call : Type :=
  | CallJoin (playerIds : list PlayerId)
  | CallLeave (playerIds : list PlayerId)
  | CallProcessNewEvent (event : GameEvent)
  | CallJumpToEventIndex (entropy : Z) (index_ : Z).

(** What a call returns. *)
Inductive Answer : Type :=
  | AnswerVoid
  | AnswerResult (r : ProcessEventResult)
  | AnswerEvents (l : list LoggedEvent).

Definition answering {A : Type} (f : A -> Answer) (m : Method A) : Method Answer :=
  a <- m ;; ret (f a).

Definition perform (c : Call) : Method Answer :=
  match c with
  | CallJoin ids => answering (fun _ => AnswerVoid) (join ids)
  | CallLeave ids => answering (fun _ => AnswerVoid) (leave ids)
  | CallProcessNewEvent e => answering AnswerResult (processNewEvent e)
  | CallJumpToEventIndex entropy i => answering AnswerEvents (jumpToEventIndex entropy i)
  end.

(** The completion and the state after each call of a sequence; a caller
    that catches an exception carries on with the state the throw left. *)
Fixpoint trace (calls : list Call) (s : GameState)
  : list (Completion Answer * GameState) :=
  match calls with
  | [] => []
  | c :: r => perform c s :: trace r (snd (perform c s))
  end.

(** The state after a sequence of calls. *)
Definition after (calls : list Call) (s : GameState) : GameState :=
  fold_left (fun s c => snd (perform c s)) calls s.

Inductive reachable : GameState -> Prop :=
  | reachable_new : forall entropy props, reachable (snd (newGame entropy props))
  | reachable_call : forall s c, reachable s -> reachable (snd (perform c s)).

(* ------------------------------------------------------------------------- *)
(** * Frame conditions

    [frames R m]: whatever [m] returns or throws, the state it leaves is
    related by [R] to the state it started from. *)

Definition frames (R : GameState -> GameState -> Prop) {A : Type} (m : Method A) : Prop :=
  forall s, R s (snd (m s)).

(** A method that only reads. *)
Abbreviation readonly := (frames eq).

(* ------------------------------------------------------------------------- *)
(** * The rules in the words of the specification

    The definitions of this part follow the sentences of the specification
    rather than the source; the theorems compare them with the engine. *)

(** The most recent domain moves, the most recent first. *)
Definition recentMoves (s : GameState) : list GameEvent := rev (non_info (events s)).

(** Expected rank: the rank of the top discard card, unless that card is
    color switching. *)
Definition expectedRank (s : GameState) : option AllCards :=
  match rev (pile (cache s)) with
  | top :: _ => if isColorSwitching (card_type top) then None else Some (card_type top)
  | [] => None
  end.

(** Expected color: the color of the most recent entry of the color
    history. *)
Definition expectedColor (s : GameState) : option CardColor :=
  match rev (last3CardPlayOrColorChanges (cache s)) with
  | ChosenColor c :: _ => Some c
  | PlayedCard c :: _ => card_color c
  | [] => None
  end.

(** "The card matches neither the expected rank nor the expected color",
    read with an absent expectation as a wildcard that every card matches. *)
Definition matchesNeitherWildcard (s : GameState) (card : Card) : bool :=
  negb (match expectedRank s with
        | None => true
        | Some t => AllCards_beq (card_type card) t
        end)
  && negb (match expectedColor s with
           | None => true
           | Some c => option_beq CardColor_beq (card_color card) (Some c)
           end).

(** The same sentence as the engine applies it: an absent expected rank is
    matched by no card, and a card without a color is never turned away for
    its color. *)
Definition matchesNeither (s : GameState) (card : Card) : bool :=
  negb (option_beq AllCards_beq (expectedRank s) (Some (card_type card)))
  && match card_color card with
     | Some c => negb (option_beq CardColor_beq (Some c) (expectedColor s))
     | None => false
     end.

(** The checks that come before the expected-card check of a [PlayCard]:
    player count, turn ownership, game ended, the three pending windows, and
    the rule against a color switching last card. *)
Definition passesEarlierChecks (s : GameState) (by_ : PlayerId) (card : Card) : bool :=
  (MIN_PLAYERS <=? length (players s))%nat
  && match fst (activePlayer s) with
     | Normal (Some p) => String.eqb by_ p
     | _ => false
     end
  && negb (ended (cache s))
  && match recentMoves s with
     | [] => false
     | lastEvent :: rest =>
         negb (playedColorSwitching lastEvent)
         && (negb (playedType (Plain plus_two) lastEvent)
             || AllCards_beq (card_type card) (Plain plus_two))
         && match rest with
            | secondLastEvent :: _ => negb (playedType (Switching plus_four) secondLastEvent)
            | [] => true
            end
     end
  && negb (isColorSwitching (card_type card)
           && match hands_get by_ (hands (cache s)) with
              | Some hand => (length hand =? 1)%nat
              | None => false
              end).

(** The number of cards a [Draw] takes, in the words of the specification. *)
Definition drawCount (s : GameState) : nat :=
  match recentMoves s with
  | card_played _ (ColoredCard plus_two _) :: _ =>
      if stackPlusTwos s then 2 * stackedPlusTwos (cache s) else 2
  | _ :: card_played _ (SwitchingCard plus_four) :: _ => 4
  | _ => 1
  end%nat.

(** The state in which a bluff call is resolved: the call is in the log and
    the turn has advanced. *)
Definition bluffSite (s : GameState) (by_ : PlayerId) : GameState :=
  snd ((recordEvent (game_event (bluff_called by_)) ;;; advanceTurn 1) s).

(** Whether playing [card] would have been legal under the bluff-site
    check. *)
Definition legalAtBluffSite (site : GameState) (card : Card) : bool :=
  match fst (checkEvent (card_played ENGINE_ID card) true site) with
  | Normal None => true
  | _ => false
  end.

(** Whether some card of [hand] that is not color switching would have been
    legal: the wild-draw-four was a bluff. *)
Definition wasBluff (s : GameState) (by_ : PlayerId) (hand : list Card) : bool :=
  existsb (legalAtBluffSite (bluffSite s by_))
          (filter (fun c => negb (isColorSwitching (card_type c))) hand).

(** The cards left to draw: the draw pile and the discard pile. *)
Definition supply (s : GameState) : nat :=
  (length (deck (cache s)) + length (pile (cache s)))%nat.

(* ------------------------------------------------------------------------- *)
(** * Example games *)

Module Example.
Local Open Scope string_scope.

Definition p1 : PlayerId := "p1".
Definition p2 : PlayerId := "p2".

(** [new Game({ initialSeed, shorthandMode, stackPlusTwos })]; the entropy
    is not consulted for a non-zero seed. *)
Definition seeded (n : Z) (shorthand : bool) (stack : option bool) : GameState :=
  snd (newGame 0 (mkProps shorthand stack (Some (SeedNumber n)) false)).

(** The seed of the undo test of the repository, with two players. *)
Definition opening : GameState :=
  after [CallJoin [p1; p2]] (seeded 4087001194 false None).

(** [p1] plays the color chooser and asks for red. *)
Definition afterColorChooser : GameState :=
  after [CallProcessNewEvent (card_played p1 (SwitchingCard color_chooser));
         CallProcessNewEvent (choose_color p1 red)] opening.

Definition elevenPlayers : list PlayerId :=
  ["a1"; "a2"; "a3"; "a4"; "a5"; "a6"; "a7"; "a8"; "a9"; "a10"; "a11"].

(** A round of the table in which both players draw a card and pass. *)
Definition drawAndPass : list Call :=
  [CallProcessNewEvent (draw p1); CallProcessNewEvent (pass p1);
   CallProcessNewEvent (draw p2); CallProcessNewEvent (pass p2)].

(** After 47 such rounds both piles are empty: every card is in a hand. *)
Definition exhausted : GameState :=
  after (concat (repeat drawAndPass 47)) opening.

(** With every card in a hand, [p1] plays the blue draw-two. *)
Definition exhaustedAfterPlusTwo : GameState :=
  after [CallProcessNewEvent (card_played p1 (ColoredCard plus_two blue))] exhausted.

(** With every card in a hand, [p1] plays a wild-draw-four and asks for
    red. *)
Definition exhaustedAfterPlusFour : GameState :=
  after [CallProcessNewEvent (card_played p1 (SwitchingCard plus_four));
         CallProcessNewEvent (choose_color p1 red)] exhausted.

(** A game in which [p1] opens with a wild-draw-four and asks for red.
    With seed 5 the top card is blue and [p1] holds blue cards; with seed 6
    the top card is blue and [p1] holds none. *)
Definition afterPlusFour (seed_ : Z) (shorthand : bool) : GameState :=
  after [CallJoin [p1; p2];
         CallProcessNewEvent (card_played p1 (SwitchingCard plus_four));
         CallProcessNewEvent (choose_color p1 red)]
        (seeded seed_ shorthand None).

(** The hand of a player, empty if there is none. *)
Definition held (s : GameState) (p : PlayerId) : list Card :=
  match hands_get p (hands (cache s)) with
  | Some hand => hand
  | None => []
  end.

(** [p1] opens with the blue draw-two. *)
Definition afterPlusTwo : GameState :=
  after [CallProcessNewEvent (card_played p1 (ColoredCard plus_two blue))] opening.

End Example.

(* ------------------------------------------------------------------------- *)
(** * Relations between the state before and after a method *)

(** Everything is as before, except the two piles, the seed and the log:
    what drawing cards may change. *)
Definition sameButPiles (s s' : GameState) : Prop :=
  shorthandMode s' = shorthandMode s
  /\ index s' = index s
  /\ initialSeed s' = initialSeed s
  /\ players s' = players s
  /\ stackPlusTwos s' = stackPlusTwos s
  /\ hands (cache s') = hands (cache s)
  /\ stackedPlusTwos (cache s') = stackedPlusTwos (cache s)
  /\ turnStep (cache s') = turnStep (cache s)
  /\ ended (cache s') = ended (cache s)
  /\ last3CardPlayOrColorChanges (cache s') = last3CardPlayOrColorChanges (cache s).

(** The deck keeps its size and the discard pile is untouched: what a
    shuffle guarantees. *)
Definition sameDeckSize (s s' : GameState) : Prop :=
  length (deck (cache s')) = length (deck (cache s))
  /\ pile (cache s') = pile (cache s).

(** Only the log may differ. *)
Definition sameButLog (s s' : GameState) : Prop :=
  set_events (events s) s' = s.

(** A method that never throws. *)
Definition total {A : Type} (m : Method A) : Prop :=
  forall s, exists a, fst (m s) = Normal a.

(** Under the invariant [I], which it maintains, the method throws only
    exceptions that satisfy [P]. *)
Definition guarded (I : GameState -> Prop) (P : Thrown -> Prop) {A : Type}
    (m : Method A) : Prop :=
  forall s, I s -> I (snd (m s)) /\ (forall t, fst (m s) = Abrupt t -> P t).

(** An exception that is not a rejection of the call: anything but a
    [UnocabError] other than supply-exhausted. *)
Definition notRejection (t : Thrown) : Prop :=
  match t with
  | ThrowUnocab err => err = DeckPileExhausted
  | _ => True
  end.

(** The players [a] and [b] hold a hand. *)
Definition holdHands (a b : PlayerId) (s : GameState) : Prop :=
  hands_get a (hands (cache s)) <> None /\ hands_get b (hands (cache s)) <> None.

(** The roster: who is in [players], and who has an entry in [hands]. *)
Definition sameRoster (s s' : GameState) : Prop :=
  players s' = players s
  /\ map fst (hands (cache s')) = map fst (hands (cache s)).

(* ------------------------------------------------------------------------- *)
(** * Invariants of the reachable states *)

(** Every player of the game has an entry in [hands]. *)
Definition playersHoldHands (s : GameState) : Prop :=
  forall p, In p (players s) -> hands_get p (hands (cache s)) <> None.

(** The key [b] may be enumerated after the key [a]: they differ, and [b]
    is not one that is enumerated before [a]. *)
Definition mayFollow (a b : string) : Prop :=
  String.eqb b a = false /\ JS.enumeratedBefore b a = false.

(** The keys of an object in the order of [Object.entries]. *)
Fixpoint enumerationOrder (keys : list string) : Prop :=
  match keys with
  | [] => True
  | a :: r => Forall (mayFollow a) r /\ enumerationOrder r
  end.

(** The entries of [hands] are listed as the engine's object enumerates
    them. *)
Definition wellKeyed (s : GameState) : Prop :=
  enumerationOrder (map fst (hands (cache s))).

Definition invariant (s : GameState) : Prop :=
  playersHoldHands s /\ wellKeyed s.

Definition isGameEvent (e : LoggedEvent) : bool :=
  match e with game_event _ => true | game_info _ => false end.

(** In shorthand mode the log holds domain moves only. *)
Definition shorthandLog (s : GameState) : Prop :=
  shorthandMode s = true -> forallb isGameEvent (events s) = true.

(** The mode is as before, and a shorthand log stays one. *)
Definition logKept (s s' : GameState) : Prop :=
  shorthandMode s' = shorthandMode s /\ (shorthandLog s -> shorthandLog s').

(** What holds of every reachable state. *)
Definition wellFormed (s : GameState) : Prop :=
  invariant s /\ shorthandLog s.

(** The invariant on players and hands is kept. *)
Definition keepsInvariant (s s' : GameState) : Prop := invariant s -> invariant s'.

(** The player is in the game with a hand of seven cards. *)
Definition dealtIn (p : PlayerId) (s : GameState) : Prop :=
  In p (players s)
  /\ exists hand, hands_get p (hands (cache s)) = Some hand /\ length hand = 7%nat.

Definition sameHands (s s' : GameState) : Prop := hands (cache s') = hands (cache s).

(* ------------------------------------------------------------------------- *)
(** * The cards *)

(** The deck holds the same cards, in some order, and the discard pile is
    untouched: what a shuffle does to the cards. *)
Definition deckPermuted (s s' : GameState) : Prop :=
  Permutation (deck (cache s')) (deck (cache s))
  /\ pile (cache s') = pile (cache s).

(** The log and the retention mode are as they were. *)
Definition logUntouched (s s' : GameState) : Prop :=
  events s' = events s /\ shorthandMode s' = shorthandMode s.

(** Whether [checkEvent(event)] returns no error in the state [s]. *)
Definition accepted (s : GameState) (event : GameEvent) : bool :=
  match fst (checkEvent event false s) with
  | Normal None => true
  | _ => false
  end.

(** The events that [validEvents(playerId)] chooses from. *)
Definition candidates (playerId : PlayerId) (hand : list Card) : list GameEvent :=
  [draw playerId; bluff_called playerId; pass playerId; choose_color playerId red]
  ++ map (fun card => card_played playerId card) hand.

(* ------------------------------------------------------------------------- *)
(** * Further invariants *)

(** A property of the state that is kept. *)
Definition keeps (I : GameState -> Prop) (s s' : GameState) : Prop := I s -> I s'.

(** A bounded log holds at most [MAX_SHORTHAND_EVENTS] entries, all of them
    domain moves. *)
Definition boundedLog (s : GameState) : Prop :=
  shorthandMode s = true ->
  (length (events s) <= MAX_SHORTHAND_EVENTS)%nat
  /\ forallb isGameEvent (events s) = true.

(** The log starts with a domain move (the card the engine plays first),
    and is bounded in shorthand mode. *)
Definition headedLog (s : GameState) : Prop :=
  boundedLog s /\ exists e r, events s = game_event e :: r.

(** The mode is kept, and so is each of the two properties of the log. *)
Definition logShapeKept (s s' : GameState) : Prop :=
  shorthandMode s' = shorthandMode s
  /\ (boundedLog s -> boundedLog s')
  /\ (headedLog s -> headedLog s').

(** The state of a new game that has received the calls [calls]. *)
Definition played (entropy : Z) (props : Props) (calls : list Call) : GameState :=
  after calls (snd (newGame entropy props)).

(** The players who hold cards, in the order of [Object.entries]:
    [Object.entries(hands).filter(([, v]) => v.length).map(([k]) => k)]. *)
Definition playersWithCards (h : Hands) : list PlayerId :=
  map fst (filter (fun kv => negb (length (snd kv) =? 0)%nat) h).

(** The opening position with the hand of [p1] reduced to the blue seven. *)
Definition oneCardLeft : GameState :=
  set_hands (hands_set Example.p1 [ColoredCard seven blue]
                       (hands (cache Example.opening)))
            Example.opening.

(** The position after [p1] has played that last card: the game has ended. *)
Definition gameOver : GameState :=
  snd (processNewEvent (card_played Example.p1 (ColoredCard seven blue)) oneCardLeft).

(** A game that has ended has a player who holds cards: the loser that
    [hasEnded] looks for. *)
Definition endedHasLoser (s : GameState) : Prop :=
  ended (cache s) = true -> playersWithCards (hands (cache s)) <> [].

(** The flag [ended] is as it was. *)
Definition endedKept (s s' : GameState) : Prop :=
  ended (cache s') = ended (cache s).

(** The cache is as it was. *)
Definition cacheKept (s s' : GameState) : Prop := cache s' = cache s.

(* ------------------------------------------------------------------------- *)
(** * Where the cards are *)

(** The cards of all the hands. *)
Definition handCards (h : Hands) : list Card := concat (map snd h).

(** The cards the state holds: the deck, the discard pile and the hands. *)
Definition cardsInPlay (s : GameState) : list Card :=
  deck (cache s) ++ pile (cache s) ++ handCards (hands (cache s)).

(** The state holds the same cards, possibly in other places. *)
Definition cardsPermuted (s s' : GameState) : Prop :=
  Permutation (cardsInPlay s') (cardsInPlay s).

(** The state holds no card that it did not hold before: some cards may
    have been lost, none was created or duplicated. *)
Definition noNewCards (s s' : GameState) : Prop :=
  exists lost, Permutation (cardsInPlay s' ++ lost) (cardsInPlay s).

(** The cards of the state all come from one pack. *)
Definition onePack (s : GameState) : Prop :=
  exists lost, Permutation (cardsInPlay s ++ lost) DECK.

(** What a method does to the cards: it creates none, and loses none unless
    it throws the supply-exhausted error. *)
Definition conserves {A : Type} (m : Method A) (s : GameState) : Prop :=
  noNewCards s (snd (m s))
  /\ (fst (m s) <> Abrupt (ThrowUnocab DeckPileExhausted) -> cardsPermuted s (snd (m s))).

(* ------------------------------------------------------------------------- *)
(** * The seed and the platform's randomness *)

(** The initial seed, from which [jumpToEventIndex] rebuilds the game, is
    as it was. *)
Definition seedKept (s s' : GameState) : Prop := initialSeed s' = initialSeed s.

(** The same call, made on a platform whose [crypto.getRandomValues] writes
    [entropy]. *)
Definition withEntropy (entropy : Z) (c : Call) : Call :=
  match c with
  | CallJumpToEventIndex _ i => CallJumpToEventIndex entropy i
  | _ => c
  end.

(** The option [stackPlusTwos] is as it was. *)
Definition stackKept (s s' : GameState) : Prop := stackPlusTwos s' = stackPlusTwos s.

(** The opening position after [p1] has drawn a card, and after [p1] has
    played the color chooser. *)
Definition afterDraw : GameState :=
  after [CallProcessNewEvent (draw Example.p1)] Example.opening.

Definition afterWild : GameState :=
  after [CallProcessNewEvent (card_played Example.p1 (SwitchingCard color_chooser))]
        Example.opening.
(* ------------------------------------------------------------------------- *)
(** * Reasoning about methods *)

(** Splits a conjunction, and only a conjunction. *)
Ltac conjuncts := repeat match goal with |- _ /\ _ => split end.

Lemma bind_normal : forall (A B : Type) (m : Method A) (k : A -> Method B) s a s1,
  m s = (Normal a, s1) -> bind m k s = k a s1.
Proof. intros A B m k s a s1 H. unfold bind. rewrite H. reflexivity. Qed.

Lemma bind_abrupt : forall (A B : Type) (m : Method A) (k : A -> Method B) s t s1,
  m s = (Abrupt t, s1) -> bind m k s = (Abrupt t, s1).
Proof. intros A B m k s t s1 H. unfold bind. rewrite H. reflexivity. Qed.

Lemma bind_inv : forall (A B : Type) (m : Method A) (k : A -> Method B) s r s',
  bind m k s = (r, s') ->
  (exists a s1, m s = (Normal a, s1) /\ k a s1 = (r, s'))
  \/ (exists t, m s = (Abrupt t, s') /\ r = Abrupt t).
Proof.
  intros A B m k s r s' H. unfold bind in H.
  destruct (m s) as [[a | t] s1].
  - left. exists a, s1. split; [reflexivity | exact H].
  - right. exists t. inversion H; subst. split; reflexivity.
Qed.

(** ** Composing frame conditions *)
Section Frames.
Variable R : GameState -> GameState -> Prop.
Hypothesis R_refl : forall s, R s s.
Hypothesis R_trans : forall a b c, R a b -> R b c -> R a c.

Lemma frames_ret : forall (A : Type) (a : A), frames R (ret a).
Proof. intros A a s. apply R_refl. Qed.

Lemma frames_throw : forall (A : Type) (t : Thrown), frames R (@throw A t).
Proof. intros A t s. apply R_refl. Qed.

Lemma frames_gets : forall (A : Type) (f : GameState -> A), frames R (gets f).
Proof. intros A f s. apply R_refl. Qed.

Lemma frames_modify : forall f, (forall s, R s (f s)) -> frames R (modify f).
Proof. intros f H s. apply H. Qed.

Lemma frames_bind : forall (A B : Type) (m : Method A) (k : A -> Method B),
  frames R m -> (forall a, frames R (k a)) -> frames R (bind m k).
Proof.
  intros A B m k Hm Hk s. unfold bind.
  specialize (Hm s). destruct (m s) as [[a | t] s1]; simpl in *.
  - eapply R_trans; [exact Hm | apply Hk].
  - exact Hm.
Qed.

Lemma frames_forEach : forall (A : Type) (f : A -> Method unit) (l : list A),
  (forall a, frames R (f a)) -> frames R (forEach l f).
Proof.
  intros A f l Hf. induction l as [| x r IH]; simpl.
  - apply frames_ret.
  - apply frames_bind; [apply Hf | intros _; exact IH].
Qed.

Lemma frames_replicateM : forall (A : Type) (m : Method A) (n : nat),
  frames R m -> frames R (replicateM n m).
Proof.
  intros A m n Hm. induction n as [| n IH]; simpl.
  - apply frames_ret.
  - apply frames_bind; [exact Hm | intros a].
    apply frames_bind; [exact IH | intros r; apply frames_ret].
Qed.
End Frames.

(** One step of a frame proof, for a relation whose reflexivity and
    transitivity are [Hr] and [Ht]. *)
Ltac frames_step Hr Ht :=
  lazymatch goal with
  | |- frames _ (ret _) => apply (frames_ret _ Hr)
  | |- frames _ (throw _) => apply (frames_throw _ Hr)
  | |- frames _ (throwUnocab _) => apply (frames_throw _ Hr)
  | |- frames _ (gets _) => apply (frames_gets _ Hr)
  | |- frames _ (bind _ _) => apply (frames_bind _ Ht); [ | intro ]
  | |- frames _ (forEach _ _) => apply (frames_forEach _ Hr Ht); intro
  | |- frames _ (replicateM _ _) => apply (frames_replicateM _ Hr Ht)
  | |- frames _ (if ?b then _ else _) => destruct b
  | |- frames _ (match ?x with _ => _ end) => destruct x
  end.

(** ** Methods that only read *)

Lemma eq_refl_state : forall s : GameState, s = s.
Proof. reflexivity. Qed.

Lemma eq_trans_state : forall a b c : GameState, a = b -> b = c -> a = c.
Proof. intros a b c H1 H2. congruence. Qed.

Ltac readonly_auto :=
  repeat first [ assumption | solve [auto with readonly]
               | frames_step eq_refl_state eq_trans_state
               | progress cbv beta zeta ].

Create HintDb readonly.

Lemma readonly_nonInfoEvents : readonly nonInfoEvents.
Proof. unfold nonInfoEvents. readonly_auto. Qed.
#[export] Hint Resolve readonly_nonInfoEvents : readonly.

Lemma readonly_lastTwoNonInfoEvents : forall i, readonly (lastTwoNonInfoEvents i).
Proof. intros i. unfold lastTwoNonInfoEvents. readonly_auto. Qed.
#[export] Hint Resolve readonly_lastTwoNonInfoEvents : readonly.

Lemma readonly_handOf : forall p, readonly (handOf p).
Proof. intros p. unfold handOf. readonly_auto. Qed.
#[export] Hint Resolve readonly_handOf : readonly.

Lemma readonly_activePlayer : readonly activePlayer.
Proof. unfold activePlayer. readonly_auto. Qed.
#[export] Hint Resolve readonly_activePlayer : readonly.

Lemma readonly_hasEnded : readonly hasEnded.
Proof. unfold hasEnded. readonly_auto. Qed.
#[export] Hint Resolve readonly_hasEnded : readonly.

Lemma readonly_expectedCard : forall b, readonly (expectedCard b).
Proof. intros b. unfold expectedCard. readonly_auto. Qed.
#[export] Hint Resolve readonly_expectedCard : readonly.

Lemma readonly_checkKind : forall e b last, readonly (checkKind e b last).
Proof. intros e b last. unfold checkKind. readonly_auto. Qed.
#[export] Hint Resolve readonly_checkKind : readonly.

Lemma readonly_earlyChecks : forall e b, readonly (earlyChecks e b).
Proof. intros e b. unfold earlyChecks. readonly_auto. Qed.
#[export] Hint Resolve readonly_earlyChecks : readonly.

Lemma readonly_checkEvent : forall e b, readonly (checkEvent e b).
Proof. intros e b. unfold checkEvent. readonly_auto. Qed.
#[export] Hint Resolve readonly_checkEvent : readonly.

Lemma readonly_someValidAtBluffSite : forall cards, readonly (someValidAtBluffSite cards).
Proof.
  intros cards. induction cards as [| c r IH]; simpl; readonly_auto.
Qed.
#[export] Hint Resolve readonly_someValidAtBluffSite : readonly.

Lemma readonly_filterValid : forall l, readonly (filterValid l).
Proof.
  intros l. induction l as [| e r IH]; simpl; readonly_auto.
Qed.
#[export] Hint Resolve readonly_filterValid : readonly.

Lemma readonly_validEvents : forall p, readonly (validEvents p).
Proof. intros p. unfold validEvents. readonly_auto. Qed.
#[export] Hint Resolve readonly_validEvents : readonly.

(** A read-only method returns in the state it was called in. *)
Lemma readonly_run : forall (A : Type) (m : Method A) s r s',
  readonly m -> m s = (r, s') -> s' = s.
Proof.
  intros A m s r s' H E. specialize (H s). rewrite E in H. simpl in H. congruence.
Qed.

(* ------------------------------------------------------------------------- *)
(** * The validator has no side effect *)

(** C10: [checkEvent] leaves the state as it found it, whatever the event
    and the [bluffSiteCheck] flag, and whether it returns or throws; so do
    [validEvents] and the probe that [processNewEvent] runs over the hand of
    the accused when a bluff is called. *)
Theorem checkEvent_has_no_side_effect :
  (forall (event : GameEvent) (bluffSiteCheck : bool) (s : GameState),
      snd (checkEvent event bluffSiteCheck s) = s)
  /\ (forall (playerId : PlayerId) (s : GameState), snd (validEvents playerId s) = s)
  /\ (forall (cards : list Card) (s : GameState), snd (someValidAtBluffSite cards s) = s).
Proof.
  split; [| split]; intros.
  - symmetry. apply readonly_checkEvent.
  - symmetry. apply readonly_validEvents.
  - symmetry. apply readonly_someValidAtBluffSite.
Qed.

(* ------------------------------------------------------------------------- *)
(** * Looking back at the log *)

Lemma slice_last_two : forall (A : Type) (l : list A),
  rev (JS.slice (-2) None l) = firstn 2 (rev l).
Proof.
  intros A l. unfold JS.slice. cbv zeta.
  change (-2 <? 0) with true. cbv iota.
  rewrite firstn_rev. f_equal.
  replace (Z.to_nat (Z.max (Z.of_nat (length l) + -2) 0)) with (length l - 2)%nat by lia.
  apply firstn_all2. rewrite length_skipn. lia.
Qed.

Lemma lastTwoNonInfoEvents_run : forall s,
  lastTwoNonInfoEvents None s = (Normal (firstn 2 (recentMoves s)), s).
Proof.
  intros s. unfold lastTwoNonInfoEvents, nonInfoEvents, bind, gets, ret, recentMoves.
  change (-2 + 0) with (-2). rewrite slice_last_two. reflexivity.
Qed.

Lemma at_back_1 : forall (A : Type) (l : list A), JS.at_back 1 l = hd_error (rev l).
Proof.
  intros A l. unfold JS.at_back.
  destruct l as [| x r] using rev_ind; [reflexivity |].
  rewrite rev_unit, length_app. simpl.
  replace (length r + 1 <? 1)%nat with false by (symmetry; apply Nat.ltb_ge; lia).
  replace (length r + 1 - 1)%nat with (length r) by lia.
  rewrite nth_error_app2 by lia. rewrite Nat.sub_diag. reflexivity.
Qed.

Lemma expectedCard_run : forall s,
  expectedCard false s = (Normal (expectedRank s, expectedColor s), s).
Proof.
  intros s. unfold expectedCard, gets, expectedRank, expectedColor.
  rewrite !at_back_1.
  destruct (rev (pile (cache s))) as [| top r];
    destruct (rev (last3CardPlayOrColorChanges (cache s))) as [| [c | c] r'];
    simpl; try destruct (isColorSwitching (card_type top)); reflexivity.
Qed.

(** The active player holds a hand. *)
Lemma hands_get_In : forall k h, In k (map fst h) -> exists hand, hands_get k h = Some hand.
Proof.
  intros k h. induction h as [| [k' v] r IH]; simpl; intros H; [contradiction |].
  destruct (String.eqb k k') eqn:E.
  - exists v. reflexivity.
  - destruct H as [H | H].
    + subst k'. rewrite String.eqb_refl in E. discriminate.
    + apply IH, H.
Qed.

Lemma activePlayer_has_hand : forall s p,
  fst (activePlayer s) = Normal (Some p) ->
  exists hand, hands_get p (hands (cache s)) = Some hand.
Proof.
  intros s p H. unfold activePlayer, gets in H. simpl in H.
  apply hands_get_In.
  destruct (map fst (hands (cache s))) as [| k ks] eqn:E; [discriminate |].
  inversion H as [H1]. eapply nth_error_In. exact H1.
Qed.

(* ------------------------------------------------------------------------- *)
(** * Running the read-only methods *)

Lemma activePlayer_run : forall s, activePlayer s = (fst (activePlayer s), s).
Proof. reflexivity. Qed.

Lemma hasEnded_run : forall s, ended (cache s) = false -> hasEnded s = (Normal None, s).
Proof. intros s H. unfold hasEnded, bind, gets. cbv beta iota. rewrite H. reflexivity. Qed.

Lemma handOf_run : forall p s hand,
  hands_get p (hands (cache s)) = Some hand -> handOf p s = (Normal hand, s).
Proof. intros p s hand H. unfold handOf, bind, gets. cbv beta iota. rewrite H. reflexivity. Qed.

Lemma handOf_inv : forall p s r s',
  handOf p s = (r, s') ->
  s' = s /\ match r with
            | Normal hand => hands_get p (hands (cache s)) = Some hand
            | Abrupt t => t = ThrowUnocab (PlayerNotInGame p)
                          /\ hands_get p (hands (cache s)) = None
            end.
Proof.
  intros p s r s' H. unfold handOf, bind, gets in H. cbv beta iota in H.
  destruct (hands_get p (hands (cache s))) as [hand |];
    inversion H; subst; split; auto.
Qed.

Lemma earlyChecks_pass : forall event s,
  (MIN_PLAYERS <=? length (players s))%nat = true ->
  match fst (activePlayer s) with
  | Normal (Some p) => String.eqb (event_by event) p
  | _ => false
  end = true ->
  earlyChecks event false s = (Normal None, s).
Proof.
  intros event s Hc Ha. unfold earlyChecks. change (negb false) with true. cbv iota.
  unfold bind at 1. unfold gets at 1. cbv beta iota.
  replace (length (players s) <? MIN_PLAYERS)%nat with false
    by (symmetry; apply Nat.ltb_ge; apply Nat.leb_le; exact Hc).
  unfold bind. rewrite activePlayer_run.
  destruct (fst (activePlayer s)) as [[p |] | t]; try discriminate.
  simpl. rewrite Ha. reflexivity.
Qed.

(** C6, as amended: a [PlayCard] that passes the checks on player count,
    turn, end of game and pending windows, and is not a color switching last
    card, is rejected with must-play-expected-card exactly when its rank
    differs from the expected rank (the rank of the top discard card; none,
    which no card matches, when that card is color switching) and it carries
    a color that differs from the expected color (the color of the most
    recent color history entry); a card without a color is never rejected by
    this check.  Otherwise the play is valid. *)
Theorem expected_card_check : forall (s : GameState) (by_ : PlayerId) (card : Card),
  passesEarlierChecks s by_ card = true ->
  checkEvent (card_played by_ card) false s =
    (Normal (if matchesNeither s card
             then Some (MustPlayExpectedCard (expectedRank s) (expectedColor s) card)
             else None), s).
Proof.
  intros s by_ card H. unfold passesEarlierChecks in H.
  apply andb_prop in H. destruct H as [H Hlast].
  apply andb_prop in H. destruct H as [H Hwin].
  apply andb_prop in H. destruct H as [H Hend].
  apply andb_prop in H. destruct H as [Hcount Hact].
  apply negb_true_iff in Hend.
  unfold checkEvent.
  rewrite (bind_normal _ _ _ _ _ _ _
             (earlyChecks_pass (card_played by_ card) s Hcount Hact)).
  rewrite (bind_normal _ _ _ _ _ _ _ (hasEnded_run _ Hend)).
  rewrite (bind_normal _ _ _ _ _ _ _ (lastTwoNonInfoEvents_run _)).
  destruct (recentMoves s) as [| lastEvent rest]; [discriminate |].
  apply andb_prop in Hwin. destruct Hwin as [Hwin H4].
  apply andb_prop in Hwin. destruct Hwin as [Hcs H2].
  apply negb_true_iff in Hcs.
  assert (Hplus : playedType (Plain plus_two) lastEvent
                  && negb (isDraw (card_played by_ card))
                  && negb (playedType (Plain plus_two) (card_played by_ card)) = false).
  { simpl. destruct (playedType (Plain plus_two) lastEvent); simpl in *; [| reflexivity].
    rewrite H2. reflexivity. }
  assert (Hfour : match firstn 1 rest with
                  | secondLastEvent :: _ =>
                      playedType (Switching plus_four) secondLastEvent
                      && negb (isDraw (card_played by_ card))
                      && negb (isBluffCalled (card_played by_ card))
                  | [] => false
                  end = false).
  { destruct rest as [| second rest']; simpl; [reflexivity |].
    apply negb_true_iff in H4. rewrite H4. reflexivity. }
  change (firstn 2 (lastEvent :: rest)) with (lastEvent :: firstn 1 rest).
  cbv iota. rewrite Hcs, andb_false_l, Hplus, Hfour.
  unfold checkKind.
  destruct (activePlayer_has_hand s by_) as [hand Hhand].
  { destruct (fst (activePlayer s)) as [[p |] | t]; try discriminate.
    apply String.eqb_eq in Hact. subst p. reflexivity. }
  rewrite Hhand in Hlast. apply negb_true_iff in Hlast.
  assert (Hfirst :
    (if isColorSwitching (card_type card)
     then hand0 <- handOf by_ ;; ret (length hand0 =? 1)%nat
     else ret false) s = (Normal false, s)).
  { destruct (isColorSwitching (card_type card)); [| reflexivity].
    rewrite (bind_normal _ _ _ _ _ _ _ (handOf_run _ _ _ Hhand)).
    simpl in Hlast. unfold ret. rewrite Hlast. reflexivity. }
  rewrite (bind_normal _ _ _ _ _ _ _ Hfirst).
  rewrite (bind_normal _ _ _ _ _ _ _ (expectedCard_run _)).
  unfold matchesNeither.
  destruct (negb (option_beq AllCards_beq (expectedRank s) (Some (card_type card)))
            && match card_color card with
               | Some c => negb (option_beq CardColor_beq (Some c) (expectedColor s))
               | None => false
               end); reflexivity.
Qed.

(** C6, counterexample to the claim as stated.  After [p1] has played the
    color chooser and asked for red, the top discard card is color switching,
    so there is no expected rank.  Read as a wildcard, the absent rank is
    matched by the blue zero of [p2], which then does not "match neither";
    the engine rejects the card with must-play-expected-card.  In the opening
    position a color chooser matches neither the rank nor the color of the
    top card, and the engine accepts it. *)
Lemma wildcard_reading_refuted :
  (passesEarlierChecks Example.afterColorChooser Example.p2 (ColoredCard zero blue) = true
   /\ matchesNeitherWildcard Example.afterColorChooser (ColoredCard zero blue) = false
   /\ checkEvent (card_played Example.p2 (ColoredCard zero blue)) false
                 Example.afterColorChooser
      = (Normal (Some (MustPlayExpectedCard None (Some red) (ColoredCard zero blue))),
         Example.afterColorChooser))
  /\ (passesEarlierChecks Example.opening Example.p1 (SwitchingCard color_chooser) = true
      /\ matchesNeitherWildcard Example.opening (SwitchingCard color_chooser) = true
      /\ checkEvent (card_played Example.p1 (SwitchingCard color_chooser)) false
                    Example.opening
         = (Normal None, Example.opening)).
Proof. vm_compute. conjuncts; reflexivity. Qed.

Lemma expected_card_check_witness :
  passesEarlierChecks Example.afterColorChooser Example.p2 (ColoredCard zero blue) = true
  /\ checkEvent (card_played Example.p2 (ColoredCard zero blue)) false
                Example.afterColorChooser
     = (Normal (if matchesNeither Example.afterColorChooser (ColoredCard zero blue)
                then Some (MustPlayExpectedCard
                             (expectedRank Example.afterColorChooser)
                             (expectedColor Example.afterColorChooser)
                             (ColoredCard zero blue))
                else None),
        Example.afterColorChooser).
Proof.
  split; [vm_compute; reflexivity |].
  apply (expected_card_check Example.afterColorChooser Example.p2 (ColoredCard zero blue)).
  vm_compute. reflexivity.
Defined.

(* ------------------------------------------------------------------------- *)
(** * Defects shown by evaluation *)

(** C8: the ceiling of ten players is tested once, by equality, before a
    batch is admitted.  Eleven players join a new game in one call. *)
Theorem eleven_players_join :
  fst (join Example.elevenPlayers (Example.seeded 1 false None)) = Normal tt
  /\ length (players (snd (join Example.elevenPlayers (Example.seeded 1 false None))))
     = 11%nat
  /\ length (hands (cache (snd (join Example.elevenPlayers (Example.seeded 1 false None)))))
     = 11%nat.
Proof. vm_compute. conjuncts; reflexivity. Qed.

(** C1: a seed of [0] (like the empty string) is falsy, so the constructor
    takes its seed from the entropy source: two games constructed with
    [initialSeed: 0] differ as soon as the entropy does. *)
Theorem zero_seed_is_not_used :
  let props := mkProps false None (Some (SeedNumber 0)) false in
  initialSeed (snd (newGame 1 props)) = 1
  /\ initialSeed (snd (newGame 2 props)) = 2
  /\ snd (newGame 1 props) <> snd (newGame 2 props)
  /\ snd (newGame 1 (mkProps false None (Some (SeedString EmptyString)) false))
     <> snd (newGame 2 (mkProps false None (Some (SeedString EmptyString)) false)).
Proof.
  cbv zeta. conjuncts; try (vm_compute; reflexivity);
    intros H; apply (f_equal initialSeed) in H; vm_compute in H; discriminate.
Qed.

(** C3: [jumpToEventIndex] builds its scratch game from the initial seed
    alone.  On a game constructed with [stackPlusTwos: false], jumping to the
    latest event discards nothing and yet returns a game that stacks. *)
Theorem jump_forgets_configuration :
  let s := Example.seeded 7 false (Some false) in
  stackPlusTwos s = false
  /\ fst (jumpToEventIndex 0 0 s) = Normal []
  /\ stackPlusTwos (snd (jumpToEventIndex 0 0 s)) = true
  /\ snd (jumpToEventIndex 0 0 s) <> s.
Proof.
  cbv zeta. conjuncts; try (vm_compute; reflexivity).
  intros H. apply (f_equal stackPlusTwos) in H. vm_compute in H. discriminate.
Qed.

(* ------------------------------------------------------------------------- *)
(** * Methods that never throw *)

Lemma total_ret : forall (A : Type) (a : A), total (ret a).
Proof. intros A a s. exists a. reflexivity. Qed.

Lemma total_gets : forall (A : Type) (f : GameState -> A), total (gets f).
Proof. intros A f s. exists (f s). reflexivity. Qed.

Lemma total_modify : forall f, total (modify f).
Proof. intros f s. exists tt. reflexivity. Qed.

Lemma total_bind : forall (A B : Type) (m : Method A) (k : A -> Method B),
  total m -> (forall a, total (k a)) -> total (bind m k).
Proof.
  intros A B m k Hm Hk s. unfold bind. destruct (Hm s) as [a Ha].
  destruct (m s) as [[a' | t] s1]; simpl in Ha; [| discriminate].
  apply Hk.
Qed.

Create HintDb total.

Ltac total_auto :=
  repeat first
    [ assumption
    | solve [auto with total]
    | apply total_ret | apply total_gets | apply total_modify
    | apply total_bind; [ | intro ]
    | match goal with
      | |- total (if ?b then _ else _) => destruct b
      | |- total (match ?x with _ => _ end) => destruct x
      end
    | progress cbv beta zeta ].

Lemma total_run : forall (A : Type) (m : Method A) s,
  total m -> exists a, m s = (Normal a, snd (m s)).
Proof.
  intros A m s H. destruct (H s) as [a Ha]. exists a.
  destruct (m s) as [r s1]. simpl in *. subst r. reflexivity.
Qed.

Lemma total_random : total random.
Proof. unfold random. total_auto. Qed.
#[export] Hint Resolve total_random : total.

Lemma total_recordEvent : forall e, total (recordEvent e).
Proof. intros e. unfold recordEvent. total_auto. Qed.
#[export] Hint Resolve total_recordEvent : total.

Lemma total_shuffle_loop : forall i, total (shuffle_loop i).
Proof.
  intros i. induction i as [| i IH]; simpl; total_auto.
Qed.
#[export] Hint Resolve total_shuffle_loop : total.

Lemma total_shuffleDeck : total shuffleDeck.
Proof.
  unfold shuffleDeck. total_auto.
Qed.

Lemma recordEvent_run : forall e s, recordEvent e s = (Normal tt, snd (recordEvent e s)).
Proof.
  intros e s. destruct (total_run _ (recordEvent e) s (total_recordEvent e)) as [[] H].
  exact H.
Qed.

Lemma shuffleDeck_run : forall s, shuffleDeck s = (Normal tt, snd (shuffleDeck s)).
Proof.
  intros s. destruct (total_run _ shuffleDeck s total_shuffleDeck) as [[] H]. exact H.
Qed.

(* ------------------------------------------------------------------------- *)
(** * What drawing changes *)

Lemma sameButPiles_refl : forall s, sameButPiles s s.
Proof. intros s. unfold sameButPiles. repeat split. Qed.

Lemma sameButPiles_trans : forall a b c,
  sameButPiles a b -> sameButPiles b c -> sameButPiles a c.
Proof.
  unfold sameButPiles. intros a b c H1 H2.
  decompose [and] H1. decompose [and] H2. repeat split; congruence.
Qed.

Lemma sameDeckSize_refl : forall s, sameDeckSize s s.
Proof. intros s. split; reflexivity. Qed.

Lemma sameDeckSize_trans : forall a b c,
  sameDeckSize a b -> sameDeckSize b c -> sameDeckSize a c.
Proof. unfold sameDeckSize. intros a b c [H1 H2] [H3 H4]. split; congruence. Qed.

Lemma sameButLog_refl : forall s, sameButLog s s.
Proof. intros [sh i is_ ps sp evs c]. reflexivity. Qed.

Lemma sameButLog_trans : forall a b c, sameButLog a b -> sameButLog b c -> sameButLog a c.
Proof.
  unfold sameButLog.
  intros [sh1 i1 is1 ps1 sp1 ev1 c1] [sh2 i2 is2 ps2 sp2 ev2 c2] [sh3 i3 is3 ps3 sp3 ev3 c3].
  unfold set_events. simpl. intros H1 H2. inversion H1; inversion H2; subst. reflexivity.
Qed.

(** The goal [R s (f s)] for an assignment [f]. *)
Ltac assignment :=
  intros;
  repeat match goal with
         | |- context [if ?b then _ else _] => destruct b
         end;
  first [ apply sameButPiles_refl | apply sameDeckSize_refl | apply sameButLog_refl
        | solve [unfold sameButPiles; simpl; repeat split; reflexivity]
        | solve [unfold sameDeckSize; simpl; repeat split; reflexivity]
        | solve [match goal with
                 | |- sameButLog ?s _ => destruct s; reflexivity
                 end] ].

Ltac frames_auto Hr Ht :=
  repeat first
    [ assumption
    | solve [auto with frames]
    | frames_step Hr Ht
    | apply frames_modify; solve [assignment]
    | progress cbv beta zeta ].

Create HintDb frames.

Lemma log_recordEvent : forall e, frames sameButLog (recordEvent e).
Proof.
  intros e. unfold recordEvent. frames_auto sameButLog_refl sameButLog_trans.
Qed.

Lemma piles_random : frames sameButPiles random.
Proof. unfold random. frames_auto sameButPiles_refl sameButPiles_trans. Qed.
#[export] Hint Resolve piles_random : frames.

Lemma piles_recordEvent : forall e, frames sameButPiles (recordEvent e).
Proof.
  intros e. unfold recordEvent. frames_auto sameButPiles_refl sameButPiles_trans.
Qed.
#[export] Hint Resolve piles_recordEvent : frames.

Lemma piles_shuffle_loop : forall i, frames sameButPiles (shuffle_loop i).
Proof.
  intros i. induction i as [| i IH]; simpl;
    frames_auto sameButPiles_refl sameButPiles_trans.
Qed.
#[export] Hint Resolve piles_shuffle_loop : frames.

Lemma piles_shuffleDeck : frames sameButPiles shuffleDeck.
Proof. unfold shuffleDeck. frames_auto sameButPiles_refl sameButPiles_trans. Qed.
#[export] Hint Resolve piles_shuffleDeck : frames.

Lemma piles_deckTopCard : frames sameButPiles deckTopCard.
Proof.
  unfold deckTopCard, recycleIfEmpty, getPile.
  frames_auto sameButPiles_refl sameButPiles_trans.
Qed.
#[export] Hint Resolve piles_deckTopCard : frames.

Lemma piles_draw : forall n, frames sameButPiles (replicateM n deckTopCard).
Proof. intros n. frames_auto sameButPiles_refl sameButPiles_trans. Qed.
#[export] Hint Resolve piles_draw : frames.

(** ** A shuffle keeps the size of the deck *)

Lemma length_set_at : forall (A : Type) (i : nat) (v : A) (l : list A),
  length (JS.set_at i v l) = length l.
Proof.
  intros A i v l. revert i. induction l as [| x r IH]; intros [| i]; simpl; auto.
Qed.

Lemma length_swap : forall (A : Type) (i j : nat) (l : list A),
  length (JS.swap i j l) = length l.
Proof.
  intros A i j l. unfold JS.swap.
  destruct (nth_error l i); [| reflexivity].
  destruct (nth_error l j); [| reflexivity].
  rewrite !length_set_at. reflexivity.
Qed.

Lemma size_random : frames sameDeckSize random.
Proof. unfold random. frames_auto sameDeckSize_refl sameDeckSize_trans. Qed.
#[export] Hint Resolve size_random : frames.

Lemma size_recordEvent : forall e, frames sameDeckSize (recordEvent e).
Proof.
  intros e. unfold recordEvent. frames_auto sameDeckSize_refl sameDeckSize_trans.
Qed.
#[export] Hint Resolve size_recordEvent : frames.

Lemma size_shuffle_loop : forall i, frames sameDeckSize (shuffle_loop i).
Proof.
  intros i. induction i as [| i IH]; simpl;
    frames_auto sameDeckSize_refl sameDeckSize_trans.
  apply frames_modify. intros s. split; simpl; [apply length_swap | reflexivity].
Qed.
#[export] Hint Resolve size_shuffle_loop : frames.

Lemma size_shuffleDeck : frames sameDeckSize shuffleDeck.
Proof. unfold shuffleDeck. frames_auto sameDeckSize_refl sameDeckSize_trans. Qed.

Lemma sameButLog_fields : forall s s',
  sameButLog s s' -> cache s' = cache s /\ index s' = index s /\ players s' = players s.
Proof.
  intros [sh i is_ ps sp evs c] [sh' i' is' ps' sp' evs' c'] H.
  unfold sameButLog, set_events in H. simpl in *. inversion H. auto.
Qed.

Lemma recordEvent_fields : forall e s,
  cache (snd (recordEvent e s)) = cache s
  /\ index (snd (recordEvent e s)) = index s
  /\ players (snd (recordEvent e s)) = players s.
Proof. intros e s. apply sameButLog_fields, log_recordEvent. Qed.

(** ** Drawing the top card *)

Lemma gets_bind : forall (A B : Type) (f : GameState -> A) (k : A -> Method B) s,
  bind (gets f) k s = k (f s) s.
Proof. reflexivity. Qed.

Lemma modify_bind : forall (B : Type) f (k : unit -> Method B) s,
  bind (modify f) k s = k tt (f s).
Proof. reflexivity. Qed.

Lemma ret_bind : forall (A B : Type) (a : A) (k : A -> Method B) s,
  bind (ret a) k s = k a s.
Proof. reflexivity. Qed.

Lemma recordEvent_bind : forall (B : Type) e (k : unit -> Method B) s,
  bind (recordEvent e) k s = k tt (snd (recordEvent e s)).
Proof. intros B e k s. apply bind_normal, recordEvent_run. Qed.

Lemma shuffleDeck_bind : forall (B : Type) (k : unit -> Method B) s,
  bind shuffleDeck k s = k tt (snd (shuffleDeck s)).
Proof. intros B k s. apply bind_normal, shuffleDeck_run. Qed.

(** One step of the evaluation of a method applied to a state. *)
Ltac step :=
  first [ rewrite gets_bind | rewrite modify_bind | rewrite ret_bind
        | rewrite recordEvent_bind | rewrite shuffleDeck_bind ];
  cbv beta.

Lemma recycle_full_deck : forall s,
  deck (cache s) <> [] -> recycleIfEmpty s = (Normal tt, s).
Proof.
  intros s H. unfold recycleIfEmpty. step.
  destruct (deck (cache s)); [contradiction | reflexivity].
Qed.

Lemma recycle_empty_deck : forall s p ps,
  deck (cache s) = [] -> pile (cache s) = p :: ps ->
  exists s',
    recycleIfEmpty s = (Normal tt, s')
    /\ length (deck (cache s')) = S (length ps)
    /\ pile (cache s') = [].
Proof.
  intros s p ps D P. unfold recycleIfEmpty, getPile. step. rewrite D.
  change (length (@nil Card) =? 0)%nat with true. cbv iota.
  step. rewrite P. change (length (p :: ps) =? 0)%nat with false. cbv iota.
  repeat step. rewrite recordEvent_run.
  eexists. split; [reflexivity |].
  set (s2 := snd (shuffleDeck (set_deck (p :: ps) s))).
  destruct (recordEvent_fields (game_info pile_to_deck) (set_pile [] s2)) as [Hc _].
  rewrite Hc. simpl.
  destruct (size_shuffleDeck (set_deck (p :: ps) s)) as [Hl _].
  fold s2 in Hl. rewrite Hl. split; reflexivity.
Qed.

Lemma deckTopCard_exhausted : forall s,
  supply s = 0%nat -> deckTopCard s = (Abrupt (ThrowUnocab DeckPileExhausted), s).
Proof.
  intros s H. unfold supply in H.
  assert (D : deck (cache s) = []) by (destruct (deck (cache s)); [reflexivity | simpl in H; lia]).
  assert (P : pile (cache s) = []) by (destruct (pile (cache s)); [reflexivity | simpl in H; lia]).
  unfold deckTopCard, recycleIfEmpty, getPile, bind, gets. cbv beta iota.
  rewrite D. simpl. rewrite P. reflexivity.
Qed.

Lemma pop_deck : forall s top rest,
  deck (cache s) = top :: rest ->
  (d <- gets (fun s => deck (cache s)) ;;
   match d with
   | [] => throw Undefined
   | top :: rest => modify (set_deck rest) ;;; ret top
   end) s = (Normal top, set_deck rest s).
Proof. intros s top rest D. step. rewrite D. reflexivity. Qed.

Lemma deckTopCard_draws : forall s,
  (0 < supply s)%nat ->
  exists c s', deckTopCard s = (Normal c, s') /\ supply s' = (supply s - 1)%nat.
Proof.
  intros s H. unfold supply in *. unfold deckTopCard.
  destruct (deck (cache s)) as [| top rest] eqn:D.
  - (* the discard pile becomes the deck *)
    simpl in H. destruct (pile (cache s)) as [| p ps] eqn:P; [simpl in H; lia |].
    destruct (recycle_empty_deck s p ps D P) as (s1 & E & Hl & Hp).
    rewrite (bind_normal _ _ _ _ _ _ _ E).
    destruct (deck (cache s1)) as [| top rest] eqn:D1; [discriminate |].
    rewrite (pop_deck s1 top rest D1).
    exists top. eexists. split; [reflexivity |].
    simpl in *. rewrite Hp. simpl. lia.
  - rewrite (bind_normal _ _ _ _ _ _ _ (recycle_full_deck s ltac:(congruence))).
    rewrite (pop_deck s top rest D).
    exists top. eexists. split; [reflexivity |]. simpl. lia.
Qed.

(** [deckTopCard] returns a card or throws the supply-exhausted error; it
    never yields [undefined]. *)
Lemma deckTopCard_defined : forall s, fst (deckTopCard s) <> Abrupt Undefined.
Proof.
  intros s. destruct (Nat.eq_dec (supply s) 0) as [H | H].
  - rewrite (deckTopCard_exhausted s H). discriminate.
  - destruct (deckTopCard_draws s) as (c & s' & E & _); [lia |].
    rewrite E. discriminate.
Qed.

Lemma draw_many : forall n s,
  (n <= supply s)%nat ->
  exists cards s',
    replicateM n deckTopCard s = (Normal cards, s')
    /\ length cards = n
    /\ supply s' = (supply s - n)%nat.
Proof.
  intros n. induction n as [| n IH]; intros s H; simpl.
  - exists [], s. repeat split. lia.
  - destruct (deckTopCard_draws s) as (c & s1 & E & Hs); [lia |].
    destruct (IH s1) as (cards & s2 & E2 & Hlen & Hs2); [lia |].
    exists (c :: cards), s2.
    rewrite (bind_normal _ _ _ _ _ _ _ E), (bind_normal _ _ _ _ _ _ _ E2).
    repeat split; simpl; lia.
Qed.

(* ------------------------------------------------------------------------- *)
(** * What a valid event tells about the state *)

Lemma earlyChecks_inv : forall event s r s',
  earlyChecks event false s = (Normal r, s') ->
  s' = s
  /\ (r = None ->
      (MIN_PLAYERS <= length (players s))%nat
      /\ fst (activePlayer s) = Normal (Some (event_by event))).
Proof.
  intros event s r s' H.
  split; [exact (readonly_run _ _ _ _ _ (readonly_earlyChecks event false) H) |].
  intros ->. unfold earlyChecks in H. change (negb false) with true in H. cbv iota in H.
  rewrite gets_bind in H.
  destruct (length (players s) <? MIN_PLAYERS)%nat eqn:E; [discriminate |].
  apply Nat.ltb_ge in E. split; [exact E |].
  unfold bind in H. rewrite activePlayer_run in H.
  destruct (fst (activePlayer s)) as [[p |] | t]; simpl in H; try discriminate.
  destruct (String.eqb (event_by event) p) eqn:Ep; simpl in H; [| discriminate].
  apply String.eqb_eq in Ep. subst p. reflexivity.
Qed.

Lemma checkEvent_valid_inv : forall event s,
  fst (checkEvent event false s) = Normal None ->
  checkEvent event false s = (Normal None, s)
  /\ (MIN_PLAYERS <= length (players s))%nat
  /\ fst (activePlayer s) = Normal (Some (event_by event))
  /\ recentMoves s <> [].
Proof.
  intros event s H.
  assert (E : checkEvent event false s = (Normal None, s)).
  { destruct (checkEvent event false s) as [r s'] eqn:E. simpl in H. subst r.
    rewrite (readonly_run _ _ _ _ _ (readonly_checkEvent event false) E). reflexivity. }
  split; [exact E |]. clear H.
  unfold checkEvent in E.
  apply bind_inv in E. destruct E as [(early & s1 & E1 & E) | (t & _ & E)]; [| discriminate].
  destruct (earlyChecks_inv _ _ _ _ E1) as [-> Hearly].
  destruct early as [err |]; [discriminate |].
  destruct (Hearly eq_refl) as [Hc Ha]. split; [exact Hc |]. split; [exact Ha |].
  apply bind_inv in E. destruct E as [(g & s2 & E2 & E) | (t & _ & E)]; [| discriminate].
  rewrite (readonly_run _ _ _ _ _ readonly_hasEnded E2) in E.
  destruct g as [loser |]; [discriminate |].
  rewrite (bind_normal _ _ _ _ _ _ _ (lastTwoNonInfoEvents_run s)) in E.
  intros Hnil. rewrite Hnil in E. discriminate.
Qed.

(** ** The hand of a player after an in-place change *)

Lemma hands_get_update : forall k f h,
  hands_get k (hands_update k f h) = option_map f (hands_get k h).
Proof.
  intros k f h. induction h as [| [k' v] r IH]; simpl; [reflexivity |].
  destruct (String.eqb k k') eqn:E; simpl; rewrite E; [reflexivity | exact IH].
Qed.

Lemma hands_get_update_other : forall k k' f h,
  String.eqb k k' = false ->
  hands_get k (hands_update k' f h) = hands_get k h.
Proof.
  intros k k' f h Hk. induction h as [| [k0 v] r IH]; simpl; [reflexivity |].
  destruct (String.eqb k' k0) eqn:E; simpl.
  - apply String.eqb_eq in E. subst k0. rewrite Hk. reflexivity.
  - destruct (String.eqb k k0); [reflexivity | exact IH].
Qed.

Lemma keys_hands_update : forall k f h, map fst (hands_update k f h) = map fst h.
Proof.
  intros k f h. induction h as [| [k' v] r IH]; simpl; [reflexivity |].
  destruct (String.eqb k k'); simpl; [reflexivity | rewrite IH; reflexivity].
Qed.

(* ------------------------------------------------------------------------- *)
(** * Drawing *)

Lemma toDraw_drawCount : forall s,
  toDraw (firstn 2 (recentMoves s)) s = drawCount s.
Proof.
  intros s. unfold toDraw, drawCount.
  destruct (recentMoves s) as [| lastEvent rest]; [reflexivity |].
  assert (Hrest : match firstn 1 rest with
                  | secondLastEvent :: _ =>
                      if playedType (Switching plus_four) secondLastEvent then 4 else 1
                  | [] => 1
                  end%nat
                  = match rest with
                    | card_played _ (SwitchingCard plus_four) :: _ => 4
                    | _ => 1
                    end%nat).
  { destruct rest as [| [b [t c | [|]] | b | b c | b | b] rest']; reflexivity. }
  change (firstn 2 (lastEvent :: rest)) with (lastEvent :: firstn 1 rest).
  destruct lastEvent as [b [t c | cs] | b | b c | b | b]; simpl playedType; cbv iota;
    try exact Hrest.
  destruct t; simpl; try exact Hrest.
  destruct (stackPlusTwos s); lia.
Qed.




(* ------------------------------------------------------------------------- *)
(** * Calling a bluff *)

Lemma slice_bluff_site : forall (A : Type) (l : list A),
  (4 <= length l)%nat -> JS.slice (-2 + -3) (Some (-3)) l <> [].
Proof.
  intros A l H. unfold JS.slice. cbv zeta. change (-2 + -3) with (-5).
  change (-5 <? 0) with true. change (-3 <? 0) with true. cbv iota.
  intros E. apply (f_equal (@length A)) in E.
  rewrite length_firstn, length_skipn in E. simpl in E. lia.
Qed.

Lemma lastTwoNonInfoEvents_site_run : forall s,
  lastTwoNonInfoEvents (Some (-3)) s
  = (Normal (rev (JS.slice (-2 + -3) (Some (-3)) (non_info (events s)))), s).
Proof. reflexivity. Qed.

(** The probe of one colored card returns: it is an error or a go-ahead. *)
Lemma probe_returns : forall site c,
  ended (cache site) = false ->
  (4 <= length (recentMoves site))%nat ->
  isColorSwitching (card_type c) = false ->
  exists r, checkEvent (card_played ENGINE_ID c) true site = (Normal r, site).
Proof.
  intros site c Hend Hlen Hcs. unfold checkEvent.
  change (earlyChecks (card_played ENGINE_ID c) true) with (@ret (option UnocabError) None).
  step. cbv iota.
  rewrite (bind_normal _ _ _ _ _ _ _ (hasEnded_run _ Hend)).
  rewrite (bind_normal _ _ _ _ _ _ _ (lastTwoNonInfoEvents_site_run site)).
  unfold recentMoves in Hlen. rewrite length_rev in Hlen.
  pose proof (slice_bluff_site _ _ Hlen) as Hne.
  destruct (rev (JS.slice (-2 + -3) (Some (-3)) (non_info (events site))))
    as [| lastEvent rest] eqn:E.
  { apply (f_equal (@rev GameEvent)) in E. rewrite rev_involutive in E.
    contradiction. }
  repeat match goal with
         | |- context [if ?b then _ else _] =>
             destruct b; try (eexists; reflexivity)
         end.
  unfold checkKind. rewrite Hcs. step. cbv iota. unfold expectedCard. step.
  repeat match goal with
         | |- context [if ?b then _ else _] =>
             destruct b; try (eexists; reflexivity)
         end.
Qed.

Lemma someValidAtBluffSite_run : forall site cards,
  ended (cache site) = false ->
  (4 <= length (recentMoves site))%nat ->
  Forall (fun c => isColorSwitching (card_type c) = false) cards ->
  someValidAtBluffSite cards site = (Normal (existsb (legalAtBluffSite site) cards), site).
Proof.
  intros site cards Hend Hlen Hall. induction Hall as [| c r Hc Hr IH]; [reflexivity |].
  simpl. destruct (probe_returns site c Hend Hlen Hc) as [res E].
  rewrite (bind_normal _ _ _ _ _ _ _ E). unfold legalAtBluffSite at 1. rewrite E. simpl.
  destruct res as [err |]; [exact IH | reflexivity].
Qed.

Lemma filter_not_switching : forall hand,
  Forall (fun c => isColorSwitching (card_type c) = false)
         (filter (fun c => negb (isColorSwitching (card_type c))) hand).
Proof.
  intros hand. apply Forall_forall. intros c H. apply filter_In in H.
  destruct H as [_ H]. apply negb_true_iff in H. exact H.
Qed.

Lemma nth_error_firstn_2_1 : forall (A : Type) (l : list A),
  nth_error (firstn 2 l) 1 = nth_error l 1.
Proof. intros A [| x [| y r]]; reflexivity. Qed.

(** A game that has not ended answers [false] to [hasEnded]. *)
Lemma valid_not_ended : forall event s,
  fst (checkEvent event false s) = Normal None -> ended (cache s) = false.
Proof.
  intros event s H. destruct (checkEvent_valid_inv _ _ H) as (E & _).
  unfold checkEvent in E.
  apply bind_inv in E. destruct E as [(early & s1 & E1 & E) | (t & _ & E)]; [| discriminate].
  destruct (earlyChecks_inv _ _ _ _ E1) as [-> _].
  destruct early as [err |]; [discriminate |].
  apply bind_inv in E. destruct E as [(g & s2 & E2 & E) | (t & _ & E)]; [| discriminate].
  destruct g as [loser |]; [discriminate |].
  unfold hasEnded in E2. rewrite gets_bind in E2.
  destruct (ended (cache s)); [| reflexivity].
  rewrite gets_bind in E2.
  destruct (find _ (hands (cache s))) as [[l h] |]; discriminate.
Qed.

Lemma shorthandMode_set_hands : forall h s,
  shorthandMode (set_hands h s) = shorthandMode s.
Proof. reflexivity. Qed.

(** X3 (the resolution of a bluff call, C4 as the code has it): in every
    state in which [CallBluff] is valid, with the
    accused (who played the wild-draw-four two domain moves back) holding a
    hand, the log holding the four domain moves the bluff-site check looks
    behind, and the two piles together holding at least the cards to be
    drawn (4 or 6), [callBluff] returns bluff-succeeded and the accused draws
    4 cards if and only if some card of the accused that is not color
    switching would have been legal under the bluff-site check; otherwise it
    returns bluff-failed and the accuser draws 6 cards.  In either case the
    turn advances by one step, and in full retention mode the outcome is the
    last entry of the log (in bounded mode no administrative event is
    kept). *)
Theorem bluff_call_resolution :
  forall (s : GameState) (by_ accused : PlayerId) (accusedHand : list Card),
  fst (checkEvent (bluff_called by_) false s) = Normal None ->
  nth_error (recentMoves s) 1 = Some (card_played accused (SwitchingCard plus_four)) ->
  hands_get accused (hands (cache s)) = Some accusedHand ->
  (4 <= length (recentMoves (bluffSite s by_)))%nat ->
  ((if wasBluff s by_ accusedHand then 4 else 6) <= supply s)%nat ->
  exists accuserHand cards s',
    hands_get by_ (hands (cache s)) = Some accuserHand
    /\ processNewEvent (bluff_called by_) s
       = (Normal (if wasBluff s by_ accusedHand
                  then result_bluff_call_succeeded by_ accused
                  else result_bluff_call_failed by_ accused), s')
    /\ (if wasBluff s by_ accusedHand
        then length cards = 4%nat
             /\ hands_get accused (hands (cache s')) = Some (accusedHand ++ cards)
        else length cards = 6%nat
             /\ hands_get by_ (hands (cache s')) = Some (accuserHand ++ cards))
    /\ index s' = index s + step_value (turnStep (cache s))
    /\ (shorthandMode s = false ->
        exists before,
          events s' = before ++
            [game_info (if wasBluff s by_ accusedHand
                        then bluff_call_succeeded by_ accused
                        else bluff_call_failed by_ accused)]).
Proof.
  intros s by_ accused accusedHand Hvalid Hsecond Haccused Hlog Hsupply.
  destruct (checkEvent_valid_inv _ _ Hvalid) as (Hcheck & _ & Hactive & _).
  pose proof (valid_not_ended _ _ Hvalid) as Hend.
  destruct (activePlayer_has_hand s by_ Hactive) as [accuserHand Haccuser].
  exists accuserHand.
  unfold processNewEvent.
  change (negb (playerId_safeParse (event_by (bluff_called by_)))) with false.
  cbv iota. step. simpl event_by.
  rewrite (bind_normal _ _ _ _ _ _ _ (handOf_run _ _ _ Haccuser)).
  rewrite (bind_normal _ _ _ _ _ _ _ Hcheck).
  unfold processBluffCalled.
  rewrite (bind_normal _ _ _ _ _ _ _ (lastTwoNonInfoEvents_run s)).
  rewrite nth_error_firstn_2_1, Hsecond. simpl event_by.
  rewrite (bind_normal _ _ _ _ _ _ _ (handOf_run _ _ _ Haccused)).
  (* the call is recorded and the turn advances *)
  step. unfold advanceTurn at 1. step.
  set (site := set_index _ _).
  assert (Hsite : site = bluffSite s by_).
  { unfold bluffSite. rewrite recordEvent_bind. reflexivity. }
  destruct (recordEvent_fields (game_event (bluff_called by_)) s) as (Hc & Hi & _).
  assert (Hcache : cache site = cache s) by (subst site; simpl; exact Hc).
  assert (Hindex : index site = index s + step_value (turnStep (cache s))).
  { subst site. simpl. rewrite Hi, Hc. lia. }
  assert (Hmode : shorthandMode site = shorthandMode s).
  { subst site. simpl. destruct (piles_recordEvent (game_event (bluff_called by_)) s) as [H _].
    exact H. }
  rewrite (bind_normal _ _ _ _ _ _ _
             (someValidAtBluffSite_run site _
                ltac:(rewrite Hcache; exact Hend)
                ltac:(rewrite Hsite; exact Hlog)
                (filter_not_switching accusedHand))).
  fold (wasBluff s by_ accusedHand) in *.
  assert (Hbluff : existsb (legalAtBluffSite site)
                     (filter (fun c => negb (isColorSwitching (card_type c))) accusedHand)
                   = wasBluff s by_ accusedHand).
  { rewrite Hsite. reflexivity. }
  rewrite Hbluff.
  assert (Hsup : supply site = supply s) by (unfold supply; rewrite Hcache; reflexivity).
  destruct (wasBluff s by_ accusedHand).
  - (* the accused draws four cards *)
    destruct (draw_many 4 site) as (cards & s1 & Hdraw & Hlen & _); [lia |].
    pose proof (piles_draw 4 site) as Hframe. rewrite Hdraw in Hframe. simpl in Hframe.
    destruct Hframe as (Hsh & Hindex1 & _ & _ & _ & Hhands & _).
    rewrite (bind_normal _ _ _ _ _ _ _ Hdraw).
    unfold pushToHand. step. step. unfold ret.
    set (s2 := set_hands _ s1).
    destruct (recordEvent_fields (game_info (bluff_call_succeeded by_ accused)) s2)
      as (Hc3 & Hi3 & _).
    exists cards. eexists. split; [exact Haccuser |]. split; [reflexivity |].
    simpl. rewrite Hc3, Hi3. subst s2. simpl.
    rewrite hands_get_update, Hhands, Hcache, Haccused.
    split; [split; [exact Hlen | reflexivity] |].
    split; [rewrite Hindex1; exact Hindex |].
    intros Hfull. unfold recordEvent. rewrite gets_bind, shorthandMode_set_hands.
    rewrite Hsh, Hmode, Hfull. simpl. eexists. reflexivity.
  - (* the accuser draws six cards *)
    assert (Haccuser' : hands_get by_ (hands (cache site)) = Some accuserHand)
      by (rewrite Hcache; exact Haccuser).
    rewrite (bind_normal _ _ _ _ _ _ _ (handOf_run _ _ _ Haccuser')).
    destruct (draw_many 6 site) as (cards & s1 & Hdraw & Hlen & _); [lia |].
    pose proof (piles_draw 6 site) as Hframe. rewrite Hdraw in Hframe. simpl in Hframe.
    destruct Hframe as (Hsh & Hindex1 & _ & _ & _ & Hhands & _).
    rewrite (bind_normal _ _ _ _ _ _ _ Hdraw).
    unfold pushToHand. step. step. unfold ret.
    set (s2 := set_hands _ s1).
    destruct (recordEvent_fields (game_info (bluff_call_failed by_ accused)) s2)
      as (Hc3 & Hi3 & _).
    exists cards. eexists. split; [exact Haccuser |]. split; [reflexivity |].
    simpl. rewrite Hc3, Hi3. subst s2. simpl.
    rewrite hands_get_update, Hhands, Hcache, Haccuser.
    split; [split; [exact Hlen | reflexivity] |].
    split; [rewrite Hindex1; exact Hindex |].
    intros Hfull. unfold recordEvent. rewrite gets_bind, shorthandMode_set_hands.
    rewrite Hsh, Hmode, Hfull. simpl. eexists. reflexivity.
Qed.

(** C4, counterexample to the claim as stated.  In bounded retention mode
    (first part) a valid bluff call succeeds and the log afterwards holds the
    four domain moves and no administrative event.  With every card in a
    hand but the wild-draw-four on the pile (second part) the call is valid
    and the accused holds a card that would have been legal, yet nobody draws
    four cards: the engine throws the supply-exhausted error. *)
Lemma bluff_call_claim_refuted :
  (let s := Example.afterPlusFour 5 true in
   shorthandMode s = true
   /\ fst (checkEvent (bluff_called Example.p2) false s) = Normal None
   /\ fst (processNewEvent (bluff_called Example.p2) s)
      = Normal (result_bluff_call_succeeded Example.p2 Example.p1)
   /\ events (snd (processNewEvent (bluff_called Example.p2) s))
      = [game_event (card_played ENGINE_ID (ColoredCard nine blue));
         game_event (card_played Example.p1 (SwitchingCard plus_four));
         game_event (choose_color Example.p1 red);
         game_event (bluff_called Example.p2)])
  /\ (let s := Example.exhaustedAfterPlusFour in
      fst (checkEvent (bluff_called Example.p2) false s) = Normal None
      /\ wasBluff s Example.p2 (Example.held s Example.p1) = true
      /\ fst (processNewEvent (bluff_called Example.p2) s)
         = Abrupt (ThrowUnocab DeckPileExhausted)
      /\ Example.held (snd (processNewEvent (bluff_called Example.p2) s)) Example.p1
         = Example.held s Example.p1).
Proof. vm_compute. conjuncts; reflexivity. Qed.

Lemma bluff_call_resolution_witness :
  let s := Example.afterPlusFour 6 false in
  fst (checkEvent (bluff_called Example.p2) false s) = Normal None
  /\ wasBluff s Example.p2 (Example.held s Example.p1) = false
  /\ exists accuserHand cards s',
       hands_get Example.p2 (hands (cache s)) = Some accuserHand
       /\ processNewEvent (bluff_called Example.p2) s
          = (Normal (if wasBluff s Example.p2 (Example.held s Example.p1)
                     then result_bluff_call_succeeded Example.p2 Example.p1
                     else result_bluff_call_failed Example.p2 Example.p1), s')
       /\ (if wasBluff s Example.p2 (Example.held s Example.p1)
           then length cards = 4%nat
                /\ hands_get Example.p1 (hands (cache s'))
                   = Some (Example.held s Example.p1 ++ cards)
           else length cards = 6%nat
                /\ hands_get Example.p2 (hands (cache s')) = Some (accuserHand ++ cards))
       /\ index s' = index s + step_value (turnStep (cache s))
       /\ (shorthandMode s = false ->
           exists before,
             events s' = before ++
               [game_info (if wasBluff s Example.p2 (Example.held s Example.p1)
                           then bluff_call_succeeded Example.p2 Example.p1
                           else bluff_call_failed Example.p2 Example.p1)]).
Proof.
  cbv zeta.
  split; [vm_compute; reflexivity |].
  split; [vm_compute; reflexivity |].
  apply (bluff_call_resolution (Example.afterPlusFour 6 false) Example.p2 Example.p1
           (Example.held (Example.afterPlusFour 6 false) Example.p1)).
  - vm_compute. reflexivity.
  - vm_compute. reflexivity.
  - vm_compute. reflexivity.
  - vm_compute. lia.
  - vm_compute. lia.
Defined.

Lemma bluff_call_succeeds_example :
  let s := Example.afterPlusFour 5 false in
  wasBluff s Example.p2 (Example.held s Example.p1) = true
  /\ fst (processNewEvent (bluff_called Example.p2) s)
     = Normal (result_bluff_call_succeeded Example.p2 Example.p1)
  /\ length (Example.held (snd (processNewEvent (bluff_called Example.p2) s)) Example.p1)
     = (length (Example.held s Example.p1) + 4)%nat.
Proof. vm_compute. conjuncts; reflexivity. Qed.

(* ------------------------------------------------------------------------- *)
(** * What a method can throw *)

Section Guarded.
Variable I : GameState -> Prop.
Variable P : Thrown -> Prop.

Lemma guarded_ret : forall (A : Type) (a : A), guarded I P (ret a).
Proof. intros A a s H. split; [exact H | intros t E; discriminate]. Qed.

Lemma guarded_gets : forall (A : Type) (f : GameState -> A), guarded I P (gets f).
Proof. intros A f s H. split; [exact H | intros t E; discriminate]. Qed.

Lemma guarded_throw : forall (A : Type) (t : Thrown), P t -> guarded I P (@throw A t).
Proof. intros A t Ht s H. split; [exact H | intros t' E; inversion E; subst; exact Ht]. Qed.

Lemma guarded_modify : forall f, (forall s, I s -> I (f s)) -> guarded I P (modify f).
Proof. intros f Hf s H. split; [apply Hf, H | intros t E; discriminate]. Qed.

Lemma guarded_bind : forall (A B : Type) (m : Method A) (k : A -> Method B),
  guarded I P m -> (forall a, guarded I P (k a)) -> guarded I P (bind m k).
Proof.
  intros A B m k Hm Hk s H. unfold bind.
  destruct (Hm s H) as [HI HP]. destruct (m s) as [[a | t] s1]; simpl in *.
  - apply Hk, HI.
  - split; [exact HI | intros t' E; apply HP; inversion E; reflexivity].
Qed.

Lemma guarded_forEach : forall (A : Type) (f : A -> Method unit) (l : list A),
  (forall a, guarded I P (f a)) -> guarded I P (forEach l f).
Proof.
  intros A f l Hf. induction l as [| x r IH]; simpl.
  - apply guarded_ret.
  - apply guarded_bind; [apply Hf | intros _; exact IH].
Qed.

Lemma guarded_replicateM : forall (A : Type) (m : Method A) (n : nat),
  guarded I P m -> guarded I P (replicateM n m).
Proof.
  intros A m n Hm. induction n as [| n IH]; simpl.
  - apply guarded_ret.
  - apply guarded_bind; [exact Hm | intros a].
    apply guarded_bind; [exact IH | intros r; apply guarded_ret].
Qed.

(** A method that never throws and whose frame keeps the invariant. *)
Lemma guarded_total : forall (R : GameState -> GameState -> Prop) (A : Type)
    (m : Method A),
  frames R m -> total m -> (forall s s', R s s' -> I s -> I s') -> guarded I P m.
Proof.
  intros R A m HR Ht HRI s H. split.
  - eapply HRI; [apply HR | exact H].
  - intros t E. destruct (Ht s) as [a Ha]. congruence.
Qed.

Lemma guarded_run : forall (A : Type) (m : Method A) s t s',
  guarded I P m -> I s -> m s = (Abrupt t, s') -> P t.
Proof.
  intros A m s t s' Hm H E. destruct (Hm s H) as [_ HP]. apply HP.
  rewrite E. reflexivity.
Qed.
End Guarded.

(** Drawing throws nothing but the supply-exhausted error. *)
Lemma deckTopCard_throws : forall s t s',
  deckTopCard s = (Abrupt t, s') -> t = ThrowUnocab DeckPileExhausted.
Proof.
  intros s t s' E. destruct (Nat.eq_dec (supply s) 0) as [H | H].
  - rewrite (deckTopCard_exhausted s H) in E. inversion E. reflexivity.
  - destruct (deckTopCard_draws s) as (c & s1 & E1 & _); [lia |]. congruence.
Qed.

Lemma guarded_deckTopCard : forall I,
  (forall s s', sameButPiles s s' -> I s -> I s') ->
  guarded I notRejection deckTopCard.
Proof.
  intros I HI s H. split.
  - eapply HI; [apply piles_deckTopCard | exact H].
  - intros t E. destruct (deckTopCard s) as [r s'] eqn:E1. simpl in E. subst r.
    rewrite (deckTopCard_throws _ _ _ E1). reflexivity.
Qed.

(** The probe of a colored card throws nothing but a [TypeError]. *)
Lemma hasEnded_throws : forall s t s', hasEnded s = (Abrupt t, s') -> t = TypeError.
Proof.
  intros s t s' E. unfold hasEnded in E. rewrite gets_bind in E.
  destruct (ended (cache s)); [| discriminate].
  rewrite gets_bind in E.
  destruct (find _ (hands (cache s))) as [[l h] |]; inversion E. reflexivity.
Qed.

Lemma probe_throws : forall site c t s',
  isColorSwitching (card_type c) = false ->
  checkEvent (card_played ENGINE_ID c) true site = (Abrupt t, s') -> t = TypeError.
Proof.
  intros site c t s' Hcs E. unfold checkEvent in E.
  change (earlyChecks (card_played ENGINE_ID c) true) with (@ret (option UnocabError) None) in E.
  rewrite ret_bind in E. cbv iota in E.
  apply bind_inv in E. destruct E as [(g & s1 & E1 & E) | (t1 & E1 & E)].
  2:{ inversion E; subst. eapply hasEnded_throws, E1. }
  rewrite (readonly_run _ _ _ _ _ readonly_hasEnded E1) in E.
  destruct g as [loser |]; [discriminate |].
  rewrite (bind_normal _ _ _ _ _ _ _ (lastTwoNonInfoEvents_site_run site)) in E.
  destruct (rev (JS.slice (-2 + -3) (Some (-3)) (non_info (events site))))
    as [| lastEvent rest]; [inversion E; reflexivity |].
  repeat match type of E with
         | context [if ?b then _ else _] => destruct b; try discriminate
         end.
  unfold checkKind in E. rewrite Hcs in E. rewrite ret_bind in E. cbv iota in E.
  unfold expectedCard in E. rewrite gets_bind in E.
  repeat match type of E with
         | context [if ?b then _ else _] => destruct b; try discriminate
         end.
Qed.

Lemma guarded_someValidAtBluffSite : forall I cards,
  Forall (fun c => isColorSwitching (card_type c) = false) cards ->
  guarded I notRejection (someValidAtBluffSite cards).
Proof.
  intros I cards Hall s H. split.
  - rewrite <- (readonly_someValidAtBluffSite cards s). exact H.
  - clear H. induction Hall as [| c r Hc Hr IH]; simpl; intros t E; [discriminate |].
    unfold bind in E.
    destruct (checkEvent (card_played ENGINE_ID c) true s) as [[res | t1] s1] eqn:E1.
    + rewrite (readonly_run _ _ _ _ _ (readonly_checkEvent _ _) E1) in E.
      destruct res as [err |]; [apply IH, E | discriminate].
    + simpl in E. inversion E; subst.
      rewrite (probe_throws _ _ _ _ Hc E1). exact Logic.I.
Qed.

(** ** The moves, once validated, throw no rejection *)

Lemma hands_update_defined : forall k k' f h,
  hands_get k h <> None -> hands_get k (hands_update k' f h) <> None.
Proof.
  intros k k' f h H. destruct (String.eqb k k') eqn:E.
  - apply String.eqb_eq in E. subst k'. rewrite hands_get_update.
    destruct (hands_get k h); [discriminate | contradiction].
  - rewrite hands_get_update_other by exact E. exact H.
Qed.

Lemma holdHands_cache : forall a b s s',
  cache s' = cache s -> holdHands a b s -> holdHands a b s'.
Proof. unfold holdHands. intros a b s s' E H. rewrite E. exact H. Qed.

Lemma holdHands_hands : forall a b s s',
  hands (cache s') = hands (cache s) -> holdHands a b s -> holdHands a b s'.
Proof. unfold holdHands. intros a b s s' E H. rewrite E. exact H. Qed.

(** The goal [forall s, holdHands a b s -> holdHands a b (f s)] for an
    assignment [f]. *)
Ltac keeps_hands :=
  let s := fresh "s" in
  let H := fresh "H" in
  intros s H;
  repeat match goal with
         | |- context [if ?b then _ else _] => destruct b
         end;
  first [ exact H
        | destruct H; split; simpl; apply hands_update_defined; assumption ].

Lemma guarded_recordEvent : forall a b P e, guarded (holdHands a b) P (recordEvent e).
Proof.
  intros a b P e.
  apply (guarded_total _ _ sameButLog); [apply log_recordEvent | apply total_recordEvent |].
  intros s s' H. apply holdHands_cache. apply sameButLog_fields, H.
Qed.

Lemma guarded_handOf_left : forall a b P, guarded (holdHands a b) P (handOf a).
Proof.
  intros a b P s H. split.
  - rewrite <- (readonly_handOf a s). exact H.
  - intros t E. unfold handOf in E. rewrite gets_bind in E.
    destruct H as [H _]. destruct (hands_get a (hands (cache s))); [discriminate | contradiction].
Qed.

Lemma guarded_handOf_right : forall a b P, guarded (holdHands a b) P (handOf b).
Proof.
  intros a b P s H. split.
  - rewrite <- (readonly_handOf b s). exact H.
  - intros t E. unfold handOf in E. rewrite gets_bind in E.
    destruct H as [_ H]. destruct (hands_get b (hands (cache s))); [discriminate | contradiction].
Qed.

Lemma guarded_draws : forall a b n,
  guarded (holdHands a b) notRejection (replicateM n deckTopCard).
Proof.
  intros a b n. apply guarded_replicateM, guarded_deckTopCard.
  intros s s' H. apply holdHands_hands. apply H.
Qed.

Create HintDb guarded.
#[export] Hint Resolve guarded_recordEvent guarded_handOf_left guarded_handOf_right
  guarded_draws : guarded.

Ltac guarded_step :=
  lazymatch goal with
  | |- guarded _ _ (ret _) => apply guarded_ret
  | |- guarded _ _ (gets _) => apply guarded_gets
  | |- guarded _ _ (throw _) => apply guarded_throw; exact Logic.I
  | |- guarded _ _ (modify _) => apply guarded_modify; keeps_hands
  | |- guarded _ _ (bind _ _) => apply guarded_bind; [ | intro ]
  | |- guarded _ _ (someValidAtBluffSite (filter _ _)) =>
      apply guarded_someValidAtBluffSite, filter_not_switching
  | |- guarded _ _ (if ?b then _ else _) => destruct b
  | |- guarded _ _ (match ?x with _ => _ end) => destruct x
  end.

Ltac guarded_auto :=
  unfold pushLast3, advanceTurn, pushToHand;
  repeat first [ solve [auto with guarded] | guarded_step | progress cbv beta zeta ].

Lemma answering_abrupt : forall (A : Type) (f : A -> Answer) (m : Method A) s t s',
  answering f m s = (Abrupt t, s') -> m s = (Abrupt t, s').
Proof.
  intros A f m s t s' H. unfold answering, bind in H.
  destruct (m s) as [[a | t1] s1]; [discriminate | inversion H; reflexivity].
Qed.

(** The conclusion of a guarded run that threw a rejection. *)
Ltac no_rejection H Hne a b :=
  exfalso; apply Hne;
  match type of H with
  | ?m ?s = (Abrupt (ThrowUnocab ?err), _) =>
      refine (guarded_run (holdHands a b) notRejection _ m s (ThrowUnocab err) _ _ _ H);
      [ guarded_auto | ]
  end.

Lemma processNewEvent_rejection : forall event s err s',
  processNewEvent event s = (Abrupt (ThrowUnocab err), s') ->
  err <> DeckPileExhausted ->
  s' = s.
Proof.
  intros event s err s' H Hne. unfold processNewEvent in H.
  change (negb (playerId_safeParse (event_by event))) with false in H.
  cbv iota in H. rewrite ret_bind in H.
  apply bind_inv in H. destruct H as [(hand & s1 & E1 & H) | (t & E1 & _)].
  2:{ apply handOf_inv in E1. apply E1. }
  apply handOf_inv in E1. destruct E1 as [-> Hhand].
  assert (Hheld : hands_get (event_by event) (hands (cache s)) <> None) by congruence.
  apply bind_inv in H. destruct H as [(r & s1 & E2 & H) | (t & E2 & _)].
  2:{ exact (readonly_run _ _ _ _ _ (readonly_checkEvent _ _) E2). }
  rewrite (readonly_run _ _ _ _ _ (readonly_checkEvent _ _) E2) in H. clear E2 s1.
  destruct r as [e |]; [inversion H; reflexivity |].
  destruct event as [by_ card | by_ | by_ color | by_ | by_]; simpl in Hheld.
  - unfold processCardPlayed in H.
    destruct (JS.findIndex (fun c => sameCard c card) hand) as [cardIndex |];
      [| inversion H; reflexivity].
    no_rejection H Hne by_ by_. split; exact Hheld.
  - unfold processBluffCalled in H.
    rewrite (bind_normal _ _ _ _ _ _ _ (lastTwoNonInfoEvents_run s)) in H.
    destruct (nth_error (firstn 2 (recentMoves s)) 1) as [secondLastEvent |];
      [| discriminate].
    apply bind_inv in H. destruct H as [(accusedHand & s1 & E3 & H) | (t & E3 & _)].
    2:{ apply handOf_inv in E3. apply E3. }
    apply handOf_inv in E3. destruct E3 as [-> Haccused].
    no_rejection H Hne by_ (event_by secondLastEvent). split; congruence.
  - no_rejection H Hne by_ by_. split; exact Hheld.
  - unfold processDraw in H.
    rewrite (bind_normal _ _ _ _ _ _ _ (lastTwoNonInfoEvents_run s)) in H.
    destruct (firstn 2 (recentMoves s)) as [| lastEvent rest]; [discriminate |].
    no_rejection H Hne by_ by_. split; exact Hheld.
  - no_rejection H Hne by_ by_. split; exact Hheld.
Qed.

Lemma join_rejection : forall ids s err s',
  join ids s = (Abrupt (ThrowUnocab err), s') ->
  err <> DeckPileExhausted ->
  s' = s.
Proof.
  intros ids s err s' H Hne. unfold join in H. rewrite gets_bind in H.
  destruct (length (players s) =? MAX_PLAYERS)%nat; [inversion H; reflexivity |].
  apply bind_inv in H. destruct H as [([] & s1 & E1 & H) | (t & E1 & _)].
  2:{ refine (readonly_run _ _ _ _ _ _ E1). readonly_auto. }
  assert (s1 = s) as -> by (refine (readonly_run _ _ _ _ _ _ E1); readonly_auto).
  exfalso. apply Hne.
  refine (guarded_run (fun _ => True) notRejection _ _ s (ThrowUnocab err) _ _ Logic.I H).
  apply guarded_forEach. intros playerId.
  apply guarded_bind; [| intros hand].
  { apply guarded_replicateM, guarded_deckTopCard. auto. }
  apply guarded_bind; [apply guarded_modify; auto | intros _].
  apply guarded_bind; [apply guarded_modify; auto | intros _].
  apply (guarded_total _ _ sameButLog);
    [apply log_recordEvent | apply total_recordEvent | auto].
Qed.

Lemma leave_one_rejection : forall id s t s',
  leave [id] s = (Abrupt t, s') -> s' = s.
Proof.
  intros id s t s' H. unfold leave in H. simpl forEach in H.
  apply bind_inv in H. destruct H as [([] & s1 & E1 & H) | (t1 & E1 & _)];
    [discriminate |].
  rewrite gets_bind in E1.
  destruct (notFound id (players s)); [inversion E1; reflexivity |].
  rewrite modify_bind, recordEvent_run in E1. discriminate.
Qed.

(** X4 (rejected calls, C7 as the code has it): a call to
    [processNewEvent] (and so to [play], [draw], [pass], [callBluff] or
    [chooseColor]) or to [join] that throws a
    [UnocabError] other than supply-exhausted, and a call to [leave] for a
    single player that throws, leaves the state as it was before the call:
    a call is validated before it is applied.  Nothing is undone once a move
    is being applied. *)
Theorem rejected_calls_leave_the_state :
  forall (s : GameState) (call : Call) (err : UnocabError) (s' : GameState),
  perform call s = (Abrupt (ThrowUnocab err), s') ->
  err <> DeckPileExhausted ->
  match call with
  | CallJoin _ | CallProcessNewEvent _ => True
  | CallLeave playerIds => (length playerIds <= 1)%nat
  | CallJumpToEventIndex _ _ => False
  end ->
  s' = s.
Proof.
  intros s call err s' H Hne Hcall.
  destruct call as [ids | ids | event | entropy i]; simpl in H;
    apply answering_abrupt in H.
  - eapply join_rejection; eassumption.
  - destruct ids as [| id [| id' ids]]; simpl in Hcall; [| | lia].
    + discriminate.
    + eapply leave_one_rejection; eassumption.
  - eapply processNewEvent_rejection; eassumption.
  - contradiction.
Qed.

Lemma rejected_calls_leave_the_state_witness :
  fst (perform (CallProcessNewEvent (pass Example.p1)) Example.opening)
  = Abrupt (ThrowUnocab MustNotPassWithoutDraw)
  /\ snd (perform (CallProcessNewEvent (pass Example.p1)) Example.opening)
     = Example.opening.
Proof.
  split; [vm_compute; reflexivity |].
  apply (rejected_calls_leave_the_state Example.opening
           (CallProcessNewEvent (pass Example.p1)) MustNotPassWithoutDraw).
  - vm_compute. reflexivity.
  - discriminate.
  - exact Logic.I.
Defined.

(** C7, counterexample to the claim as stated.  With every card in a hand
    and the blue draw-two just played, the [Draw] of [p2] takes two cards:
    the first turns the discard pile into the deck, the second finds nothing
    and throws supply-exhausted.  The hands are as before, but the discard
    pile has lost its card and the log has two more entries.  Likewise
    [leave(p1, ghost)] throws for the unknown player after [p1] has left. *)
Lemma throw_after_partial_application :
  (let s := Example.exhaustedAfterPlusTwo in
   let s' := snd (processNewEvent (draw Example.p2) s) in
   fst (processNewEvent (draw Example.p2) s) = Abrupt (ThrowUnocab DeckPileExhausted)
   /\ hands (cache s') = hands (cache s)
   /\ deck (cache s) = [] /\ deck (cache s') = []
   /\ pile (cache s) = [ColoredCard plus_two blue] /\ pile (cache s') = []
   /\ length (events s') = (length (events s) + 2)%nat
   /\ s' <> s)
  /\ (let s := Example.opening in
      let s' := snd (leave [Example.p1; "ghost"%string] s) in
      fst (leave [Example.p1; "ghost"%string] s)
      = Abrupt (ThrowUnocab (PlayerNotInGame "ghost"%string))
      /\ players s = [Example.p1; Example.p2]
      /\ players s' = [Example.p2]
      /\ s' <> s).
Proof.
  cbv zeta. conjuncts; try (vm_compute; reflexivity).
  - intros H. apply (f_equal (fun s => pile (cache s))) in H. vm_compute in H. discriminate.
  - intros H. apply (f_equal players) in H. vm_compute in H. discriminate.
Qed.

(* ------------------------------------------------------------------------- *)
(** * The [hands] object *)

Lemma hands_get_set : forall k v h, hands_get k (hands_set k v h) = Some v.
Proof.
  intros k v h. induction h as [| [k' v'] r IH]; simpl.
  - rewrite String.eqb_refl. reflexivity.
  - destruct (String.eqb k k') eqn:E; simpl.
    + rewrite String.eqb_refl. reflexivity.
    + destruct (JS.enumeratedBefore k k'); simpl.
      * rewrite String.eqb_refl. reflexivity.
      * rewrite E. exact IH.
Qed.

Lemma hands_get_set_other : forall k k0 v h,
  String.eqb k k0 = false -> hands_get k (hands_set k0 v h) = hands_get k h.
Proof.
  intros k k0 v h Hk. induction h as [| [k' v'] r IH]; simpl.
  - rewrite Hk. reflexivity.
  - destruct (String.eqb k0 k') eqn:E; simpl.
    + apply String.eqb_eq in E. subst k'. rewrite Hk. reflexivity.
    + destruct (JS.enumeratedBefore k0 k'); simpl.
      * rewrite Hk. reflexivity.
      * destruct (String.eqb k k'); [reflexivity | exact IH].
Qed.

Lemma hands_set_defined : forall k k0 v h,
  hands_get k h <> None -> hands_get k (hands_set k0 v h) <> None.
Proof.
  intros k k0 v h H. destruct (String.eqb k k0) eqn:E.
  - apply String.eqb_eq in E. subst k0. rewrite hands_get_set. discriminate.
  - rewrite hands_get_set_other by exact E. exact H.
Qed.

Lemma hands_get_None : forall k h, hands_get k h = None <-> ~ In k (map fst h).
Proof.
  intros k h. induction h as [| [k' v] r IH]; simpl.
  - split; auto.
  - destruct (String.eqb k k') eqn:E.
    + apply String.eqb_eq in E. subst k'. split; [discriminate | intros H; exfalso; auto].
    + apply String.eqb_neq in E. rewrite IH. split.
      * intros H [H1 | H1]; [congruence | auto].
      * intros H H1. apply H. right. exact H1.
Qed.

Lemma hands_get_same_keys : forall k h h',
  map fst h' = map fst h -> hands_get k h <> None -> hands_get k h' <> None.
Proof.
  intros k h h' E H H'. apply H. apply hands_get_None. rewrite <- E.
  apply hands_get_None. exact H'.
Qed.

(** ** The order of enumeration *)

Lemma enumeratedBefore_asym : forall a b,
  JS.enumeratedBefore a b = true -> JS.enumeratedBefore b a = false.
Proof.
  intros a b. unfold JS.enumeratedBefore.
  destruct (JS.arrayIndex a) as [i |], (JS.arrayIndex b) as [j |]; try discriminate; auto.
  intros H. apply Z.ltb_lt in H. apply Z.ltb_ge. lia.
Qed.

Lemma enumeratedBefore_trans : forall a b c,
  JS.enumeratedBefore a b = true -> JS.enumeratedBefore c b = false ->
  JS.enumeratedBefore c a = false.
Proof.
  intros a b c. unfold JS.enumeratedBefore.
  destruct (JS.arrayIndex a) as [i |], (JS.arrayIndex b) as [j |],
           (JS.arrayIndex c) as [k |]; try discriminate; auto.
  intros H1 H2. apply Z.ltb_lt in H1. apply Z.ltb_ge in H2. apply Z.ltb_ge. lia.
Qed.

Lemma Forall_keys_hands_set : forall (P : string -> Prop) k v h,
  P k -> Forall P (map fst h) -> Forall P (map fst (hands_set k v h)).
Proof.
  intros P k v h Hk. induction h as [| [k' v'] r IH]; simpl; intros H.
  - constructor; [exact Hk | constructor].
  - inversion H as [| x l Hx Hl]; subst.
    destruct (String.eqb k k'); simpl.
    + constructor; assumption.
    + destruct (JS.enumeratedBefore k k'); simpl.
      * constructor; [exact Hk | constructor; assumption].
      * constructor; [exact Hx | apply IH; exact Hl].
Qed.

Lemma enumerationOrder_hands_set : forall k v h,
  enumerationOrder (map fst h) -> enumerationOrder (map fst (hands_set k v h)).
Proof.
  intros k v h. induction h as [| [k' v'] r IH]; simpl; intros H.
  - split; [constructor | exact Logic.I].
  - destruct H as [Hall Hr].
    destruct (String.eqb k k') eqn:E; simpl.
    + apply String.eqb_eq in E. subst k'. split; assumption.
    + destruct (JS.enumeratedBefore k k') eqn:B; simpl.
      * split; [| split; assumption].
        constructor.
        { split; [rewrite String.eqb_sym; exact E | apply enumeratedBefore_asym, B]. }
        apply Forall_forall. intros x Hx.
        rewrite Forall_forall in Hall. destruct (Hall x Hx) as [Hne Hnb].
        split.
        { destruct (String.eqb x k) eqn:Ex; [| reflexivity].
          apply String.eqb_eq in Ex. subst x. congruence. }
        { eapply enumeratedBefore_trans; eassumption. }
      * split; [| apply IH; exact Hr].
        apply Forall_keys_hands_set; [| exact Hall].
        split; [exact E | exact B].
Qed.

(** Rebuilding an object from its entries, in their order, gives the same
    object. *)
Lemma hands_set_append : forall k v h,
  Forall (fun a => mayFollow a k) (map fst h) -> hands_set k v h = h ++ [(k, v)].
Proof.
  intros k v h. induction h as [| [k' v'] r IH]; simpl; intros H; [reflexivity |].
  inversion H as [| x l [Hx1 Hx2] Hl]; subst. simpl in Hx1, Hx2.
  rewrite Hx1, Hx2. rewrite IH by exact Hl. reflexivity.
Qed.

Lemma enumerationOrder_app : forall l k,
  enumerationOrder (l ++ [k]) -> Forall (fun a => mayFollow a k) l /\ enumerationOrder l.
Proof.
  intros l k. induction l as [| a r IH]; simpl; intros H.
  - split; constructor.
  - destruct H as [Hall Hr]. destruct (IH Hr) as [H1 H2].
    apply Forall_app in Hall. destruct Hall as [Hall Hk].
    inversion Hk; subst. split; [constructor; assumption | split; assumption].
Qed.

Lemma hands_of_members_ordered : forall h,
  enumerationOrder (map fst h) -> Schema.hands_of_members h = h.
Proof.
  intros h. unfold Schema.hands_of_members.
  induction h as [| [k v] r IH] using rev_ind; intros H; [reflexivity |].
  rewrite map_app in H. simpl in H. apply enumerationOrder_app in H.
  destruct H as [Hall Hr].
  rewrite fold_left_app. simpl.
  etransitivity; [apply (f_equal (hands_set k v)), (IH Hr) |].
  apply hands_set_append. exact Hall.
Qed.

(* ------------------------------------------------------------------------- *)
(** * The roster and the kind of log are kept by the moves *)

Lemma frames_weaken : forall (R R' : GameState -> GameState -> Prop) (A : Type)
    (m : Method A),
  (forall s s', R s s' -> R' s s') -> frames R m -> frames R' m.
Proof. intros R R' A m H Hm s. apply H, Hm. Qed.

Lemma sameRoster_refl : forall s, sameRoster s s.
Proof. intros s. split; reflexivity. Qed.

Lemma sameRoster_trans : forall a b c, sameRoster a b -> sameRoster b c -> sameRoster a c.
Proof. unfold sameRoster. intros a b c [H1 H2] [H3 H4]. split; congruence. Qed.

Lemma logKept_refl : forall s, logKept s s.
Proof. intros s. split; auto. Qed.

Lemma logKept_trans : forall a b c, logKept a b -> logKept b c -> logKept a c.
Proof. unfold logKept. intros a b c [H1 H2] [H3 H4]. split; [congruence | auto]. Qed.

Lemma roster_of_piles : forall s s', sameButPiles s s' -> sameRoster s s'.
Proof.
  intros s s' H. destruct H as (_ & _ & _ & Hp & _ & Hh & _).
  split; [exact Hp | rewrite Hh; reflexivity].
Qed.

Lemma roster_of_readonly : forall s s' : GameState, s = s' -> sameRoster s s'.
Proof. intros s s' <-. apply sameRoster_refl. Qed.

Lemma logKept_of_readonly : forall s s' : GameState, s = s' -> logKept s s'.
Proof. intros s s' <-. apply logKept_refl. Qed.

(** The goal [R s (f s)] for an assignment [f] that leaves the roster,
    respectively the log and the mode, alone. *)
Ltac roster_assignment :=
  intros;
  repeat match goal with
         | |- context [if ?b then _ else _] => destruct b
         end;
  first [ apply sameRoster_refl
        | solve [unfold sameRoster; simpl; rewrite ?keys_hands_update; split; reflexivity] ].

Ltac log_assignment :=
  intros;
  repeat match goal with
         | |- context [if ?b then _ else _] => destruct b
         end;
  first [ apply logKept_refl
        | solve [unfold logKept, shorthandLog; simpl; split; [reflexivity | auto]] ].

Ltac roster_auto :=
  repeat first
    [ assumption
    | solve [auto with roster]
    | frames_step sameRoster_refl sameRoster_trans
    | apply frames_modify; solve [roster_assignment]
    | progress cbv beta zeta ].

Ltac log_auto :=
  repeat first
    [ assumption
    | solve [auto with logkept]
    | frames_step logKept_refl logKept_trans
    | apply frames_modify; solve [log_assignment]
    | progress cbv beta zeta ].

Create HintDb roster.
Create HintDb logkept.

Lemma roster_recordEvent : forall e, frames sameRoster (recordEvent e).
Proof. intros e. apply (frames_weaken _ _ _ _ roster_of_piles), piles_recordEvent. Qed.

Lemma roster_draws : forall n, frames sameRoster (replicateM n deckTopCard).
Proof. intros n. apply (frames_weaken _ _ _ _ roster_of_piles), piles_draw. Qed.

Lemma roster_shuffleDeck : frames sameRoster shuffleDeck.
Proof. apply (frames_weaken _ _ _ _ roster_of_piles), piles_shuffleDeck. Qed.

Lemma roster_handOf : forall p, frames sameRoster (handOf p).
Proof. intros p. apply (frames_weaken _ _ _ _ roster_of_readonly), readonly_handOf. Qed.

Lemma roster_checkEvent : forall e b, frames sameRoster (checkEvent e b).
Proof. intros e b. apply (frames_weaken _ _ _ _ roster_of_readonly), readonly_checkEvent. Qed.

Lemma roster_lastTwo : forall i, frames sameRoster (lastTwoNonInfoEvents i).
Proof.
  intros i. apply (frames_weaken _ _ _ _ roster_of_readonly), readonly_lastTwoNonInfoEvents.
Qed.

Lemma roster_someValid : forall cards, frames sameRoster (someValidAtBluffSite cards).
Proof.
  intros cards.
  apply (frames_weaken _ _ _ _ roster_of_readonly), readonly_someValidAtBluffSite.
Qed.

#[export] Hint Resolve roster_recordEvent roster_draws roster_shuffleDeck roster_handOf
  roster_checkEvent roster_lastTwo roster_someValid : roster.

Lemma roster_processNewEvent : forall e, frames sameRoster (processNewEvent e).
Proof.
  intros e.
  unfold processNewEvent, processCardPlayed, processDraw, processBluffCalled,
    pushLast3, advanceTurn, pushToHand.
  roster_auto.
Qed.

Lemma roster_init : frames sameRoster init.
Proof. unfold init. roster_auto. Qed.

Lemma forallb_tl : forall (A : Type) (f : A -> bool) (l : list A),
  forallb f l = true -> forallb f (tl l) = true.
Proof.
  intros A f [| x r] H; [reflexivity |]. simpl in *.
  apply andb_prop in H. apply H.
Qed.

Lemma log_kept_recordEvent : forall e, frames logKept (recordEvent e).
Proof.
  intros e s. unfold recordEvent. rewrite gets_bind.
  destruct (shorthandMode s) eqn:Hs.
  - destruct e as [g | i]; [| apply logKept_refl].
    rewrite modify_bind. unfold modify. simpl snd.
    split; [destruct (length (events s) =? MAX_SHORTHAND_EVENTS)%nat; reflexivity |].
    unfold shorthandLog. intros H _. specialize (H Hs).
    destruct (length (events s) =? MAX_SHORTHAND_EVENTS)%nat; simpl;
      rewrite forallb_app; simpl; rewrite ?andb_true_r; auto using forallb_tl.
  - split; [reflexivity |]. unfold shorthandLog. simpl. intros _ H. congruence.
Qed.

Lemma log_kept_random : frames logKept random.
Proof. unfold random. log_auto. Qed.

#[export] Hint Resolve log_kept_recordEvent log_kept_random : logkept.

Lemma log_kept_shuffle_loop : forall i, frames logKept (shuffle_loop i).
Proof. intros i. induction i as [| i IH]; simpl; log_auto. Qed.
#[export] Hint Resolve log_kept_shuffle_loop : logkept.

Lemma log_kept_shuffleDeck : frames logKept shuffleDeck.
Proof. unfold shuffleDeck. log_auto. Qed.
#[export] Hint Resolve log_kept_shuffleDeck : logkept.

Lemma log_kept_deckTopCard : frames logKept deckTopCard.
Proof. unfold deckTopCard, recycleIfEmpty, getPile. log_auto. Qed.
#[export] Hint Resolve log_kept_deckTopCard : logkept.

Lemma log_kept_handOf : forall p, frames logKept (handOf p).
Proof. intros p. apply (frames_weaken _ _ _ _ logKept_of_readonly), readonly_handOf. Qed.

Lemma log_kept_checkEvent : forall e b, frames logKept (checkEvent e b).
Proof. intros e b. apply (frames_weaken _ _ _ _ logKept_of_readonly), readonly_checkEvent. Qed.

Lemma log_kept_lastTwo : forall i, frames logKept (lastTwoNonInfoEvents i).
Proof.
  intros i. apply (frames_weaken _ _ _ _ logKept_of_readonly), readonly_lastTwoNonInfoEvents.
Qed.

Lemma log_kept_someValid : forall cards, frames logKept (someValidAtBluffSite cards).
Proof.
  intros cards.
  apply (frames_weaken _ _ _ _ logKept_of_readonly), readonly_someValidAtBluffSite.
Qed.

#[export] Hint Resolve log_kept_handOf log_kept_checkEvent log_kept_lastTwo
  log_kept_someValid : logkept.

Lemma log_kept_processNewEvent : forall e, frames logKept (processNewEvent e).
Proof.
  intros e.
  unfold processNewEvent, processCardPlayed, processDraw, processBluffCalled,
    pushLast3, advanceTurn, pushToHand.
  log_auto.
Qed.

Lemma log_kept_join : forall ids, frames logKept (join ids).
Proof. intros ids. unfold join. log_auto. Qed.

Lemma log_kept_leave : forall ids, frames logKept (leave ids).
Proof. intros ids. unfold leave. log_auto. Qed.

(* ------------------------------------------------------------------------- *)
(** * Reachable states are well formed *)

Lemma keepsInvariant_refl : forall s, keepsInvariant s s.
Proof. intros s H. exact H. Qed.

Lemma keepsInvariant_trans : forall a b c,
  keepsInvariant a b -> keepsInvariant b c -> keepsInvariant a c.
Proof. unfold keepsInvariant. auto. Qed.

Lemma invariant_roster : forall s s', sameRoster s s' -> keepsInvariant s s'.
Proof.
  intros s s' [Hp Hk] [H1 H2]. split.
  - intros p Hin. rewrite Hp in Hin.
    eapply hands_get_same_keys; [exact Hk | apply H1, Hin].
  - unfold wellKeyed. rewrite Hk. exact H2.
Qed.

Lemma invariant_readonly : forall s s' : GameState, s = s' -> keepsInvariant s s'.
Proof. intros s s' <-. apply keepsInvariant_refl. Qed.

(** The three statements of [join] that admit a player. *)
Lemma keeps_admit : forall playerId hand,
  frames keepsInvariant
    (modify (fun s => set_players (players s ++ [playerId]) s) ;;;
     modify (fun s => set_hands (hands_set playerId hand (hands (cache s))) s) ;;;
     recordEvent (game_info (player_joined playerId))).
Proof.
  intros playerId hand s. rewrite !modify_bind.
  eapply keepsInvariant_trans; [| apply invariant_roster, roster_recordEvent].
  intros [H1 H2]. split.
  - intros p Hin. simpl in *. apply in_app_or in Hin. destruct Hin as [Hin | [<- | []]].
    + apply hands_set_defined, H1, Hin.
    + rewrite hands_get_set. discriminate.
  - unfold wellKeyed in *. simpl. apply enumerationOrder_hands_set, H2.
Qed.

Lemma keeps_join : forall ids, frames keepsInvariant (join ids).
Proof.
  intros ids. unfold join.
  apply (frames_bind _ keepsInvariant_trans); [apply (frames_gets _ keepsInvariant_refl) |].
  intros n. destruct (n =? MAX_PLAYERS)%nat; [apply (frames_throw _ keepsInvariant_refl) |].
  apply (frames_bind _ keepsInvariant_trans).
  { apply (frames_weaken _ _ _ _ invariant_readonly). readonly_auto. }
  intros _. apply (frames_forEach _ keepsInvariant_refl keepsInvariant_trans).
  intros playerId. apply (frames_bind _ keepsInvariant_trans).
  { apply (frames_weaken _ _ _ _ invariant_roster), roster_draws. }
  intros hand. apply keeps_admit.
Qed.

Lemma keeps_leave : forall ids, frames keepsInvariant (leave ids).
Proof.
  intros ids. unfold leave.
  apply (frames_forEach _ keepsInvariant_refl keepsInvariant_trans). intros playerId.
  apply (frames_bind _ keepsInvariant_trans); [apply (frames_gets _ keepsInvariant_refl) |].
  intros ps. destruct (notFound playerId ps); [apply (frames_throw _ keepsInvariant_refl) |].
  apply (frames_bind _ keepsInvariant_trans).
  - apply frames_modify. intros s [H1 H2]. split; [| exact H2].
    intros p Hin. simpl in Hin. apply filter_In in Hin. apply H1, Hin.
  - intros _. apply (frames_weaken _ _ _ _ invariant_roster), roster_recordEvent.
Qed.

Lemma keeps_processNewEvent : forall e, frames keepsInvariant (processNewEvent e).
Proof.
  intros e. apply (frames_weaken _ _ _ _ invariant_roster), roster_processNewEvent.
Qed.

Lemma keeps_replay : forall evs, frames keepsInvariant (replay evs).
Proof.
  intros evs. induction evs as [| [e | i] r IH]; simpl.
  - apply (frames_ret _ keepsInvariant_refl).
  - destruct (String.eqb (event_by e) ENGINE_ID); [exact IH |].
    apply (frames_bind _ keepsInvariant_trans); [apply keeps_processNewEvent | intros _; exact IH].
  - destruct i; try exact IH.
    + apply (frames_ret _ keepsInvariant_refl).
    + apply (frames_bind _ keepsInvariant_trans); [apply keeps_join | intros _; exact IH].
    + apply (frames_bind _ keepsInvariant_trans); [apply keeps_leave | intros _; exact IH].
Qed.

Lemma log_kept_replay : forall evs, frames logKept (replay evs).
Proof.
  intros evs. induction evs as [| [e | i] r IH]; simpl.
  - apply (frames_ret _ logKept_refl).
  - destruct (String.eqb (event_by e) ENGINE_ID); [exact IH |].
    apply (frames_bind _ logKept_trans); [apply log_kept_processNewEvent | intros _; exact IH].
  - destruct i; try exact IH.
    + apply (frames_ret _ logKept_refl).
    + apply (frames_bind _ logKept_trans); [apply log_kept_join | intros _; exact IH].
    + apply (frames_bind _ logKept_trans); [apply log_kept_leave | intros _; exact IH].
Qed.

Lemma log_kept_init : frames logKept init.
Proof. unfold init. log_auto. Qed.

Lemma wellFormed_newGame : forall entropy props, wellFormed (snd (newGame entropy props)).
Proof.
  intros entropy props. unfold newGame.
  assert (H0 : wellFormed (blankState entropy props)).
  { split; [split |].
    - intros p [].
    - exact Logic.I.
    - intros _. reflexivity. }
  destruct (negb (prop_noInit props)); [| exact H0].
  destruct H0 as [Hi Hl]. split.
  - exact (invariant_roster _ _ (roster_init _) Hi).
  - exact (proj2 (log_kept_init _) Hl).
Qed.

Lemma wellFormed_frames : forall (A : Type) (m : Method A) s,
  frames keepsInvariant m -> frames logKept m -> wellFormed s -> wellFormed (snd (m s)).
Proof.
  intros A m s H1 H2 [Hi Hl]. split; [apply H1, Hi | apply H2, Hl].
Qed.

Lemma wellFormed_jump : forall entropy i s,
  wellFormed s -> wellFormed (snd (jumpToEventIndex entropy i s)).
Proof.
  intros entropy i s H. unfold jumpToEventIndex. rewrite gets_bind.
  destruct (shorthandMode s) eqn:Hmode; [exact H |].
  rewrite gets_bind.
  destruct ((i <? - Z.of_nat (length (events s))) || (i >=? Z.of_nat (length (events s))));
    [exact H |].
  cbv zeta. rewrite gets_bind, modify_bind, !gets_bind.
  set (cut := set_events _ s).
  assert (Hcut : wellFormed cut).
  { destruct H as [Hi _]. split; [exact Hi |]. intros Hs. simpl in Hs. congruence. }
  pose proof (wellFormed_newGame entropy
                (mkProps false None (Some (SeedNumber (initialSeed cut))) false)) as Hnew.
  destruct (newGame entropy _) as [[[] | t] cg]; [| exact Hcut].
  simpl in Hnew.
  pose proof (wellFormed_frames _ (replay (events cut)) cg
                (keeps_replay _) (log_kept_replay _) Hnew) as Hre.
  destruct (replay (events cut) cg) as [[[] | t] cg']; [| exact Hcut].
  exact Hre.
Qed.

Lemma answering_state : forall (A : Type) (f : A -> Answer) (m : Method A) s,
  snd (answering f m s) = snd (m s).
Proof.
  intros A f m s. unfold answering, bind. destruct (m s) as [[a | t] s1]; reflexivity.
Qed.

Lemma wellFormed_perform : forall c s, wellFormed s -> wellFormed (snd (perform c s)).
Proof.
  intros c s H. destruct c as [ids | ids | e | entropy i]; simpl; rewrite answering_state.
  - apply wellFormed_frames; [apply keeps_join | apply log_kept_join | exact H].
  - apply wellFormed_frames; [apply keeps_leave | apply log_kept_leave | exact H].
  - apply wellFormed_frames;
      [apply keeps_processNewEvent | apply log_kept_processNewEvent | exact H].
  - apply wellFormed_jump, H.
Qed.

Lemma reachable_wellFormed : forall s, reachable s -> wellFormed s.
Proof.
  intros s H. induction H as [entropy props | s c H IH].
  - apply wellFormed_newGame.
  - apply wellFormed_perform, IH.
Qed.

(* ------------------------------------------------------------------------- *)
(** * Joining and leaving *)

Lemma replicateM_length : forall (A : Type) (m : Method A) n s l s',
  replicateM n m s = (Normal l, s') -> length l = n.
Proof.
  intros A m n. induction n as [| n IH]; simpl; intros s l s' H.
  - inversion H. reflexivity.
  - apply bind_inv in H. destruct H as [(a & s1 & E1 & H) | (t & _ & H)]; [| discriminate].
    apply bind_inv in H. destruct H as [(r & s2 & E2 & H) | (t & _ & H)]; [| discriminate].
    inversion H; subst. simpl. f_equal. eapply IH, E2.
Qed.

Lemma deal_in : forall ids s s',
  forEach ids (fun playerId =>
    hand <- replicateM 7 deckTopCard ;;
    modify (fun s => set_players (players s ++ [playerId]) s) ;;;
    modify (fun s => set_hands (hands_set playerId hand (hands (cache s))) s) ;;;
    recordEvent (game_info (player_joined playerId))) s = (Normal tt, s') ->
  forall p, In p ids \/ dealtIn p s -> dealtIn p s'.
Proof.
  intros ids. induction ids as [| a r IH]; cbn [forEach]; intros s s' H p Hp.
  - inversion H; subst. destruct Hp as [[] | Hp]. exact Hp.
  - apply bind_inv in H. destruct H as [([] & s1 & E1 & H) | (t & _ & H)]; [| discriminate].
    apply (IH _ _ H).
    apply bind_inv in E1. destruct E1 as [(hand & s0 & E0 & E1) | (t & _ & E1)];
      [| discriminate].
    pose proof (replicateM_length _ _ _ _ _ _ E0) as Hlen.
    pose proof (roster_draws 7 s) as Hr. rewrite E0 in Hr. simpl in Hr.
    pose proof (piles_draw 7 s) as Hpiles. rewrite E0 in Hpiles. simpl in Hpiles.
    destruct Hpiles as (_ & _ & _ & Hplayers & _ & Hhands & _).
    rewrite !modify_bind, recordEvent_run in E1. inversion E1 as [E]. clear E1.
    destruct (recordEvent_fields (game_info (player_joined a))
      (set_hands (hands_set a hand (hands (cache s0)))
                 (set_players (players s0 ++ [a]) s0))) as (Hc & _ & Hp').
    unfold dealtIn. rewrite Hc, Hp'. simpl.
    destruct (String.eqb p a) eqn:Epa.
    + apply String.eqb_eq in Epa. subst a. right. split.
      * apply in_or_app. right. left. reflexivity.
      * exists hand. rewrite hands_get_set. split; [reflexivity | exact Hlen].
    + destruct Hp as [[Hp | Hp] | [Hin (h & Hh & Hl)]].
      * subst a. rewrite String.eqb_refl in Epa. discriminate.
      * left. exact Hp.
      * right. split.
        { apply in_or_app. left. rewrite Hplayers. exact Hin. }
        { exists h. rewrite hands_get_set_other by exact Epa.
          rewrite Hhands. split; assumption. }
Qed.

Lemma join_deals_seven : forall ids s s',
  join ids s = (Normal tt, s') -> forall p, In p ids -> dealtIn p s'.
Proof.
  intros ids s s' H p Hp. unfold join in H. rewrite gets_bind in H.
  destruct (length (players s) =? MAX_PLAYERS)%nat; [discriminate |].
  apply bind_inv in H. destruct H as [([] & s1 & E1 & H) | (t & _ & H)]; [| discriminate].
  eapply deal_in; [exact H | left; exact Hp].
Qed.

Lemma sameHands_refl : forall s, sameHands s s.
Proof. reflexivity. Qed.

Lemma sameHands_trans : forall a b c, sameHands a b -> sameHands b c -> sameHands a c.
Proof. unfold sameHands. intros a b c H1 H2. congruence. Qed.

Lemma leave_keeps_hands : forall ids, frames sameHands (leave ids).
Proof.
  intros ids. unfold leave.
  apply (frames_forEach _ sameHands_refl sameHands_trans). intros playerId.
  apply (frames_bind _ sameHands_trans); [apply (frames_gets _ sameHands_refl) |].
  intros ps. destruct (notFound playerId ps); [apply (frames_throw _ sameHands_refl) |].
  apply (frames_bind _ sameHands_trans); [apply frames_modify; reflexivity |].
  intros _ s. unfold sameHands.
  destruct (recordEvent_fields (game_info (player_left playerId)) s) as [Hc _].
  rewrite Hc. reflexivity.
Qed.

Lemma leave_removes : forall ids s s',
  leave ids s = (Normal tt, s') ->
  forall p, In p ids \/ ~ In p (players s) -> ~ In p (players s').
Proof.
  intros ids. unfold leave. induction ids as [| a r IH]; cbn [forEach]; intros s s' H p Hp.
  - inversion H; subst. destruct Hp as [[] | Hp]. exact Hp.
  - apply bind_inv in H. destruct H as [([] & s1 & E1 & H) | (t & _ & H)]; [| discriminate].
    apply (IH _ _ H).
    rewrite gets_bind in E1. destruct (notFound a (players s)); [discriminate |].
    rewrite modify_bind, recordEvent_run in E1. inversion E1 as [E]. clear E1.
    destruct (recordEvent_fields (game_info (player_left a))
      (set_players (filter (fun id => negb (String.eqb id a)) (players s)) s))
      as (_ & _ & Hp').
    rewrite Hp'. simpl.
    destruct Hp as [[Hp | Hp] | Hp].
    + right. subst a. intros Hin. apply filter_In in Hin. destruct Hin as [_ Hne].
      rewrite String.eqb_refl in Hne. discriminate.
    + left. exact Hp.
    + right. intros Hin. apply filter_In in Hin. apply Hp, Hin.
Qed.

(* ------------------------------------------------------------------------- *)
(** * Serialising and reading back *)

Lemma traverse_map : forall (A B : Type) (f : A -> B) (g : B -> option A) (l : list A),
  (forall a, In a l -> g (f a) = Some a) ->
  Schema.traverse g (map f l) = Some l.
Proof.
  intros A B f g l. induction l as [| x r IH]; intros H; simpl; [reflexivity |].
  rewrite (H x (or_introl eq_refl)), IH; [reflexivity |].
  intros a Ha. apply H. right. exact Ha.
Qed.

Lemma cardColor_round : forall c, Schema.cardColor (JString (Schema.color_name c)) = Some c.
Proof. intros []; reflexivity. Qed.

Lemma card_round : forall c, Schema.card (Schema.of_card c) = Some c.
Proof. intros [[] [] | []]; reflexivity. Qed.

Lemma cards_round : forall l, Schema.array Schema.card (JArray (map Schema.of_card l)) = Some l.
Proof. intros l. apply traverse_map. intros c _. apply card_round. Qed.

Lemma gameEvent_round : forall e, Schema.gameEvent (Schema.of_gameEvent e) = Some e.
Proof.
  intros [b c | b | b c | b | b]; cbn -[Schema.card Schema.cardColor Schema.of_card];
    rewrite ?card_round, ?cardColor_round; reflexivity.
Qed.

Lemma info_round : forall i, Schema.info (Schema.of_info i) = Some i.
Proof. intros []; reflexivity. Qed.

Lemma gameEvent_of_info : forall i,
  Schema.gameEvent (JObject [("type"%string, JString "game_info"); ("info"%string, Schema.of_info i)])
  = None.
Proof. intros i. reflexivity. Qed.

Lemma logged_round : forall shorthand e,
  (shorthand = true -> isGameEvent e = true) ->
  Schema.logged shorthand (Schema.of_logged e) = Some e.
Proof.
  intros shorthand [g | i] H; unfold Schema.logged, Schema.of_logged.
  - rewrite gameEvent_round. reflexivity.
  - rewrite gameEvent_of_info.
    destruct shorthand; [specialize (H eq_refl); discriminate |].
    cbn -[Schema.info Schema.of_info]. rewrite info_round. reflexivity.
Qed.

Lemma card_of_color : forall c, Schema.card (JString (Schema.color_name c)) = None.
Proof. reflexivity. Qed.

Lemma playOrColor_round : forall x, Schema.playOrColor (Schema.of_playOrColor x) = Some x.
Proof.
  intros [c | c]; unfold Schema.playOrColor, Schema.of_playOrColor.
  - rewrite card_round. reflexivity.
  - rewrite card_of_color, cardColor_round. reflexivity.
Qed.

Lemma turnStep_round : forall t, Schema.turnStep_ (JNumber (step_value t)) = Some t.
Proof. intros []; reflexivity. Qed.

Lemma hands_round : forall h,
  enumerationOrder (map fst h) -> Schema.hands_ (Schema.of_hands h) = Some h.
Proof.
  intros h H. unfold Schema.hands_, Schema.of_hands.
  rewrite traverse_map.
  - simpl. rewrite (hands_of_members_ordered h H). reflexivity.
  - intros [k v] _. cbn [fst snd]. rewrite cards_round. reflexivity.
Qed.

Lemma cache_round : forall c,
  enumerationOrder (map fst (hands c)) -> Schema.cache_ (Schema.of_cache c) = Some c.
Proof.
  intros [h d sd st ts e p l3] H. simpl in H.
  unfold Schema.of_cache, Schema.cache_.
  cbn -[Schema.hands_ Schema.of_hands Schema.array Schema.turnStep_ Z.ltb Z.to_nat Z.of_nat].
  rewrite (hands_round h H), !cards_round, turnStep_round.
  unfold Schema.array. rewrite traverse_map by (intros; apply playOrColor_round).
  replace (Z.of_nat st <? 0) with false by (symmetry; apply Z.ltb_ge; lia).
  rewrite Nat2Z.id. reflexivity.
Qed.

Lemma players_round : forall ps,
  Schema.array Schema.string_ (JArray (map JString ps)) = Some ps.
Proof. intros ps. apply traverse_map. reflexivity. Qed.

Lemma gameState_round : forall s,
  wellKeyed s -> shorthandLog s -> Schema.gameState (Schema.of_gameState s) = Some s.
Proof.
  intros [sh i is_ ps sp evs c] Hk Hl. unfold wellKeyed, shorthandLog in *. simpl in Hk, Hl.
  unfold Schema.of_gameState, Schema.gameState.
  cbn -[Schema.cache_ Schema.of_cache Schema.array Schema.logged Schema.of_logged].
  rewrite (cache_round c Hk), players_round.
  unfold Schema.array. rewrite traverse_map; [reflexivity |].
  intros e He. apply logged_round. intros ->.
  specialize (Hl eq_refl). rewrite forallb_forall in Hl. apply Hl, He.
Qed.


Lemma reachable_opening : reachable Example.opening.
Proof. apply (reachable_call _ (CallJoin [Example.p1; Example.p2])), reachable_new. Qed.




(** A player who has left keeps the entry in [hands]. *)
Lemma departed_player_keeps_entry :
  let s := after [CallLeave [Example.p1]] Example.opening in
  players s = [Example.p2]
  /\ map fst (hands (cache s)) = [Example.p1; Example.p2]
  /\ length (Example.held s Example.p1) = 7%nat.
Proof. vm_compute. conjuncts; reflexivity. Qed.

(* ------------------------------------------------------------------------- *)
(** * Shuffling *)

Lemma mulberry32_range : forall t, 0 <= mulberry32 t < 4294967296.
Proof. intros t. unfold mulberry32, JS.toUint32. apply Z.mod_pos_bound. lia. Qed.

Lemma swap_index_in_range : forall r i,
  0 <= r < 4294967296 ->
  (Z.to_nat (r * (Z.of_nat i + 1) / 4294967296) <= i)%nat.
Proof.
  intros r i H.
  assert (Hq : r * (Z.of_nat i + 1) / 4294967296 < Z.of_nat i + 1).
  { apply Z.div_lt_upper_bound; [lia |]. nia. }
  assert (H0 : 0 <= r * (Z.of_nat i + 1) / 4294967296).
  { apply Z.div_pos; [nia | lia]. }
  lia.
Qed.

Lemma set_at_Permutation : forall (A : Type) (l : list A) (j : nat) (a y : A),
  nth_error l j = Some y -> Permutation (y :: JS.set_at j a l) (a :: l).
Proof.
  intros A l. induction l as [| x r IH]; intros [| j] a y H; simpl in *; try discriminate.
  - inversion H; subst. apply perm_swap.
  - etransitivity; [apply perm_swap |].
    etransitivity; [apply perm_skip, (IH j a y H) |]. apply perm_swap.
Qed.

Lemma swap_Permutation : forall (A : Type) (i j : nat) (l : list A),
  Permutation (JS.swap i j l) l.
Proof.
  intros A i j l. unfold JS.swap.
  destruct (nth_error l i) as [x |] eqn:Hi; [| reflexivity].
  destruct (nth_error l j) as [y |] eqn:Hj; [| reflexivity].
  revert i j x y Hi Hj. induction l as [| a r IH]; intros [| i] [| j] x y Hi Hj;
    simpl in *; try discriminate.
  - inversion Hi; inversion Hj; subst. reflexivity.
  - inversion Hi; subst. apply set_at_Permutation, Hj.
  - inversion Hj; subst. apply set_at_Permutation, Hi.
  - apply perm_skip, (IH i j x y Hi Hj).
Qed.

Lemma deckPermuted_refl : forall s, deckPermuted s s.
Proof. intros s. split; reflexivity. Qed.

Lemma deckPermuted_trans : forall a b c,
  deckPermuted a b -> deckPermuted b c -> deckPermuted a c.
Proof.
  unfold deckPermuted. intros a b c [H1 H2] [H3 H4]. split.
  - etransitivity; eassumption.
  - congruence.
Qed.

Ltac perm_auto :=
  repeat first
    [ assumption
    | solve [auto with cards]
    | frames_step deckPermuted_refl deckPermuted_trans
    | apply frames_modify; intros; solve
        [ repeat match goal with
                 | |- context [if ?b then _ else _] => destruct b
                 end; first [apply deckPermuted_refl | split; reflexivity] ]
    | progress cbv beta zeta ].

Create HintDb cards.

Lemma perm_random : frames deckPermuted random.
Proof. unfold random. perm_auto. Qed.
#[export] Hint Resolve perm_random : cards.

Lemma perm_recordEvent : forall e, frames deckPermuted (recordEvent e).
Proof. intros e. unfold recordEvent. perm_auto. Qed.
#[export] Hint Resolve perm_recordEvent : cards.

Lemma perm_shuffle_loop : forall i, frames deckPermuted (shuffle_loop i).
Proof.
  intros i. induction i as [| i IH]; simpl; perm_auto.
  apply frames_modify. intros s. split; simpl; [apply swap_Permutation | reflexivity].
Qed.
#[export] Hint Resolve perm_shuffle_loop : cards.

Lemma perm_shuffleDeck : frames deckPermuted shuffleDeck.
Proof. unfold shuffleDeck. perm_auto. Qed.

(** X5 ([random] and [shuffleDeck]): [random()] returns a number in
    [[0, 1)] (its numerator is a 32 bit unsigned integer), so the index
    [Math.floor(random() * (i + 1))] that the shuffle swaps position [i]
    with is at most [i], inside the deck; [shuffleDeck] never throws, leaves
    the deck a permutation of what it was (no card is lost, added or
    duplicated), and touches nothing but the order of the deck, the seed and
    the log. *)
Theorem shuffle_permutes_the_deck :
  (forall t, 0 <= mulberry32 t < 4294967296)
  /\ (forall t i,
        (Z.to_nat (mulberry32 t * (Z.of_nat i + 1) / 4294967296) <= i)%nat)
  /\ (forall s,
        fst (shuffleDeck s) = Normal tt
        /\ Permutation (deck (cache (snd (shuffleDeck s)))) (deck (cache s))
        /\ pile (cache (snd (shuffleDeck s))) = pile (cache s)
        /\ sameButPiles s (snd (shuffleDeck s))).
Proof.
  split; [exact mulberry32_range |].
  split; [intros t i; apply swap_index_in_range, mulberry32_range |].
  intros s. split; [| split; [| split]].
  - rewrite shuffleDeck_run. reflexivity.
  - apply (perm_shuffleDeck s).
  - apply (perm_shuffleDeck s).
  - apply piles_shuffleDeck.
Qed.

(* ------------------------------------------------------------------------- *)
(** * Taking the top card of the deck *)

Lemma logUntouched_refl : forall s, logUntouched s s.
Proof. intros s. split; reflexivity. Qed.

Lemma logUntouched_trans : forall a b c,
  logUntouched a b -> logUntouched b c -> logUntouched a c.
Proof. unfold logUntouched. intros a b c [H1 H2] [H3 H4]. split; congruence. Qed.

Lemma untouched_shuffle_loop : forall i, frames logUntouched (shuffle_loop i).
Proof.
  intros i. induction i as [| i IH]; simpl; unfold random;
    repeat first
      [ assumption
      | frames_step logUntouched_refl logUntouched_trans
      | apply frames_modify; intros; split; reflexivity
      | progress cbv beta zeta ].
Qed.

Lemma shuffle_loop_run : forall i s,
  shuffle_loop i s = (Normal tt, snd (shuffle_loop i s)).
Proof.
  intros i s. destruct (total_run _ (shuffle_loop i) s (total_shuffle_loop i)) as [[] H].
  exact H.
Qed.

Lemma shuffleDeck_log : forall s,
  events (snd (shuffleDeck s))
  = if shorthandMode s then events s
    else events s ++ [game_info (seed_changed (seed (cache (snd (shuffleDeck s)))))].
Proof.
  intros s. unfold shuffleDeck. step.
  rewrite (bind_normal _ _ _ _ _ _ _ (shuffle_loop_run _ s)).
  set (s1 := snd (shuffle_loop _ s)).
  destruct (untouched_shuffle_loop (length (deck (cache s)) - 1) s) as [He Hm].
  fold s1 in He, Hm. step.
  destruct (recordEvent_fields (game_info (seed_changed (seed (cache s1)))) s1) as [Hc _].
  rewrite Hc. unfold recordEvent. step. rewrite Hm.
  destruct (shorthandMode s); simpl; [exact He | rewrite He; reflexivity].
Qed.

Lemma recycle_empty_deck_cards : forall s p ps,
  deck (cache s) = [] -> pile (cache s) = p :: ps ->
  exists s',
    recycleIfEmpty s = (Normal tt, s')
    /\ Permutation (deck (cache s')) (p :: ps)
    /\ pile (cache s') = []
    /\ sameButPiles s s'
    /\ events s'
       = if shorthandMode s then events s
         else events s ++ [game_info (seed_changed (seed (cache s'))); game_info pile_to_deck].
Proof.
  intros s p ps D P. unfold recycleIfEmpty, getPile. step. rewrite D.
  change (length (@nil Card) =? 0)%nat with true. cbv iota.
  step. rewrite P. change (length (p :: ps) =? 0)%nat with false. cbv iota.
  repeat step. rewrite recordEvent_run.
  eexists. split; [reflexivity |].
  set (s0 := set_deck (p :: ps) s).
  set (s2 := snd (shuffleDeck s0)).
  destruct (recordEvent_fields (game_info pile_to_deck) (set_pile [] s2)) as [Hc _].
  rewrite Hc. simpl.
  destruct (perm_shuffleDeck s0) as [Hperm _]. fold s2 in Hperm.
  pose proof (piles_shuffleDeck s0) as Hframe. fold s2 in Hframe.
  pose proof (shuffleDeck_log s0) as Hlog. fold s2 in Hlog.
  split; [exact Hperm |]. split; [reflexivity |]. split.
  - eapply sameButPiles_trans; [| apply piles_recordEvent].
    unfold sameButPiles in *. simpl in *. exact Hframe.
  - unfold recordEvent. step.
    assert (Hm : shorthandMode (set_pile [] s2) = shorthandMode s).
    { simpl. destruct Hframe as [H _]. exact H. }
    rewrite Hm. destruct (shorthandMode s) eqn:Hs.
    + simpl in *. rewrite Hs in Hlog. exact Hlog.
    + simpl in *. rewrite Hs in Hlog. rewrite Hlog, <- app_assoc. reflexivity.
Qed.

(** X6 ([deckTopCard]): with both the deck and the discard pile empty it
    throws the supply-exhausted error and changes nothing; with a card in
    the deck it returns the first card of the deck and removes it, touching
    nothing else; with an empty deck and a non-empty discard pile it returns
    a card [c] such that [c] and the new deck are together a permutation of
    the old discard pile, the new discard pile is empty, players, hands and
    turn are untouched, and a full log grows by exactly the two entries
    seed-changed and pile-to-deck (a bounded log by none).  It never returns
    [undefined]. *)
Theorem deckTopCard_contract : forall (s : GameState),
  (supply s = 0%nat -> deckTopCard s = (Abrupt (ThrowUnocab DeckPileExhausted), s))
  /\ (forall top rest, deck (cache s) = top :: rest ->
        deckTopCard s = (Normal top, set_deck rest s))
  /\ (deck (cache s) = [] -> pile (cache s) <> [] ->
        exists c s',
          deckTopCard s = (Normal c, s')
          /\ Permutation (c :: deck (cache s')) (pile (cache s))
          /\ pile (cache s') = []
          /\ sameButPiles s s'
          /\ events s'
             = if shorthandMode s then events s
               else events s ++ [game_info (seed_changed (seed (cache s')));
                                 game_info pile_to_deck])
  /\ fst (deckTopCard s) <> Abrupt Undefined.
Proof.
  intros s. split; [apply deckTopCard_exhausted |]. split; [| split].
  - intros top rest D. unfold deckTopCard.
    rewrite (bind_normal _ _ _ _ _ _ _ (recycle_full_deck s ltac:(congruence))).
    apply pop_deck, D.
  - intros D P. destruct (pile (cache s)) as [| p ps] eqn:Hp; [contradiction |].
    destruct (recycle_empty_deck_cards s p ps D Hp) as (s1 & E & Hperm & Hpile & Hf & Hl).
    unfold deckTopCard. rewrite (bind_normal _ _ _ _ _ _ _ E).
    destruct (deck (cache s1)) as [| top rest] eqn:D1.
    { apply Permutation_nil in Hperm. discriminate. }
    rewrite (pop_deck s1 top rest D1).
    exists top. eexists. split; [reflexivity |]. simpl.
    split; [exact Hperm |]. split; [exact Hpile |]. split.
    + unfold sameButPiles in *. simpl. exact Hf.
    + exact Hl.
  - apply deckTopCard_defined.
Qed.

(* ------------------------------------------------------------------------- *)
(** * The opening of a game *)

Lemma findIndex_Some : forall (A : Type) (p : A -> bool) (l : list A),
  existsb p l = true ->
  exists i x, JS.findIndex p l = Some i /\ nth_error l i = Some x /\ p x = true.
Proof.
  intros A p l. induction l as [| a r IH]; simpl; intros H; [discriminate |].
  destruct (p a) eqn:Ha.
  - exists 0%nat, a. auto.
  - simpl in H. destruct (IH H) as (i & x & Hi & Hn & Hp).
    exists (S i), x. rewrite Hi. auto.
Qed.

Lemma remove_at_Permutation : forall (A : Type) (l : list A) (i : nat) (x : A),
  nth_error l i = Some x -> Permutation (x :: JS.remove_at i l) l.
Proof.
  intros A l. induction l as [| a r IH]; intros [| i] x H; simpl in *; try discriminate.
  - inversion H; subst. reflexivity.
  - etransitivity; [apply perm_swap |]. apply perm_skip, IH, H.
Qed.

Lemma existsb_Permutation : forall (A : Type) (p : A -> bool) (l l' : list A),
  Permutation l l' -> existsb p l = true -> existsb p l' = true.
Proof.
  intros A p l l' H E. apply existsb_exists in E. destruct E as (x & Hin & Hp).
  apply existsb_exists. exists x. split; [| exact Hp].
  eapply Permutation_in; eassumption.
Qed.

Lemma init_opening : forall s,
  exists top s',
    init s = (Normal tt, s')
    /\ isColorSwitching (card_type top) = false
    /\ pile (cache s') = [top]
    /\ Permutation (top :: deck (cache s')) DECK
    /\ events s' = [game_event (card_played ENGINE_ID top)]
    /\ last3CardPlayOrColorChanges (cache s') = [PlayedCard top]
    /\ sameRoster s s'
    /\ index s' = index s
    /\ initialSeed s' = initialSeed s
    /\ stackPlusTwos s' = stackPlusTwos s
    /\ shorthandMode s' = shorthandMode s
    /\ ended (cache s') = ended (cache s)
    /\ turnStep (cache s') = turnStep (cache s)
    /\ stackedPlusTwos (cache s') = stackedPlusTwos (cache s).
Proof.
  intros s. unfold init. step. step.
  destruct (perm_shuffleDeck (set_deck DECK s)) as [Hperm _].
  pose proof (piles_shuffleDeck (set_deck DECK s)) as Hf.
  change (deck (cache (set_deck DECK s))) with DECK in Hperm.
  assert (Hf' : sameButPiles s (snd (shuffleDeck (set_deck DECK s)))).
  { unfold sameButPiles in *. exact Hf. }
  clear Hf. revert Hperm Hf'.
  generalize (snd (shuffleDeck (set_deck DECK s))). intros s1 Hperm Hf.
  step.
  assert (Hex : existsb (fun card => negb (isColorSwitching (card_type card)))
                        (deck (cache s1)) = true).
  { apply (existsb_Permutation _ _ DECK); [symmetry; exact Hperm |].
    vm_compute. reflexivity. }
  destruct (findIndex_Some _ _ _ Hex) as (i & top & Hi & Hn & Hp).
  rewrite Hi, Hn. repeat step. unfold ret.
  exists top. eexists. split; [reflexivity |].
  unfold sameButPiles in Hf. decompose [and] Hf. clear Hf.
  cbn [pile cache set_last3 set_pile set_events set_deck set_cache deck events
       last3CardPlayOrColorChanges index initialSeed stackPlusTwos shorthandMode
       ended turnStep stackedPlusTwos hands players].
  split; [apply negb_true_iff, Hp |].
  split; [reflexivity |].
  split; [etransitivity; [apply remove_at_Permutation, Hn | exact Hperm] |].
  split; [reflexivity |]. split; [reflexivity |].
  split; [split; [exact H2 | simpl; rewrite H4; reflexivity] |].
  conjuncts; assumption.
Qed.

(** X7 (the constructor and [init]): unless [noInit] is set, [new Game(props)]
    returns, whatever the seed and the options, with one card on the discard
    pile that is not color switching, the other 107 cards of the pack in the
    deck (the top card and the deck are together a permutation of [DECK]), a
    log that holds exactly the play of that card by the engine, that card as
    the only entry of the color history, no player, no hand, turn counter
    [0], and the game not ended. *)
Theorem new_game_opening : forall (entropy : Z) (props : Props),
  prop_noInit props = false ->
  exists top s,
    newGame entropy props = (Normal tt, s)
    /\ isColorSwitching (card_type top) = false
    /\ pile (cache s) = [top]
    /\ Permutation (top :: deck (cache s)) DECK
    /\ length (deck (cache s)) = 107%nat
    /\ events s = [game_event (card_played ENGINE_ID top)]
    /\ last3CardPlayOrColorChanges (cache s) = [PlayedCard top]
    /\ players s = []
    /\ hands (cache s) = []
    /\ index s = 0
    /\ ended (cache s) = false
    /\ initialSeed s = chooseSeed entropy (prop_initialSeed props)
    /\ shorthandMode s = prop_shorthandMode props.
Proof.
  intros entropy props Hinit. unfold newGame. rewrite Hinit. cbv [negb].
  destruct (init_opening (blankState entropy props))
    as (top & s & E & Hsw & Hpile & Hperm & Hev & Hl3 & [Hpl Hk] & Hi & Hs & _ & Hm & He & _).
  exists top, s. split; [exact E |]. split; [exact Hsw |]. split; [exact Hpile |].
  split; [exact Hperm |].
  split.
  { apply Permutation_length in Hperm. simpl in Hperm.
    change (length DECK) with 108%nat in Hperm. lia. }
  split; [exact Hev |]. split; [exact Hl3 |]. split; [exact Hpl |].
  split.
  { simpl in Hk. destruct (hands (cache s)); [reflexivity | discriminate]. }
  split; [exact Hi |]. split; [exact He |]. split; [exact Hs |]. exact Hm.
Qed.

Lemma new_game_opening_witness :
  exists top s,
    newGame 0 (mkProps false None (Some (SeedNumber 4087001194)) false) = (Normal tt, s)
    /\ isColorSwitching (card_type top) = false
    /\ pile (cache s) = [top]
    /\ Permutation (top :: deck (cache s)) DECK
    /\ length (deck (cache s)) = 107%nat
    /\ events s = [game_event (card_played ENGINE_ID top)]
    /\ last3CardPlayOrColorChanges (cache s) = [PlayedCard top]
    /\ players s = []
    /\ hands (cache s) = []
    /\ index s = 0
    /\ ended (cache s) = false
    /\ initialSeed s = 4087001194
    /\ shorthandMode s = false.
Proof.
  apply (new_game_opening 0 (mkProps false None (Some (SeedNumber 4087001194)) false)).
  reflexivity.
Defined.

(* ------------------------------------------------------------------------- *)
(** * The window of [lastTwoNonInfoEvents] *)

Lemma slice_window : forall (A : Type) (k : nat) (l : list A),
  (0 < k)%nat ->
  rev (JS.slice (-2 + - Z.of_nat k) (Some (- Z.of_nat k)) l)
  = firstn 2 (skipn k (rev l)).
Proof.
  intros A k l Hk. unfold JS.slice. cbv zeta.
  replace (-2 + - Z.of_nat k <? 0) with true by (symmetry; apply Z.ltb_lt; lia).
  replace (- Z.of_nat k <? 0) with true by (symmetry; apply Z.ltb_lt; lia).
  rewrite skipn_rev, firstn_rev, length_firstn. f_equal.
  rewrite firstn_skipn_comm.
  destruct (Nat.le_gt_cases (k + 2) (length l)) as [H | H].
  - replace (Z.to_nat (Z.max (Z.of_nat (length l) + (-2 + - Z.of_nat k)) 0))
      with (length l - k - 2)%nat by lia.
    replace (Z.to_nat (Z.max (Z.of_nat (length l) + - Z.of_nat k) 0
                       - Z.of_nat (length l - k - 2)))
      with 2%nat by lia.
    replace (Nat.min (length l - k) (length l) - 2)%nat with (length l - k - 2)%nat by lia.
    f_equal. f_equal. lia.
  - replace (Z.to_nat (Z.max (Z.of_nat (length l) + (-2 + - Z.of_nat k)) 0))
      with 0%nat by lia.
    replace (Nat.min (length l - k) (length l) - 2)%nat with 0%nat by lia.
    f_equal. f_equal. lia.
Qed.

(** X8 ([lastTwoNonInfoEvents]): the method returns, without touching the
    state, at most two domain moves, the most recent first, administrative
    events being skipped.  Called without argument it returns the two most
    recent domain moves; called with [-k], [k >= 1], it returns the two most
    recent ones once the [k] most recent have been set aside (so [-3], the
    argument of the bluff-site check, looks behind the three most recent
    moves); called with [0] it returns the empty array, since
    [slice(-2, 0)] is empty. *)
Theorem lastTwoNonInfoEvents_window : forall (s : GameState),
  lastTwoNonInfoEvents None s = (Normal (firstn 2 (recentMoves s)), s)
  /\ (forall k, (0 < k)%nat ->
        lastTwoNonInfoEvents (Some (- Z.of_nat k)) s
        = (Normal (firstn 2 (skipn k (recentMoves s))), s))
  /\ lastTwoNonInfoEvents (Some 0) s = (Normal [], s).
Proof.
  intros s. split; [apply lastTwoNonInfoEvents_run |]. split.
  - intros k Hk. unfold lastTwoNonInfoEvents, nonInfoEvents, recentMoves.
    step. unfold ret. rewrite slice_window by exact Hk. reflexivity.
  - unfold lastTwoNonInfoEvents, nonInfoEvents. step. unfold ret, JS.slice. cbv zeta.
    change (-2 + 0 <? 0) with true. change (0 <? 0) with false. cbv iota.
    replace (Z.to_nat (Z.min 0 (Z.of_nat (length (non_info (events s))))
                       - Z.max (Z.of_nat (length (non_info (events s))) + (-2 + 0)) 0))
      with 0%nat by lia.
    reflexivity.
Qed.

(* ------------------------------------------------------------------------- *)
(** * The valid events *)

Lemma filterValid_inv : forall l s evs s',
  filterValid l s = (Normal evs, s') -> s' = s /\ evs = filter (accepted s) l.
Proof.
  intros l. induction l as [| e r IH]; intros s evs s' H; simpl in H.
  - inversion H. split; reflexivity.
  - apply bind_inv in H. destruct H as [(err & s1 & E1 & H) | (t & _ & H)]; [| discriminate].
    assert (s1 = s) as -> by exact (readonly_run _ _ _ _ _ (readonly_checkEvent e false) E1).
    apply bind_inv in H. destruct H as [(valid & s2 & E2 & H) | (t & _ & H)]; [| discriminate].
    destruct (IH _ _ _ E2) as [-> ->]. inversion H; subst. split; [reflexivity |].
    cbn [filter].
    assert (Ha : accepted s' e = match err with None => true | Some _ => false end).
    { unfold accepted. rewrite E1. reflexivity. }
    rewrite Ha. destruct err; reflexivity.
Qed.

Lemma sameCard_refl : forall c, sameCard c c = true.
Proof. intros [t col | t]; destruct t; try destruct col; reflexivity. Qed.

Lemma findIndex_In : forall (A : Type) (p : A -> bool) (l : list A) (x : A),
  In x l -> p x = true -> JS.findIndex p l <> None.
Proof.
  intros A p l x Hin Hp. induction l as [| a r IH]; simpl; [contradiction |].
  destruct (p a) eqn:Ha; [discriminate |].
  destruct Hin as [-> | Hin]; [congruence |].
  destruct (JS.findIndex p r); [discriminate | exfalso; apply (IH Hin); reflexivity].
Qed.

(** An event that [checkEvent] accepts, of a player who holds the card if it
    plays one, is not rejected by [processNewEvent], unless it is a bluff
    call on a player who holds no hand. *)
Lemma accepted_event_applies : forall event s hand err,
  hands_get (event_by event) (hands (cache s)) = Some hand ->
  accepted s event = true ->
  (forall by_ card, event = card_played by_ card -> In card hand) ->
  fst (processNewEvent event s) = Abrupt (ThrowUnocab err) ->
  err = DeckPileExhausted
  \/ (exists accused,
        isBluffCalled event = true
        /\ err = PlayerNotInGame accused
        /\ hands_get accused (hands (cache s)) = None).
Proof.
  intros event s hand err Hhand Hacc Hcard H.
  destruct (processNewEvent event s) as [r s'] eqn:E. simpl in H. subst r.
  assert (Hdec : err = DeckPileExhausted \/ err <> DeckPileExhausted)
    by (destruct err; solve [left; reflexivity | right; discriminate]).
  destruct Hdec as [-> | Hne]; [left; reflexivity |].
  assert (Hvalid : checkEvent event false s = (Normal None, s)).
  { apply checkEvent_valid_inv. unfold accepted in Hacc.
    destruct (fst (checkEvent event false s)) as [[e |] | t]; try discriminate.
    reflexivity. }
  assert (Hheld : hands_get (event_by event) (hands (cache s)) <> None) by congruence.
  unfold processNewEvent in E.
  change (negb (playerId_safeParse (event_by event))) with false in E.
  cbv iota in E. rewrite ret_bind in E.
  rewrite (bind_normal _ _ _ _ _ _ _ (handOf_run _ _ _ Hhand)) in E.
  rewrite (bind_normal _ _ _ _ _ _ _ Hvalid) in E.
  destruct event as [by_ card | by_ | by_ color | by_ | by_]; simpl in Hheld.
  - unfold processCardPlayed in E.
    destruct (JS.findIndex (fun c => sameCard c card) hand) as [cardIndex |] eqn:Ef.
    + no_rejection E Hne by_ by_. split; exact Hheld.
    + exfalso. apply (findIndex_In _ (fun c => sameCard c card) hand card).
      * apply (Hcard by_ card). reflexivity.
      * apply sameCard_refl.
      * exact Ef.
  - unfold processBluffCalled in E.
    rewrite (bind_normal _ _ _ _ _ _ _ (lastTwoNonInfoEvents_run s)) in E.
    destruct (nth_error (firstn 2 (recentMoves s)) 1) as [secondLastEvent |];
      [| discriminate].
    apply bind_inv in E. destruct E as [(accusedHand & s1 & E3 & E) | (t & E3 & Et)].
    2:{ (* the accused holds no hand *)
        apply handOf_inv in E3. destruct E3 as [_ [Ht Hnone]].
        right. exists (event_by secondLastEvent).
        split; [reflexivity |]. split; [| exact Hnone]. congruence. }
    apply handOf_inv in E3. destruct E3 as [-> Haccused].
    no_rejection E Hne by_ (event_by secondLastEvent). split; congruence.
  - no_rejection E Hne by_ by_. split; exact Hheld.
  - unfold processDraw in E.
    rewrite (bind_normal _ _ _ _ _ _ _ (lastTwoNonInfoEvents_run s)) in E.
    destruct (firstn 2 (recentMoves s)) as [| lastEvent rest]; [discriminate |].
    no_rejection E Hne by_ by_. split; exact Hheld.
  - no_rejection E Hne by_ by_. split; exact Hheld.
Qed.

Lemma validEvents_are_accepted_aux : forall s playerId evs,
  fst (validEvents playerId s) = Normal evs ->
  exists hand, evs = filter (accepted s) (candidates playerId hand).
Proof.
  intros s playerId evs H.
  destruct (validEvents playerId s) as [r s'] eqn:E. simpl in H. subst r.
  unfold validEvents in E.
  apply bind_inv in E. destruct E as [(hand & s1 & E1 & E) | (t & _ & E)]; [| discriminate].
  apply handOf_inv in E1. destruct E1 as [-> Hhand].
  apply filterValid_inv in E. destruct E as [_ ->].
  exists hand. reflexivity.
Qed.

(** X9 ([validEvents] and [processNewEvent]): when [validEvents(playerId)]
    returns, the state is untouched, the player holds a hand, and the
    result is exactly the sublist (in order) of the candidates (draw, bluff
    call, pass, choosing red, and the play of each card of the hand) that
    [checkEvent] accepts.  Each returned event is a move of that player,
    and handing it to [processNewEvent] is never rejected by a
    [UnocabError], except for supply-exhausted and for a bluff call on a
    player who holds no hand. *)
Theorem validEvents_are_accepted :
  forall (s : GameState) (playerId : PlayerId) (evs : list GameEvent),
  fst (validEvents playerId s) = Normal evs ->
  snd (validEvents playerId s) = s
  /\ exists hand,
       hands_get playerId (hands (cache s)) = Some hand
       /\ evs = filter (accepted s) (candidates playerId hand)
       /\ forall event, In event evs ->
            event_by event = playerId
            /\ fst (checkEvent event false s) = Normal None
            /\ forall err,
                 fst (processNewEvent event s) = Abrupt (ThrowUnocab err) ->
                 err = DeckPileExhausted
                 \/ (exists accused,
                       isBluffCalled event = true
                       /\ err = PlayerNotInGame accused
                       /\ hands_get accused (hands (cache s)) = None).
Proof.
  intros s playerId evs H.
  destruct (validEvents playerId s) as [r s'] eqn:E. simpl in H. subst r.
  split; [exact (readonly_run _ _ _ _ _ (readonly_validEvents playerId) E) |].
  unfold validEvents in E.
  apply bind_inv in E. destruct E as [(hand & s1 & E1 & E) | (t & _ & E)]; [| discriminate].
  apply handOf_inv in E1. destruct E1 as [-> Hhand].
  apply filterValid_inv in E. destruct E as [_ ->].
  exists hand. split; [exact Hhand |]. split; [reflexivity |].
  intros event Hin. apply filter_In in Hin. destruct Hin as [Hin Hacc].
  assert (Hby : event_by event = playerId).
  { unfold candidates in Hin. apply in_app_or in Hin. destruct Hin as [Hin | Hin].
    - simpl in Hin. decompose [or] Hin; subst; try reflexivity. contradiction.
    - apply in_map_iff in Hin. destruct Hin as (c & <- & _). reflexivity. }
  split; [exact Hby |]. split.
  - unfold accepted in Hacc.
    destruct (fst (checkEvent event false s)) as [[e |] | t]; try discriminate.
    reflexivity.
  - intros err Herr. apply (accepted_event_applies event s hand err).
    + rewrite Hby. exact Hhand.
    + exact Hacc.
    + intros by_ card ->. unfold candidates in Hin. apply in_app_or in Hin.
      destruct Hin as [Hin | Hin].
      * simpl in Hin. decompose [or] Hin; try discriminate. contradiction.
      * apply in_map_iff in Hin. destruct Hin as (c & Hc & Hin).
        inversion Hc; subst. exact Hin.
    + exact Herr.
Qed.

Lemma validEvents_are_accepted_witness :
  fst (validEvents Example.p1 Example.opening)
  = Normal [draw Example.p1;
            card_played Example.p1 (ColoredCard eight blue);
            card_played Example.p1 (ColoredCard plus_two blue);
            card_played Example.p1 (SwitchingCard color_chooser);
            card_played Example.p1 (ColoredCard seven blue)]
  /\ snd (validEvents Example.p1 Example.opening) = Example.opening.
Proof.
  assert (H : fst (validEvents Example.p1 Example.opening)
              = Normal [draw Example.p1;
                        card_played Example.p1 (ColoredCard eight blue);
                        card_played Example.p1 (ColoredCard plus_two blue);
                        card_played Example.p1 (SwitchingCard color_chooser);
                        card_played Example.p1 (ColoredCard seven blue)])
    by (vm_compute; reflexivity).
  split; [exact H |].
  exact (proj1 (validEvents_are_accepted Example.opening Example.p1 _ H)).
Defined.

(* ------------------------------------------------------------------------- *)
(** * Playing a card *)

Lemma recordEvent_shape : forall e s,
  snd (recordEvent e s) = set_events (events (snd (recordEvent e s))) s.
Proof.
  intros e s. pose proof (log_recordEvent e s) as H. unfold sameButLog in H.
  destruct (snd (recordEvent e s)) as [sh i is_ ps sp evs c].
  destruct s as [sh' i' is' ps' sp' evs' c'].
  unfold set_events in *. simpl in *. inversion H; subst. reflexivity.
Qed.

Lemma recordEvent_log : forall e s,
  shorthandMode s = false -> events (snd (recordEvent e s)) = events s ++ [e].
Proof.
  intros e s H. unfold recordEvent. rewrite gets_bind, H. reflexivity.
Qed.

Lemma sameCard_eq : forall a b, sameCard a b = true -> a = b.
Proof.
  intros [t col | t] [t' col' | t']; unfold sameCard; simpl; intros H;
    try discriminate; apply andb_true_iff in H; destruct H as [Ht Hc].
  - apply internal_ColoredType_dec_bl in Ht.
    apply internal_CardColor_dec_bl in Hc. subst. reflexivity.
  - apply internal_ColorSwitchingScs_dec_bl in Ht. subst. reflexivity.
Qed.

Lemma findIndex_held : forall card hand,
  In card hand ->
  exists i,
    JS.findIndex (fun c => sameCard c card) hand = Some i
    /\ nth_error hand i = Some card.
Proof.
  intros card hand Hin.
  destruct (findIndex_Some _ (fun c => sameCard c card) hand) as (i & c & Hi & Hn & Hc).
  { apply existsb_exists. exists card. split; [exact Hin | apply sameCard_refl]. }
  apply sameCard_eq in Hc. subst c. exists i. split; assumption.
Qed.

Lemma optional_modify_bind : forall (B : Type) (b : bool) f (k : unit -> Method B) s,
  bind (if b then modify f else ret tt) k s = k tt (if b then f s else s).
Proof. intros B b f k s. destruct b; reflexivity. Qed.

Lemma length_remove_at : forall (A : Type) (l : list A) (i : nat) (x : A),
  nth_error l i = Some x -> length l = S (length (JS.remove_at i l)).
Proof.
  intros A l i x H. apply remove_at_Permutation, Permutation_length in H.
  simpl in H. lia.
Qed.

Lemma bind_assoc : forall (A B C : Type) (m : Method A) (k1 : A -> Method B)
    (k2 : B -> Method C) s,
  bind (bind m k1) k2 s = bind m (fun a => bind (k1 a) k2) s.
Proof.
  intros A B C m k1 k2 s. unfold bind. destruct (m s) as [[a | t] s1]; reflexivity.
Qed.

Lemma optional_advance_bind : forall (B : Type) (b : bool) (g : nat -> Z)
    (k : unit -> Method B) s,
  bind (if b then
          playerCount <- gets (fun s => length (players s)) ;;
          advanceTurn (g playerCount)
        else ret tt) k s
  = k tt (if b
          then set_index (index s + step_value (turnStep (cache s))
                                    * g (length (players s))) s
          else s).
Proof. intros B b g k s. destruct b; reflexivity. Qed.

(** X10 (an ordinary play, [processNewEvent] on [card_played]): when
    [checkEvent] accepts the play of a card that the player holds and that
    is not the player's last card, the move is applied in full (the first
    such card leaves the hand and goes on top of the discard pile and at the
    end of the color history, which keeps at most three entries; a draw-two
    adds one to the stacked count, a reverse flips the direction, and the
    turn counter advances by the new direction times two for a skip, two
    for a reverse between two players, one for any other colored card, and
    not at all for a color-switching card; a full log gains the move) and
    then the method throws the string ["unreachable"]: this path has no
    [return]. *)
Theorem ordinary_play_is_applied_then_throws :
  forall (s : GameState) (by_ : PlayerId) (card : Card) (hand : list Card),
  fst (checkEvent (card_played by_ card) false s) = Normal None ->
  hands_get by_ (hands (cache s)) = Some hand ->
  In card hand ->
  (1 < length hand)%nat ->
  exists i s',
    JS.findIndex (fun c => sameCard c card) hand = Some i
    /\ nth_error hand i = Some card
    /\ processNewEvent (card_played by_ card) s = (Abrupt (ThrowString "unreachable"), s')
    /\ hands (cache s') = hands_update by_ (JS.remove_at i) (hands (cache s))
    /\ pile (cache s') = pile (cache s) ++ [card]
    /\ deck (cache s') = deck (cache s)
    /\ last3CardPlayOrColorChanges (cache s')
       = (if (length (last3CardPlayOrColorChanges (cache s)) =? 3)%nat
          then tl (last3CardPlayOrColorChanges (cache s))
          else last3CardPlayOrColorChanges (cache s)) ++ [PlayedCard card]
    /\ stackedPlusTwos (cache s')
       = (if AllCards_beq (card_type card) (Plain plus_two)
          then S (stackedPlusTwos (cache s)) else stackedPlusTwos (cache s))
    /\ turnStep (cache s')
       = (if AllCards_beq (card_type card) (Plain reverse)
          then flip_step (turnStep (cache s)) else turnStep (cache s))
    /\ index s'
       = (if isColorSwitching (card_type card) then index s
          else index s
               + step_value (turnStep (cache s'))
                 * (if AllCards_beq (card_type card) (Plain skip) then 2
                    else if AllCards_beq (card_type card) (Plain reverse)
                         then (if (length (players s) =? 2)%nat then 2 else 1)
                         else 1))
    /\ players s' = players s
    /\ ended (cache s') = ended (cache s)
    /\ seed (cache s') = seed (cache s)
    /\ (shorthandMode s = false ->
        events s' = events s ++ [game_event (card_played by_ card)]).
Proof.
  intros s by_ card hand Hvalid Hhand Hin Hlen.
  destruct (checkEvent_valid_inv _ _ Hvalid) as (Hcheck & _).
  destruct (findIndex_held card hand Hin) as (i & Hi & Hn).
  exists i.
  unfold processNewEvent.
  change (negb (playerId_safeParse (event_by (card_played by_ card)))) with false.
  cbv iota. step. simpl event_by.
  rewrite (bind_normal _ _ _ _ _ _ _ (handOf_run _ _ _ Hhand)).
  rewrite (bind_normal _ _ _ _ _ _ _ Hcheck).
  unfold processCardPlayed. rewrite Hi.
  step. step. rewrite recordEvent_shape.
  assert (Hlog : shorthandMode s = false ->
                 events (snd (recordEvent (game_event (card_played by_ card))
                        (set_hands (hands_update by_ (JS.remove_at i) (hands (cache s))) s)))
                 = events s ++ [game_event (card_played by_ card)]).
  { intros Hfull. rewrite recordEvent_log by exact Hfull. reflexivity. }
  revert Hlog.
  generalize (events (snd (recordEvent (game_event (card_played by_ card))
                (set_hands (hands_update by_ (JS.remove_at i) (hands (cache s))) s)))).
  intros evs Hlog.
  assert (Hleft : (length (JS.remove_at i hand) =? 0)%nat = false).
  { apply Nat.eqb_neq. pose proof (length_remove_at _ _ _ _ Hn). lia. }
  unfold pushLast3, advanceTurn. rewrite bind_assoc.
  destruct (AllCards_beq (card_type card) (Plain plus_two)) eqn:Etwo;
    destruct (AllCards_beq (card_type card) (Plain reverse)) eqn:Erev;
    destruct (isColorSwitching (card_type card)) eqn:Esw;
    destruct (AllCards_beq (card_type card) (Plain skip)) eqn:Eskip;
    destruct (length (last3CardPlayOrColorChanges (cache s)) =? 3)%nat eqn:El3;
    cbv [negb]; repeat first [step | rewrite bind_assoc];
    cbn [hands cache set_index set_turnStep set_stackedPlusTwos set_pile set_last3
         set_events set_hands set_cache pile deck last3CardPlayOrColorChanges
         stackedPlusTwos turnStep index players ended seed events];
    rewrite ?El3;
    cbn [hands cache set_index set_turnStep set_stackedPlusTwos set_pile set_last3
         set_events set_hands set_cache pile deck last3CardPlayOrColorChanges
         stackedPlusTwos turnStep index players ended seed events];
    (erewrite (bind_normal _ _ (handOf by_));
     [| apply handOf_run;
        cbn [hands cache set_index set_turnStep set_stackedPlusTwos set_pile set_last3
             set_events set_hands set_cache];
        rewrite hands_get_update, Hhand; reflexivity]);
    rewrite Hleft;
    (eexists; split; [reflexivity |]; split; [exact Hn |]; split; [reflexivity |];
     cbn [hands cache set_index set_turnStep set_stackedPlusTwos set_pile set_last3
          set_events set_hands set_cache pile deck last3CardPlayOrColorChanges
          stackedPlusTwos turnStep index players ended seed events];
     conjuncts; try reflexivity; exact Hlog).
Qed.

Lemma ordinary_play_is_applied_then_throws_witness :
  exists s',
    processNewEvent (card_played Example.p1 (ColoredCard seven blue)) Example.opening
    = (Abrupt (ThrowString "unreachable"), s')
    /\ pile (cache s') = pile (cache Example.opening) ++ [ColoredCard seven blue]
    /\ players s' = players Example.opening.
Proof.
  destruct (ordinary_play_is_applied_then_throws Example.opening Example.p1
              (ColoredCard seven blue) (Example.held Example.opening Example.p1))
    as (i & s' & _ & _ & E & _ & Hpile & _ & _ & _ & _ & _ & Hplayers & _).
  - vm_compute. reflexivity.
  - vm_compute. reflexivity.
  - vm_compute. tauto.
  - vm_compute. lia.
  - exists s'. split; [exact E |]. split; [exact Hpile | exact Hplayers].
Defined.

(* ------------------------------------------------------------------------- *)
(** * Invariants, in general *)

Lemma keeps_refl : forall I s, keeps I s s.
Proof. intros I s H. exact H. Qed.

Lemma keeps_trans : forall I a b c, keeps I a b -> keeps I b c -> keeps I a c.
Proof. unfold keeps. auto. Qed.

Section Preserved.
Variable I : GameState -> Prop.
Hypothesis I_join : forall ids, frames (keeps I) (join ids).
Hypothesis I_leave : forall ids, frames (keeps I) (leave ids).
Hypothesis I_processNewEvent : forall e, frames (keeps I) (processNewEvent e).
Hypothesis I_cut : forall s n, shorthandMode s = false ->
  I s -> I (set_events (firstn (S n) (events s)) s).
Hypothesis I_fresh : forall entropy seed_,
  I (snd (newGame entropy (mkProps false None (Some (SeedNumber seed_)) false))).

Lemma preserved_replay : forall evs, frames (keeps I) (replay evs).
Proof.
  intros evs. induction evs as [| [e | i] r IH]; simpl.
  - apply (frames_ret _ (keeps_refl I)).
  - destruct (String.eqb (event_by e) ENGINE_ID); [exact IH |].
    apply (frames_bind _ (keeps_trans I)); [apply I_processNewEvent | intros _; exact IH].
  - destruct i; try exact IH.
    + apply (frames_ret _ (keeps_refl I)).
    + apply (frames_bind _ (keeps_trans I)); [apply I_join | intros _; exact IH].
    + apply (frames_bind _ (keeps_trans I)); [apply I_leave | intros _; exact IH].
Qed.

Lemma preserved_jump : forall entropy i, frames (keeps I) (jumpToEventIndex entropy i).
Proof.
  intros entropy i s H. unfold jumpToEventIndex. rewrite gets_bind.
  destruct (shorthandMode s) eqn:Hmode; [exact H |].
  rewrite gets_bind.
  destruct ((i <? - Z.of_nat (length (events s))) || (i >=? Z.of_nat (length (events s))))
    eqn:Hrange; [exact H |].
  cbv zeta. rewrite gets_bind, modify_bind, !gets_bind.
  apply orb_false_elim in Hrange. destruct Hrange as [Hlo Hhi].
  apply Z.ltb_ge in Hlo. rewrite Z.geb_leb in Hhi. apply Z.leb_gt in Hhi.
  set (k := if i <? 0 then Z.of_nat (length (events s)) + i else i).
  assert (Hk : Z.to_nat (k + 1) = S (Z.to_nat k)).
  { subst k. destruct (i <? 0) eqn:Hi; [apply Z.ltb_lt in Hi | apply Z.ltb_ge in Hi]; lia. }
  rewrite Hk.
  set (cut := set_events _ s).
  assert (Hcut : I cut) by (apply I_cut; assumption).
  pose proof (I_fresh entropy (initialSeed cut)) as Hnew.
  destruct (newGame entropy _) as [[[] | t] cg]; [| exact Hcut].
  simpl in Hnew.
  pose proof (preserved_replay (events cut) cg Hnew) as Hre.
  destruct (replay (events cut) cg) as [[[] | t] cg']; [| exact Hcut].
  exact Hre.
Qed.

Lemma preserved_perform : forall c s, I s -> I (snd (perform c s)).
Proof.
  intros c s H. destruct c as [ids | ids | e | entropy i]; simpl; rewrite answering_state.
  - apply I_join, H.
  - apply I_leave, H.
  - apply I_processNewEvent, H.
  - apply preserved_jump, H.
Qed.

Lemma preserved_after : forall calls s, I s -> I (after calls s).
Proof.
  intros calls. unfold after.
  induction calls as [| c r IH]; intros s H; simpl; [exact H |].
  apply IH, preserved_perform, H.
Qed.

Lemma preserved_reachable :
  (forall entropy props, I (snd (newGame entropy props))) ->
  forall s, reachable s -> I s.
Proof.
  intros Hnew s H. induction H as [entropy props | s c H IH].
  - apply Hnew.
  - apply preserved_perform, IH.
Qed.
End Preserved.

(* ------------------------------------------------------------------------- *)
(** * The shape of the log *)

Lemma logShapeKept_refl : forall s, logShapeKept s s.
Proof. intros s. split; [reflexivity | split; auto]. Qed.

Lemma logShapeKept_trans : forall a b c,
  logShapeKept a b -> logShapeKept b c -> logShapeKept a c.
Proof.
  unfold logShapeKept. intros a b c (H1 & H2 & H3) (H4 & H5 & H6).
  split; [congruence | split; auto].
Qed.

Lemma forallb_headed : forall (l : list LoggedEvent),
  forallb isGameEvent l = true -> l <> [] -> exists e r, l = game_event e :: r.
Proof.
  intros [| [e | i] r] H Hne; simpl in H; [contradiction | | discriminate].
  exists e, r. reflexivity.
Qed.

Lemma shape_recordEvent : forall e, frames logShapeKept (recordEvent e).
Proof.
  intros e s. unfold recordEvent. rewrite gets_bind.
  destruct (shorthandMode s) eqn:Hs.
  - destruct e as [g | i]; [| apply logShapeKept_refl].
    rewrite modify_bind. unfold modify. simpl snd.
    assert (Hm : forall evs, shorthandMode (set_events evs s) = shorthandMode s)
      by reflexivity.
    assert (Hb : boundedLog s ->
                 boundedLog
                   (set_events
                      (events (if (length (events s) =? MAX_SHORTHAND_EVENTS)%nat
                               then set_events (tl (events s)) s else s)
                       ++ [game_event g])
                      (if (length (events s) =? MAX_SHORTHAND_EVENTS)%nat
                       then set_events (tl (events s)) s else s))).
    { intros H _. destruct (H Hs) as [Hlen Hall].
      destruct (length (events s) =? MAX_SHORTHAND_EVENTS)%nat eqn:E; simpl.
      - apply Nat.eqb_eq in E. rewrite length_app, forallb_app. simpl.
        destruct (events s) as [| x r]; [discriminate |]. simpl in *.
        apply andb_prop in Hall. destruct Hall as [_ Hall]. rewrite Hall.
        split; [unfold MAX_SHORTHAND_EVENTS in *; lia | reflexivity].
      - apply Nat.eqb_neq in E. rewrite length_app, forallb_app, Hall. simpl.
        split; [lia | reflexivity]. }
    split; [destruct (length (events s) =? MAX_SHORTHAND_EVENTS)%nat; reflexivity |].
    split; [exact Hb |].
    intros [H Hhead]. split; [exact (Hb H) |].
    destruct (H Hs) as [Hlen Hall].
    destruct (length (events s) =? MAX_SHORTHAND_EVENTS)%nat eqn:E; simpl.
    + apply Nat.eqb_eq in E.
      destruct (events s) as [| x [| y r]]; try discriminate.
      simpl in Hall. apply andb_prop in Hall. destruct Hall as [_ Hall].
      destruct y as [ey | iy]; [| discriminate]. simpl. eauto.
    + destruct Hhead as (e0 & r & ->). simpl. eauto.
  - unfold modify. simpl snd. split; [reflexivity |]. split.
    + intros _ H. simpl in H. congruence.
    + intros [_ (e0 & r & Hev)]. split.
      * intros H. simpl in H. congruence.
      * simpl. rewrite Hev. simpl. eauto.
Qed.

Ltac shape_assignment :=
  intros;
  repeat match goal with
         | |- context [if ?b then _ else _] => destruct b
         end;
  first [ apply logShapeKept_refl
        | solve [unfold logShapeKept, headedLog, boundedLog; simpl; auto] ].

Create HintDb shape.

Ltac shape_auto :=
  repeat first
    [ assumption
    | solve [auto with shape]
    | frames_step logShapeKept_refl logShapeKept_trans
    | apply frames_modify; solve [shape_assignment]
    | progress cbv beta zeta ].

Lemma shape_of_readonly : forall s s' : GameState, s = s' -> logShapeKept s s'.
Proof. intros s s' <-. apply logShapeKept_refl. Qed.

Lemma shape_random : frames logShapeKept random.
Proof. unfold random. shape_auto. Qed.
#[export] Hint Resolve shape_recordEvent shape_random : shape.

Lemma shape_shuffle_loop : forall i, frames logShapeKept (shuffle_loop i).
Proof. intros i. induction i as [| i IH]; simpl; shape_auto. Qed.
#[export] Hint Resolve shape_shuffle_loop : shape.

Lemma shape_shuffleDeck : frames logShapeKept shuffleDeck.
Proof. unfold shuffleDeck. shape_auto. Qed.
#[export] Hint Resolve shape_shuffleDeck : shape.

Lemma shape_deckTopCard : frames logShapeKept deckTopCard.
Proof. unfold deckTopCard, recycleIfEmpty, getPile. shape_auto. Qed.
#[export] Hint Resolve shape_deckTopCard : shape.

Lemma shape_handOf : forall p, frames logShapeKept (handOf p).
Proof. intros p. apply (frames_weaken _ _ _ _ shape_of_readonly), readonly_handOf. Qed.

Lemma shape_checkEvent : forall e b, frames logShapeKept (checkEvent e b).
Proof. intros e b. apply (frames_weaken _ _ _ _ shape_of_readonly), readonly_checkEvent. Qed.

Lemma shape_lastTwo : forall i, frames logShapeKept (lastTwoNonInfoEvents i).
Proof.
  intros i. apply (frames_weaken _ _ _ _ shape_of_readonly), readonly_lastTwoNonInfoEvents.
Qed.

Lemma shape_someValid : forall cards, frames logShapeKept (someValidAtBluffSite cards).
Proof.
  intros cards.
  apply (frames_weaken _ _ _ _ shape_of_readonly), readonly_someValidAtBluffSite.
Qed.

#[export] Hint Resolve shape_handOf shape_checkEvent shape_lastTwo shape_someValid : shape.

Lemma shape_processNewEvent : forall e, frames logShapeKept (processNewEvent e).
Proof.
  intros e.
  unfold processNewEvent, processCardPlayed, processDraw, processBluffCalled,
    pushLast3, advanceTurn, pushToHand.
  shape_auto.
Qed.

Lemma shape_join : forall ids, frames logShapeKept (join ids).
Proof. intros ids. unfold join. shape_auto. Qed.

Lemma shape_leave : forall ids, frames logShapeKept (leave ids).
Proof. intros ids. unfold leave. shape_auto. Qed.

Lemma bounded_init : forall s, boundedLog (snd (init s)).
Proof.
  intros s. destruct (init_opening s) as (top & s' & E & _ & _ & _ & Hev & _).
  rewrite E. simpl. intros _. rewrite Hev. simpl.
  split; [unfold MAX_SHORTHAND_EVENTS; lia | reflexivity].
Qed.

Lemma headed_init : forall s, headedLog (snd (init s)).
Proof.
  intros s. split; [apply bounded_init |].
  destruct (init_opening s) as (top & s' & E & _ & _ & _ & Hev & _).
  rewrite E. simpl. rewrite Hev. eauto.
Qed.

Lemma bounded_of_shape : forall (A : Type) (m : Method A),
  frames logShapeKept m -> frames (keeps boundedLog) m.
Proof. intros A m H s. destruct (H s) as (_ & Hb & _). exact Hb. Qed.

Lemma headed_of_shape : forall (A : Type) (m : Method A),
  frames logShapeKept m -> frames (keeps headedLog) m.
Proof. intros A m H s. destruct (H s) as (_ & _ & Hh). exact Hh. Qed.

Lemma bounded_reachable : forall s, reachable s -> boundedLog s.
Proof.
  apply preserved_reachable.
  - intros ids. apply bounded_of_shape, shape_join.
  - intros ids. apply bounded_of_shape, shape_leave.
  - intros e. apply bounded_of_shape, shape_processNewEvent.
  - intros s n Hfull _ H. simpl in H. congruence.
  - intros entropy seed_. apply bounded_init.
  - intros entropy props. unfold newGame.
    destruct (negb (prop_noInit props)); [apply bounded_init |].
    intros _. simpl. split; [unfold MAX_SHORTHAND_EVENTS; lia | reflexivity].
Qed.

Lemma headed_played : forall entropy props calls,
  prop_noInit props = false -> headedLog (played entropy props calls).
Proof.
  intros entropy props calls Hinit. unfold played. apply preserved_after.
  - intros ids. apply headed_of_shape, shape_join.
  - intros ids. apply headed_of_shape, shape_leave.
  - intros e. apply headed_of_shape, shape_processNewEvent.
  - intros s n Hfull [_ (e & r & Hev)]. split.
    + intros H. simpl in H. congruence.
    + simpl. rewrite Hev. simpl. eauto.
  - intros entropy' seed_. apply headed_init.
  - unfold newGame. rewrite Hinit. apply headed_init.
Qed.


Lemma reachable_after : forall calls s, reachable s -> reachable (after calls s).
Proof.
  intros calls. unfold after.
  induction calls as [| c r IH]; intros s H; simpl; [exact H |].
  apply IH, reachable_call, H.
Qed.

Lemma reachable_played : forall entropy props calls, reachable (played entropy props calls).
Proof. intros entropy props calls. apply reachable_after, reachable_new. Qed.


(* ------------------------------------------------------------------------- *)
(** * Playing the last card *)

Lemma recordEvent_cache : forall e s, cache (snd (recordEvent e s)) = cache s.
Proof. intros e s. apply recordEvent_fields. Qed.

Lemma recordEvent_index : forall e s, index (snd (recordEvent e s)) = index s.
Proof. intros e s. apply recordEvent_fields. Qed.

Lemma recordEvent_players : forall e s, players (snd (recordEvent e s)) = players s.
Proof. intros e s. apply recordEvent_fields. Qed.

Lemma recordEvent_mode : forall e s,
  shorthandMode (snd (recordEvent e s)) = shorthandMode s.
Proof. intros e s. apply (piles_recordEvent e s). Qed.

(** The fields of a state that a chain of assignments and log entries has
    produced. *)
Ltac fields :=
  repeat first
    [ progress cbn [hands cache set_index set_turnStep set_stackedPlusTwos set_pile
                    set_last3 set_events set_hands set_cache set_ended set_deck
                    pile deck last3CardPlayOrColorChanges stackedPlusTwos turnStep
                    index players ended seed events shorthandMode]
    | rewrite recordEvent_cache
    | rewrite recordEvent_index
    | rewrite recordEvent_players
    | rewrite recordEvent_mode ].

(** A log entry, as an assignment to an otherwise unchanged state. *)
Lemma recordEvent_facts : forall e s,
  exists s',
    recordEvent e s = (Normal tt, s')
    /\ cache s' = cache s
    /\ index s' = index s
    /\ players s' = players s
    /\ shorthandMode s' = shorthandMode s
    /\ (shorthandMode s = false -> events s' = events s ++ [e]).
Proof.
  intros e s. exists (snd (recordEvent e s)).
  split; [apply recordEvent_run |].
  split; [apply recordEvent_cache |]. split; [apply recordEvent_index |].
  split; [apply recordEvent_players |]. split; [apply recordEvent_mode |].
  apply recordEvent_log.
Qed.

(** The statements of the [card_played] branch up to the test on the hand
    that is left: the card leaves the hand and goes on the pile. *)
Lemma play_prefix : forall (B : Type) (by_ : PlayerId) (card : Card) (i : nat)
    (rest : Method B) (s : GameState),
  exists s3,
    (modify (fun s =>
       set_hands (hands_update by_ (JS.remove_at i) (hands (cache s))) s) ;;;
     recordEvent (game_event (card_played by_ card)) ;;;
     pushLast3 (PlayedCard card) ;;;
     modify (fun s => set_pile (pile (cache s) ++ [card]) s) ;;;
     (if AllCards_beq (card_type card) (Plain plus_two)
      then modify (fun s => set_stackedPlusTwos (S (stackedPlusTwos (cache s))) s)
      else ret tt) ;;;
     (if AllCards_beq (card_type card) (Plain reverse)
      then modify (fun s => set_turnStep (flip_step (turnStep (cache s))) s)
      else ret tt) ;;;
     (if negb (isColorSwitching (card_type card)) then
        playerCount <- gets (fun s => length (players s)) ;;
        advanceTurn
          (if AllCards_beq (card_type card) (Plain skip) then 2
           else if AllCards_beq (card_type card) (Plain reverse)
                then (if (playerCount =? 2)%nat then 2 else 1)
                else 1)
      else ret tt) ;;;
     rest) s = rest s3
    /\ hands (cache s3) = hands_update by_ (JS.remove_at i) (hands (cache s))
    /\ pile (cache s3) = pile (cache s) ++ [card]
    /\ deck (cache s3) = deck (cache s)
    /\ ended (cache s3) = ended (cache s)
    /\ players s3 = players s
    /\ shorthandMode s3 = shorthandMode s
    /\ (shorthandMode s = false ->
        events s3 = events s ++ [game_event (card_played by_ card)]).
Proof.
  intros B by_ card i rest s.
  step. step. rewrite recordEvent_shape.
  assert (Hlog : shorthandMode s = false ->
                 events (snd (recordEvent (game_event (card_played by_ card))
                        (set_hands (hands_update by_ (JS.remove_at i) (hands (cache s))) s)))
                 = events s ++ [game_event (card_played by_ card)]).
  { intros Hfull. rewrite recordEvent_log by exact Hfull. reflexivity. }
  revert Hlog.
  generalize (events (snd (recordEvent (game_event (card_played by_ card))
                (set_hands (hands_update by_ (JS.remove_at i) (hands (cache s))) s)))).
  intros evs Hlog.
  unfold pushLast3, advanceTurn. rewrite bind_assoc.
  destruct (AllCards_beq (card_type card) (Plain plus_two));
    destruct (AllCards_beq (card_type card) (Plain reverse));
    destruct (isColorSwitching (card_type card));
    destruct (length (last3CardPlayOrColorChanges (cache s)) =? 3)%nat eqn:El3;
    cbv [negb]; repeat first [step | rewrite bind_assoc];
    cbn [hands cache set_index set_turnStep set_stackedPlusTwos set_pile set_last3
         set_events set_hands set_cache pile deck last3CardPlayOrColorChanges
         stackedPlusTwos turnStep index players ended seed events];
    rewrite ?El3;
    (eexists; split; [reflexivity |];
     cbn [hands cache set_index set_turnStep set_stackedPlusTwos set_pile set_last3
          set_events set_hands set_cache pile deck last3CardPlayOrColorChanges
          stackedPlusTwos turnStep index players ended seed events shorthandMode];
     conjuncts; try reflexivity; exact Hlog).
Qed.

(** X12 (a winning play, [processNewEvent] on [card_played]): when
    [checkEvent] accepts the play of the only card of a hand, the card goes
    on the discard pile, the hand stays in [hands] as an empty array, and
    the method returns: [player_win_game_end] with the loser, setting
    [ended], if exactly one player is left with cards, and [player_win]
    otherwise, leaving [ended] as it was.  A full log gains the move,
    [player_won], and [game_ended] in the first case. *)
Theorem last_card_wins :
  forall (s : GameState) (by_ : PlayerId) (card : Card),
  fst (checkEvent (card_played by_ card) false s) = Normal None ->
  hands_get by_ (hands (cache s)) = Some [card] ->
  exists s',
    processNewEvent (card_played by_ card) s
    = (Normal (match playersWithCards (hands (cache s')) with
               | [loser] => player_win_game_end by_ loser
               | _ => player_win by_
               end), s')
    /\ hands (cache s') = hands_update by_ (JS.remove_at 0) (hands (cache s))
    /\ hands_get by_ (hands (cache s')) = Some []
    /\ ended (cache s')
       = (match playersWithCards (hands (cache s')) with
          | [_] => true
          | _ => ended (cache s)
          end)
    /\ pile (cache s') = pile (cache s) ++ [card]
    /\ deck (cache s') = deck (cache s)
    /\ players s' = players s
    /\ (shorthandMode s = false ->
        events s'
        = events s
          ++ [game_event (card_played by_ card); game_info (player_won by_)]
          ++ match playersWithCards (hands (cache s')) with
             | [loser] => [game_info (game_ended loser)]
             | _ => []
             end).
Proof.
  intros s by_ card Hvalid Hhand.
  destruct (checkEvent_valid_inv _ _ Hvalid) as (Hcheck & _).
  assert (Hi : JS.findIndex (fun c => sameCard c card) [card] = Some 0%nat).
  { simpl. rewrite sameCard_refl. reflexivity. }
  unfold processNewEvent.
  change (negb (playerId_safeParse (event_by (card_played by_ card)))) with false.
  cbv iota. step. simpl event_by.
  rewrite (bind_normal _ _ _ _ _ _ _ (handOf_run _ _ _ Hhand)).
  rewrite (bind_normal _ _ _ _ _ _ _ Hcheck).
  unfold processCardPlayed. rewrite Hi.
  match goal with
  | |- context [bind (handOf by_) ?K] =>
      destruct (play_prefix _ by_ card 0 (bind (handOf by_) K) s)
        as (s3 & E & Hh3 & Hp3 & Hd3 & He3 & Hpl3 & Hm3 & Hl3)
  end.
  rewrite E. clear E.
  assert (Hleft : hands_get by_ (hands (cache s3)) = Some []).
  { rewrite Hh3, hands_get_update, Hhand. reflexivity. }
  rewrite (bind_normal _ _ _ _ _ _ _ (handOf_run _ _ _ Hleft)).
  change (length (@nil Card) =? 0)%nat with true. cbv iota.
  destruct (recordEvent_facts (game_info (player_won by_)) s3)
    as (s4 & E4 & Hc4 & _ & Hpl4 & Hm4 & Hl4).
  rewrite (bind_normal _ _ _ _ _ _ _ E4). step.
  fold (playersWithCards (hands (cache s4))).
  assert (Hlog4 : shorthandMode s = false ->
                  events s4 = events s ++ [game_event (card_played by_ card);
                                           game_info (player_won by_)]).
  { intros Hfull. rewrite Hl4 by congruence. rewrite Hl3 by exact Hfull.
    rewrite <- app_assoc. reflexivity. }
  destruct (playersWithCards (hands (cache s4))) as [| loser [| other others]] eqn:Ewith.
  - exists s4. rewrite Hc4, Hh3 in *. rewrite Ewith.
    split; [reflexivity |]. split; [reflexivity |].
    split; [rewrite hands_get_update, Hhand; reflexivity |].
    split; [exact He3 |]. split; [exact Hp3 |]. split; [exact Hd3 |].
    split; [congruence |].
    intros Hfull. rewrite (Hlog4 Hfull). reflexivity.
  - destruct (recordEvent_facts (game_info (game_ended loser)) s4)
      as (s5 & E5 & Hc5 & _ & Hpl5 & Hm5 & Hl5).
    rewrite (bind_normal _ _ _ _ _ _ _ E5). step. unfold ret.
    exists (set_ended true s5).
    assert (Hh5 : hands (cache (set_ended true s5))
                  = hands_update by_ (JS.remove_at 0) (hands (cache s))).
    { simpl. rewrite Hc5, Hc4. exact Hh3. }
    rewrite Hh5. rewrite Hc4, Hh3 in Ewith. rewrite Ewith.
    split; [reflexivity |]. split; [reflexivity |].
    split; [rewrite hands_get_update, Hhand; reflexivity |].
    split; [reflexivity |].
    split; [simpl; rewrite Hc5, Hc4; exact Hp3 |].
    split; [simpl; rewrite Hc5, Hc4; exact Hd3 |].
    split; [simpl; congruence |].
    intros Hfull. simpl. rewrite Hl5 by congruence. rewrite (Hlog4 Hfull).
    rewrite <- app_assoc. reflexivity.
  - exists s4. rewrite Hc4, Hh3 in *. rewrite Ewith.
    split; [reflexivity |]. split; [reflexivity |].
    split; [rewrite hands_get_update, Hhand; reflexivity |].
    split; [exact He3 |]. split; [exact Hp3 |]. split; [exact Hd3 |].
    split; [congruence |].
    intros Hfull. rewrite (Hlog4 Hfull). reflexivity.
Qed.

Lemma last_card_wins_witness :
  exists s',
    processNewEvent (card_played Example.p1 (ColoredCard seven blue)) oneCardLeft
    = (Normal (player_win_game_end Example.p1 Example.p2), s')
    /\ ended (cache s') = true
    /\ hands_get Example.p1 (hands (cache s')) = Some [].
Proof.
  destruct (last_card_wins oneCardLeft Example.p1 (ColoredCard seven blue))
    as (s' & E & Hh & Hget & He & _).
  - vm_compute. reflexivity.
  - vm_compute. reflexivity.
  - exists s'. rewrite Hh in E, He.
    assert (Hw : playersWithCards
                   (hands_update Example.p1 (JS.remove_at 0) (hands (cache oneCardLeft)))
                 = [Example.p2]) by (vm_compute; reflexivity).
    rewrite Hw in E, He.
    split; [exact E |]. split; [exact He | exact Hget].
Defined.

(* ------------------------------------------------------------------------- *)
(** * A game that has ended *)

Lemma find_playersWithCards : forall (h : Hands),
  match find (fun kv => negb (length (snd kv) =? 0)%nat) h with
  | Some (loser, _) => hd_error (playersWithCards h) = Some loser
  | None => playersWithCards h = []
  end.
Proof.
  intros h. unfold playersWithCards. induction h as [| [k v] r IH]; simpl; [reflexivity |].
  destruct (negb (length v =? 0)%nat); simpl; [reflexivity | exact IH].
Qed.

Lemma hasEnded_ended : forall s,
  ended (cache s) = true ->
  hasEnded s
  = match playersWithCards (hands (cache s)) with
    | loser :: _ => (Normal (Some loser), s)
    | [] => (Abrupt TypeError, s)
    end.
Proof.
  intros s H. unfold hasEnded. step. rewrite H. step.
  pose proof (find_playersWithCards (hands (cache s))) as Hf.
  destruct (find _ (hands (cache s))) as [[loser v] |].
  - destruct (playersWithCards (hands (cache s))); [discriminate |].
    simpl in Hf. inversion Hf. reflexivity.
  - rewrite Hf. reflexivity.
Qed.

Lemma earlyChecks_cases : forall e s,
  earlyChecks e false s = (Normal None, s)
  \/ earlyChecks e false s = (Normal (Some (TooFewPlayers (length (players s)))), s)
  \/ earlyChecks e false s = (Normal (Some (NotPlayersTurn (event_by e))), s).
Proof.
  intros e s. unfold earlyChecks. cbn [negb]. rewrite gets_bind.
  destruct (length (players s) <? MIN_PLAYERS)%nat; [right; left; reflexivity |].
  unfold bind. rewrite activePlayer_run.
  destruct (fst (activePlayer s)) as [active | t] eqn:Ea.
  - destruct (negb (option_beq String.eqb (Some (event_by e)) active));
      [right; right; reflexivity | left; reflexivity].
  - unfold activePlayer, gets in Ea. simpl in Ea. discriminate.
Qed.

(** What [checkEvent] answers once the game has ended. *)
Lemma checkEvent_ended : forall s e,
  ended (cache s) = true ->
  (exists err, checkEvent e false s = (Normal (Some err), s)
     /\ (err = TooFewPlayers (length (players s))
         \/ err = NotPlayersTurn (event_by e)
         \/ exists loser, err = GameEnded loser
                          /\ hd_error (playersWithCards (hands (cache s))) = Some loser))
  \/ (checkEvent e false s = (Abrupt TypeError, s)
      /\ playersWithCards (hands (cache s)) = []).
Proof.
  intros s e H. unfold checkEvent.
  destruct (earlyChecks_cases e s) as [E | [E | E]];
    rewrite (bind_normal _ _ _ _ _ _ _ E).
  - unfold bind. rewrite (hasEnded_ended s H).
    destruct (playersWithCards (hands (cache s))) as [| loser others].
    + right. split; reflexivity.
    + left. eexists. split; [reflexivity |]. right. right.
      exists loser. split; reflexivity.
  - left. eexists. split; [reflexivity |]. left. reflexivity.
  - left. eexists. split; [reflexivity |]. right. left. reflexivity.
Qed.

(** Once the game has ended [processNewEvent] throws and changes nothing. *)
Lemma processNewEvent_ended : forall s event,
  ended (cache s) = true ->
  exists t,
    processNewEvent event s = (Abrupt t, s)
    /\ (t = ThrowUnocab (PlayerNotInGame (event_by event))
        \/ t = ThrowUnocab (TooFewPlayers (length (players s)))
        \/ t = ThrowUnocab (NotPlayersTurn (event_by event))
        \/ (exists loser,
              t = ThrowUnocab (GameEnded loser)
              /\ hd_error (playersWithCards (hands (cache s))) = Some loser)
        \/ (t = TypeError /\ playersWithCards (hands (cache s)) = [])).
Proof.
  intros s event H. unfold processNewEvent.
  change (negb (playerId_safeParse (event_by event))) with false.
  cbv iota. step.
  destruct (hands_get (event_by event) (hands (cache s))) as [hand |] eqn:Hh.
  - rewrite (bind_normal _ _ _ _ _ _ _ (handOf_run _ _ _ Hh)).
    destruct (checkEvent_ended s event H) as [(err & E & Herr) | [E Hnone]].
    + rewrite (bind_normal _ _ _ _ _ _ _ E). eexists. split; [reflexivity |].
      destruct Herr as [-> | [-> | (loser & -> & Hl)]]; eauto 10.
    + rewrite (bind_abrupt _ _ _ _ _ _ _ E). eexists. split; [reflexivity |].
      right. right. right. right. split; [reflexivity | exact Hnone].
  - unfold handOf. rewrite bind_assoc. step. rewrite Hh.
    eexists. split; [reflexivity |]. left. reflexivity.
Qed.

(** X13 (a finished game): once [ended] is set, [processNewEvent] applies no
    move: it throws and leaves the state exactly as it was.  The exception
    is the [UnocabError] of the first check that fails: player-not-in-game,
    too-few-players, not-players-turn, or game-ended with, as loser, the
    first player in the order of [Object.entries] who holds cards (a
    [TypeError] if nobody holds any).  Accordingly [validEvents], when it
    returns, returns no event. *)
Theorem finished_game_accepts_no_move : forall (s : GameState) (event : GameEvent),
  ended (cache s) = true ->
  (exists t,
     processNewEvent event s = (Abrupt t, s)
     /\ (t = ThrowUnocab (PlayerNotInGame (event_by event))
         \/ t = ThrowUnocab (TooFewPlayers (length (players s)))
         \/ t = ThrowUnocab (NotPlayersTurn (event_by event))
         \/ (exists loser,
               t = ThrowUnocab (GameEnded loser)
               /\ hd_error (playersWithCards (hands (cache s))) = Some loser)
         \/ (t = TypeError /\ playersWithCards (hands (cache s)) = [])))
  /\ (forall playerId evs, fst (validEvents playerId s) = Normal evs -> evs = []).
Proof.
  intros s event H. split; [apply processNewEvent_ended, H |].
  intros playerId evs Hv.
  destruct (validEvents_are_accepted_aux s playerId evs Hv) as (hand & Hevs).
  subst evs. clear Hv.
  induction (candidates playerId hand) as [| e r IH]; [reflexivity |].
  simpl. replace (accepted s e) with false; [exact IH |].
  unfold accepted.
  destruct (checkEvent_ended s e H) as [(err & E & _) | [E _]]; rewrite E; reflexivity.
Qed.

Lemma finished_game_accepts_no_move_witness :
  ended (cache gameOver) = true
  /\ exists t, processNewEvent (draw Example.p2) gameOver = (Abrupt t, gameOver).
Proof.
  assert (H : ended (cache gameOver) = true) by (vm_compute; reflexivity).
  split; [exact H |].
  destruct (proj1 (finished_game_accepts_no_move gameOver (draw Example.p2) H))
    as (t & E & _).
  exists t. exact E.
Defined.


(* ------------------------------------------------------------------------- *)
(** * An ended game has a loser *)

Lemma endedKept_refl : forall s, endedKept s s.
Proof. reflexivity. Qed.

Lemma endedKept_trans : forall a b c, endedKept a b -> endedKept b c -> endedKept a c.
Proof. unfold endedKept. intros. congruence. Qed.

Lemma cacheKept_refl : forall s, cacheKept s s.
Proof. reflexivity. Qed.

Lemma cacheKept_trans : forall a b c, cacheKept a b -> cacheKept b c -> cacheKept a c.
Proof. unfold cacheKept. intros. congruence. Qed.

Lemma ended_of_piles : forall s s', sameButPiles s s' -> endedKept s s'.
Proof. intros s s' H. unfold endedKept. apply H. Qed.

Lemma ended_of_readonly : forall s s' : GameState, s = s' -> endedKept s s'.
Proof. intros s s' <-. reflexivity. Qed.

Create HintDb ended.

Ltac ended_auto :=
  repeat first
    [ assumption
    | solve [auto with ended]
    | frames_step endedKept_refl endedKept_trans
    | apply frames_modify; intros; solve
        [ repeat match goal with
                 | |- context [if ?b then _ else _] => destruct b
                 end; reflexivity ]
    | progress cbv beta zeta ].

Lemma ended_recordEvent : forall e, frames endedKept (recordEvent e).
Proof. intros e. apply (frames_weaken _ _ _ _ ended_of_piles), piles_recordEvent. Qed.

Lemma ended_draws : forall n, frames endedKept (replicateM n deckTopCard).
Proof. intros n. apply (frames_weaken _ _ _ _ ended_of_piles), piles_draw. Qed.

Lemma ended_handOf : forall p, frames endedKept (handOf p).
Proof. intros p. apply (frames_weaken _ _ _ _ ended_of_readonly), readonly_handOf. Qed.

Lemma ended_lastTwo : forall i, frames endedKept (lastTwoNonInfoEvents i).
Proof.
  intros i. apply (frames_weaken _ _ _ _ ended_of_readonly), readonly_lastTwoNonInfoEvents.
Qed.

Lemma ended_someValid : forall cards, frames endedKept (someValidAtBluffSite cards).
Proof.
  intros cards.
  apply (frames_weaken _ _ _ _ ended_of_readonly), readonly_someValidAtBluffSite.
Qed.

#[export] Hint Resolve ended_recordEvent ended_draws ended_handOf ended_lastTwo
  ended_someValid : ended.

Lemma ended_processDraw : forall e by_, frames endedKept (processDraw e by_).
Proof. intros e by_. unfold processDraw, pushToHand, advanceTurn. ended_auto. Qed.

Lemma ended_processBluffCalled : forall e by_, frames endedKept (processBluffCalled e by_).
Proof. intros e by_. unfold processBluffCalled, pushToHand, advanceTurn. ended_auto. Qed.

Lemma In_hands_set : forall k v h, In (k, v) (hands_set k v h).
Proof.
  intros k v h. induction h as [| [k' v'] r IH]; simpl; [left; reflexivity |].
  destruct (String.eqb k k'); [left; reflexivity |].
  destruct (JS.enumeratedBefore k k'); [left; reflexivity | right; exact IH].
Qed.

Lemma playersWithCards_In : forall k v (h : Hands),
  In (k, v) h -> v <> [] -> playersWithCards h <> [].
Proof.
  intros k v h Hin Hv. unfold playersWithCards.
  induction h as [| [k' v'] r IH]; [contradiction |]. simpl.
  destruct Hin as [Heq | Hin].
  - inversion Heq; subst. destruct v; [contradiction | simpl; discriminate].
  - destruct (negb (length v' =? 0)%nat); simpl; [discriminate | exact (IH Hin)].
Qed.

Lemma loser_admit : forall playerId s,
  keeps endedHasLoser s
    (snd ((hand <- replicateM 7 deckTopCard ;;
           modify (fun s => set_players (players s ++ [playerId]) s) ;;;
           modify (fun s => set_hands (hands_set playerId hand (hands (cache s))) s) ;;;
           recordEvent (game_info (player_joined playerId))) s)).
Proof.
  intros playerId s H.
  destruct (replicateM 7 deckTopCard s) as [[hand | t] s1] eqn:E.
  - rewrite (bind_normal _ _ _ _ _ _ _ E). repeat step.
    pose proof (replicateM_length _ _ _ _ _ _ E) as Hlen.
    intros _. rewrite recordEvent_cache. simpl.
    apply (playersWithCards_In playerId hand); [apply In_hands_set |].
    destruct hand; [discriminate | discriminate].
  - rewrite (bind_abrupt _ _ _ _ _ _ _ E). simpl.
    pose proof (piles_draw 7 s) as Hp. rewrite E in Hp. simpl in Hp.
    destruct Hp as (_ & _ & _ & _ & _ & Hh & _ & _ & He & _).
    unfold endedHasLoser. rewrite Hh, He. exact H.
Qed.

Lemma loser_join : forall ids, frames (keeps endedHasLoser) (join ids).
Proof.
  intros ids. unfold join.
  apply (frames_bind _ (keeps_trans _)); [apply (frames_gets _ (keeps_refl _)) |].
  intros n. destruct (n =? MAX_PLAYERS)%nat; [apply (frames_throw _ (keeps_refl _)) |].
  apply (frames_bind _ (keeps_trans _)).
  { intros s H.
    assert (E : snd (forEach ids (fun id =>
                  if String.eqb id ENGINE_ID || negb (playerId_safeParse id)
                  then throwUnocab (InvalidId id) else ret tt) s) = s).
    { symmetry.
      assert (Hr : readonly (forEach ids (fun id =>
                     if String.eqb id ENGINE_ID || negb (playerId_safeParse id)
                     then throwUnocab (InvalidId id) else ret tt))) by readonly_auto.
      apply Hr. }
    rewrite E. exact H. }
  intros _. apply (frames_forEach _ (keeps_refl _) (keeps_trans _)).
  intros playerId s. apply loser_admit.
Qed.

Lemma cache_leave : forall ids, frames cacheKept (leave ids).
Proof.
  intros ids. unfold leave.
  repeat first
    [ frames_step cacheKept_refl cacheKept_trans
    | apply frames_modify; intros; reflexivity
    | intros s0; unfold cacheKept; apply recordEvent_cache
    | progress cbv beta zeta ].
Qed.

Lemma loser_leave : forall ids, frames (keeps endedHasLoser) (leave ids).
Proof.
  intros ids s H. unfold endedHasLoser. rewrite (cache_leave ids s). exact H.
Qed.

Lemma loser_processCardPlayed : forall by_ card hand s,
  hands_get by_ (hands (cache s)) = Some hand ->
  ended (cache s) = false ->
  endedHasLoser (snd (processCardPlayed (card_played by_ card) by_ card hand s)).
Proof.
  intros by_ card hand s Hhand Hend. unfold processCardPlayed.
  destruct (JS.findIndex (fun c => sameCard c card) hand) as [i |].
  2:{ simpl. intros H. congruence. }
  match goal with
  | |- context [bind (handOf by_) ?K] =>
      destruct (play_prefix _ by_ card i (bind (handOf by_) K) s)
        as (s3 & E & Hh3 & _ & _ & He3 & _)
  end.
  rewrite E. clear E.
  assert (Hleft : hands_get by_ (hands (cache s3)) = Some (JS.remove_at i hand)).
  { rewrite Hh3, hands_get_update, Hhand. reflexivity. }
  rewrite (bind_normal _ _ _ _ _ _ _ (handOf_run _ _ _ Hleft)).
  destruct (length (JS.remove_at i hand) =? 0)%nat.
  2:{ simpl. intros H. congruence. }
  destruct (recordEvent_facts (game_info (player_won by_)) s3) as (s4 & E4 & Hc4 & _).
  rewrite (bind_normal _ _ _ _ _ _ _ E4). step.
  fold (playersWithCards (hands (cache s4))).
  destruct (playersWithCards (hands (cache s4))) as [| loser [| other others]] eqn:Ewith.
  - simpl. intros H. rewrite Hc4 in H. congruence.
  - destruct (recordEvent_facts (game_info (game_ended loser)) s4) as (s5 & E5 & Hc5 & _).
    rewrite (bind_normal _ _ _ _ _ _ _ E5). step. simpl.
    intros _. simpl. rewrite Hc5, Ewith. discriminate.
  - simpl. intros H. rewrite Hc4 in H. congruence.
Qed.

Lemma loser_processNewEvent : forall e, frames (keeps endedHasLoser) (processNewEvent e).
Proof.
  intros e s H.
  destruct (ended (cache s)) eqn:Hend.
  { destruct (processNewEvent_ended s e Hend) as (t & E & _). rewrite E. exact H. }
  assert (Hkept : forall s', endedKept s s' -> endedHasLoser s').
  { intros s' Hk He. unfold endedKept in Hk. congruence. }
  unfold processNewEvent.
  change (negb (playerId_safeParse (event_by e))) with false. cbv iota. step.
  destruct (handOf (event_by e) s) as [[hand | t] s1] eqn:E1.
  2:{ rewrite (bind_abrupt _ _ _ _ _ _ _ E1). simpl.
      apply handOf_inv in E1. destruct E1 as [-> _]. exact H. }
  rewrite (bind_normal _ _ _ _ _ _ _ E1).
  apply handOf_inv in E1. destruct E1 as [-> Hhand].
  destruct (checkEvent e false s) as [[err | t] s1] eqn:E2.
  2:{ rewrite (bind_abrupt _ _ _ _ _ _ _ E2). simpl.
      rewrite (readonly_run _ _ _ _ _ (readonly_checkEvent _ _) E2). exact H. }
  rewrite (bind_normal _ _ _ _ _ _ _ E2).
  rewrite (readonly_run _ _ _ _ _ (readonly_checkEvent _ _) E2).
  destruct err as [err |]; [exact H |].
  destruct e as [by_ card | by_ | by_ color | by_ | by_].
  - apply loser_processCardPlayed; assumption.
  - apply Hkept, ended_processBluffCalled.
  - apply Hkept.
    assert (Hf : frames endedKept
                   (pushLast3 (ChosenColor color) ;;;
                    recordEvent (game_event (choose_color by_ color)) ;;;
                    advanceTurn 1 ;;; ret (color_changed color)))
      by (unfold pushLast3, advanceTurn; ended_auto).
    apply Hf.
  - apply Hkept, ended_processDraw.
  - apply Hkept.
    assert (Hf : frames endedKept
                   (recordEvent (game_event (pass by_)) ;;;
                    advanceTurn 1 ;;; ret turn_passed))
      by (unfold advanceTurn; ended_auto).
    apply Hf.
Qed.

Lemma loser_init : forall s, ended (cache s) = false -> endedHasLoser (snd (init s)).
Proof.
  intros s H. destruct (init_opening s)
    as (top & s' & E & _ & _ & _ & _ & _ & _ & _ & _ & _ & _ & He & _).
  rewrite E. simpl. intros H'. congruence.
Qed.

Lemma loser_reachable : forall s, reachable s -> endedHasLoser s.
Proof.
  apply preserved_reachable.
  - apply loser_join.
  - apply loser_leave.
  - apply loser_processNewEvent.
  - intros s n _ H. exact H.
  - intros entropy seed_. apply loser_init. reflexivity.
  - intros entropy props. unfold newGame.
    destruct (negb (prop_noInit props)); [apply loser_init; reflexivity |].
    intros H. discriminate.
Qed.

(* ------------------------------------------------------------------------- *)
(** * The validator always answers *)

Lemma checkKind_returns : forall e s lastEvent,
  fst (activePlayer s) = Normal (Some (event_by e)) ->
  exists r, checkKind e false lastEvent s = (Normal r, s).
Proof.
  intros e s lastEvent Hactive.
  destruct (activePlayer_has_hand s _ Hactive) as [hand Hhand].
  destruct e as [by_ card | by_ | by_ color | by_ | by_]; simpl in Hhand; simpl checkKind.
  - assert (Hexp : forall b : bool,
              exists r,
                (if b then ret (Some (MustNotPlayLastCardColorChanging (card_played by_ card)))
                 else
                   expected <- expectedCard false ;;
                   let '(expectedType, expectedColor) := expected in
                   if negb (option_beq AllCards_beq expectedType (Some (card_type card)))
                      && match card_color card with
                         | Some c => negb (option_beq CardColor_beq (Some c) expectedColor)
                         | None => false
                         end
                   then ret (Some (MustPlayExpectedCard expectedType expectedColor card))
                   else ret None) s = (Normal r, s)).
    { intros [|]; [eexists; reflexivity |].
      rewrite (bind_normal _ _ _ _ _ _ _ (expectedCard_run s)). cbv beta iota.
      match goal with
      | |- context [if ?b then _ else _] => destruct b
      end; eexists; reflexivity. }
    destruct (isColorSwitching (card_type card)).
    + rewrite bind_assoc, (bind_normal _ _ _ _ _ _ _ (handOf_run _ _ _ Hhand)).
      step. apply Hexp.
    + step. first [apply Hexp | apply (Hexp false)].
  - rewrite (bind_normal _ _ _ _ _ _ _ (lastTwoNonInfoEvents_run s)).
    destruct (firstn 2 (recentMoves s)) as [| a [| b l]]; try (eexists; reflexivity).
    destruct (negb (playedType (Switching plus_four) b)); eexists; reflexivity.
  - match goal with
    | |- context [if ?b then _ else _] => destruct b
    end; eexists; reflexivity.
  - destruct (drawnBy by_ lastEvent); eexists; reflexivity.
  - destruct (negb (drawnBy by_ lastEvent)); eexists; reflexivity.
Qed.

Lemma hasEnded_returns : forall s,
  endedHasLoser s -> exists r, hasEnded s = (Normal r, s).
Proof.
  intros s H. destruct (ended (cache s)) eqn:He.
  - rewrite (hasEnded_ended s He). specialize (H He).
    destruct (playersWithCards (hands (cache s))); [contradiction | eexists; reflexivity].
  - rewrite (hasEnded_run s He). eexists. reflexivity.
Qed.

Lemma headed_recentMoves : forall s,
  headedLog s -> exists lastEvent rest, firstn 2 (recentMoves s) = lastEvent :: rest.
Proof.
  intros s [_ (e & r & Hev)]. unfold recentMoves. rewrite Hev. simpl.
  destruct (rev (non_info r) ++ [e]) as [| x l] eqn:E.
  - destruct (rev (non_info r)); discriminate.
  - exists x, (firstn 1 l). reflexivity.
Qed.

Lemma checkEvent_returns : forall s e,
  headedLog s -> endedHasLoser s ->
  exists answer, checkEvent e false s = (Normal answer, s).
Proof.
  intros s e Hhead Hloser. unfold checkEvent.
  destruct (earlyChecks_cases e s) as [E | [E | E]];
    rewrite (bind_normal _ _ _ _ _ _ _ E); try (eexists; reflexivity).
  destruct (earlyChecks_inv _ _ _ _ E) as [_ Hearly].
  destruct (Hearly eq_refl) as [_ Hactive].
  destruct (hasEnded_returns s Hloser) as [[loser |] Eend];
    rewrite (bind_normal _ _ _ _ _ _ _ Eend); [eexists; reflexivity |].
  rewrite (bind_normal _ _ _ _ _ _ _ (lastTwoNonInfoEvents_run s)).
  destruct (headed_recentMoves s Hhead) as (lastEvent & rest & ->).
  repeat match goal with
         | |- context [if ?b then _ else _] =>
             destruct b; try (eexists; reflexivity)
         end.
  apply checkKind_returns, Hactive.
Qed.

(** X14 (no stray exception from the validator): in every state of a game
    that the constructor has initialised, after any sequence of calls
    (joins, leaves, moves and jumps, returning or throwing), [hasEnded]
    returns and [checkEvent(event)] returns for every event, an error or
    [undefined], without touching the state: the log always holds a domain
    move to look back at, an ended game always has a player with cards, and
    the active player always has a hand. *)
Theorem checkEvent_always_answers :
  forall (entropy : Z) (props : Props) (calls : list Call) (event : GameEvent),
  prop_noInit props = false ->
  (exists answer,
     checkEvent event false (played entropy props calls)
     = (Normal answer, played entropy props calls))
  /\ (exists r,
        hasEnded (played entropy props calls)
        = (Normal r, played entropy props calls))
  /\ (exists lastEvent rest,
        lastTwoNonInfoEvents None (played entropy props calls)
        = (Normal (lastEvent :: rest), played entropy props calls)).
Proof.
  intros entropy props calls event Hinit.
  pose proof (headed_played entropy props calls Hinit) as Hhead.
  pose proof (loser_reachable _ (reachable_played entropy props calls)) as Hloser.
  split; [apply checkEvent_returns; assumption |].
  split; [apply hasEnded_returns; assumption |].
  destruct (headed_recentMoves _ Hhead) as (lastEvent & rest & E).
  exists lastEvent, rest. rewrite lastTwoNonInfoEvents_run, E. reflexivity.
Qed.

Lemma checkEvent_always_answers_witness :
  exists answer,
    checkEvent (pass Example.p1) false
      (played 0 (mkProps false None (Some (SeedNumber 4087001194)) false)
              [CallJoin [Example.p1; Example.p2]])
    = (Normal answer,
       played 0 (mkProps false None (Some (SeedNumber 4087001194)) false)
              [CallJoin [Example.p1; Example.p2]]).
Proof.
  apply (checkEvent_always_answers 0
           (mkProps false None (Some (SeedNumber 4087001194)) false)
           [CallJoin [Example.p1; Example.p2]] (pass Example.p1)).
  reflexivity.
Defined.

(* ------------------------------------------------------------------------- *)
(** * No card is created *)

Lemma cardsPermuted_refl : forall s, cardsPermuted s s.
Proof. intros s. unfold cardsPermuted. reflexivity. Qed.

Lemma cardsPermuted_trans : forall a b c,
  cardsPermuted a b -> cardsPermuted b c -> cardsPermuted a c.
Proof. unfold cardsPermuted. intros a b c H1 H2. etransitivity; eassumption. Qed.

Lemma noNewCards_refl : forall s, noNewCards s s.
Proof. intros s. exists []. rewrite app_nil_r. reflexivity. Qed.

Lemma noNewCards_trans : forall a b c, noNewCards a b -> noNewCards b c -> noNewCards a c.
Proof.
  unfold noNewCards. intros a b c [l1 H1] [l2 H2]. exists (l2 ++ l1).
  rewrite app_assoc. etransitivity; [| exact H1].
  apply Permutation_app_tail. exact H2.
Qed.

Lemma noNewCards_of_permuted : forall s s', cardsPermuted s s' -> noNewCards s s'.
Proof. intros s s' H. exists []. rewrite app_nil_r. exact H. Qed.

Lemma cards_of_cache : forall s s' : GameState, cache s' = cache s -> cardsPermuted s s'.
Proof. intros s s' H. unfold cardsPermuted, cardsInPlay. rewrite H. reflexivity. Qed.

Lemma cards_of_readonly : forall s s' : GameState, s = s' -> cardsPermuted s s'.
Proof. intros s s' <-. apply cardsPermuted_refl. Qed.

Lemma cards_recordEvent : forall e, frames cardsPermuted (recordEvent e).
Proof. intros e s. apply cards_of_cache, recordEvent_cache. Qed.

Lemma cards_shuffleDeck : frames cardsPermuted shuffleDeck.
Proof.
  intros s. destruct (perm_shuffleDeck s) as [Hd Hp].
  destruct (piles_shuffleDeck s) as (_ & _ & _ & _ & _ & Hh & _).
  unfold cardsPermuted, cardsInPlay. rewrite Hp, Hh.
  apply Permutation_app_tail. exact Hd.
Qed.

(** Permutations of the cards, by counting. *)
Ltac uncons :=
  repeat match goal with
         | |- context [?a :: ?l] =>
             lazymatch l with
             | [] => fail
             | _ => change (a :: l) with ([a] ++ l)
             end
         | H : context [?a :: ?l] |- _ =>
             lazymatch l with
             | [] => fail
             | _ => change (a :: l) with ([a] ++ l) in H
             end
         end.

Ltac perm_count :=
  uncons;
  apply (Permutation_count_occ Card_eq_dec);
  let x := fresh "x" in
  intros x;
  repeat match goal with
         | H : Permutation ?a ?b |- _ =>
             let H' := fresh "H" in
             pose proof (proj1 (Permutation_count_occ Card_eq_dec a b) H x) as H';
             clear H
         end;
  repeat rewrite count_occ_app in *;
  change (count_occ Card_eq_dec [] x) with 0%nat in *;
  lia.

(** One card taken from the deck: the state and the card together hold what
    the state held. *)
Lemma draw_one_cards : forall s,
  match deckTopCard s with
  | (Normal c, s1) =>
      Permutation (cardsInPlay s1 ++ [c]) (cardsInPlay s)
      /\ hands (cache s1) = hands (cache s)
  | (Abrupt t, s1) => t = ThrowUnocab DeckPileExhausted /\ s1 = s
  end.
Proof.
  intros s. destruct (deck (cache s)) as [| top rest] eqn:D.
  - destruct (pile (cache s)) as [| p ps] eqn:P.
    + rewrite deckTopCard_exhausted by (unfold supply; rewrite D, P; reflexivity).
      split; reflexivity.
    + destruct (recycle_empty_deck_cards s p ps D P) as (s1 & E & Hperm & Hpile & Hf & _).
      unfold deckTopCard. rewrite (bind_normal _ _ _ _ _ _ _ E).
      destruct (deck (cache s1)) as [| top rest] eqn:D1.
      { apply Permutation_nil in Hperm. discriminate. }
      rewrite (pop_deck s1 top rest D1).
      destruct Hf as (_ & _ & _ & _ & _ & Hh & _).
      split; [| simpl; exact Hh].
      unfold cardsInPlay. simpl. rewrite Hpile, Hh, D, P.
      generalize (handCards (hands (cache s))). intros hs.
      clear - Hperm. perm_count.
  - unfold deckTopCard.
    rewrite (bind_normal _ _ _ _ _ _ _ (recycle_full_deck s ltac:(congruence))).
    rewrite (pop_deck s top rest D).
    split; [| reflexivity].
    unfold cardsInPlay. simpl. rewrite D.
    generalize (pile (cache s)) (handCards (hands (cache s))). intros ps hs.
    perm_count.
Qed.

Lemma draws_cards : forall n s,
  match replicateM n deckTopCard s with
  | (Normal cards, s1) =>
      Permutation (cardsInPlay s1 ++ cards) (cardsInPlay s)
      /\ hands (cache s1) = hands (cache s)
  | (Abrupt t, s1) => t = ThrowUnocab DeckPileExhausted /\ noNewCards s s1
  end.
Proof.
  intros n. induction n as [| n IH]; intros s; simpl.
  - split; [rewrite app_nil_r; reflexivity | reflexivity].
  - pose proof (draw_one_cards s) as H1.
    destruct (deckTopCard s) as [[c | t] s1] eqn:E1.
    + rewrite (bind_normal _ _ _ _ _ _ _ E1). destruct H1 as [Hp1 Hh1].
      specialize (IH s1).
      destruct (replicateM n deckTopCard s1) as [[cards | t] s2] eqn:E2.
      * rewrite (bind_normal _ _ _ _ _ _ _ E2). unfold ret.
        destruct IH as [Hp2 Hh2]. split; [| congruence].
        revert Hp1 Hp2. generalize (cardsInPlay s) (cardsInPlay s1) (cardsInPlay s2).
        intros a b d Hp1 Hp2. perm_count.
      * rewrite (bind_abrupt _ _ _ _ _ _ _ E2). destruct IH as [-> Hn].
        split; [reflexivity |].
        eapply noNewCards_trans; [| exact Hn]. exists [c]. exact Hp1.
    + rewrite (bind_abrupt _ _ _ _ _ _ _ E1). destruct H1 as [-> ->].
      split; [reflexivity | apply noNewCards_refl].
Qed.

Lemma handCards_push : forall k cards (h : Hands) hand,
  hands_get k h = Some hand ->
  Permutation (handCards (hands_update k (fun x => x ++ cards) h)) (handCards h ++ cards).
Proof.
  intros k cards h. unfold handCards.
  induction h as [| [k' v] r IH]; intros hand H; simpl in *; [discriminate |].
  destruct (String.eqb k k').
  - simpl. generalize (concat (map snd r)). intros rest. perm_count.
  - simpl. specialize (IH hand H). revert IH.
    generalize (concat (map snd (hands_update k (fun x => x ++ cards) r)))
               (concat (map snd r)).
    intros a b IH. perm_count.
Qed.

Lemma handCards_remove : forall k i c (h : Hands) hand,
  hands_get k h = Some hand ->
  nth_error hand i = Some c ->
  Permutation (c :: handCards (hands_update k (JS.remove_at i) h)) (handCards h).
Proof.
  intros k i c h. unfold handCards.
  induction h as [| [k' v] r IH]; intros hand H Hn; simpl in *; [discriminate |].
  destruct (String.eqb k k').
  - inversion H; subst. simpl.
    pose proof (remove_at_Permutation _ _ _ _ Hn) as Hr. revert Hr.
    generalize (JS.remove_at i hand) (concat (map snd r)). intros a b Hr. perm_count.
  - simpl. specialize (IH hand H Hn). revert IH.
    generalize (concat (map snd (hands_update k (JS.remove_at i) r)))
               (concat (map snd r)).
    intros a b IH. perm_count.
Qed.

Lemma handCards_set : forall k v (h : Hands),
  exists lost, Permutation (handCards (hands_set k v h) ++ lost) (v ++ handCards h).
Proof.
  intros k v h. unfold handCards.
  induction h as [| [k' v'] r IH]; simpl.
  - exists []. rewrite !app_nil_r. reflexivity.
  - destruct (String.eqb k k').
    + exists v'. simpl. generalize (concat (map snd r)). intros rest. perm_count.
    + destruct (JS.enumeratedBefore k k').
      * exists []. simpl. rewrite app_nil_r. reflexivity.
      * destruct IH as [lost IH]. exists lost. simpl. revert IH.
        generalize (concat (map snd (hands_set k v r))) (concat (map snd r)).
        intros a b IH. perm_count.
Qed.

(** The cards drawn are put in a hand. *)
Lemma give_cards : forall k cards s0 s1 hand,
  Permutation (cardsInPlay s1 ++ cards) (cardsInPlay s0) ->
  hands_get k (hands (cache s1)) = Some hand ->
  cardsPermuted s0
    (set_hands (hands_update k (fun h => h ++ cards) (hands (cache s1))) s1).
Proof.
  intros k cards s0 s1 hand Hp Hh. unfold cardsPermuted, cardsInPlay in *. simpl.
  pose proof (handCards_push k cards _ _ Hh) as Hpush. revert Hp Hpush.
  generalize (handCards (hands_update k (fun h => h ++ cards) (hands (cache s1))))
             (handCards (hands (cache s1)))
             (deck (cache s1)) (pile (cache s1))
             (deck (cache s0) ++ pile (cache s0) ++ handCards (hands (cache s0))).
  intros a b d p z Hp Hpush. perm_count.
Qed.

Create HintDb cards_kept.

Ltac cards_auto :=
  repeat first
    [ assumption
    | solve [auto with cards_kept]
    | frames_step cardsPermuted_refl cardsPermuted_trans
    | apply frames_modify; intros; solve
        [ repeat match goal with
                 | |- context [if ?b then _ else _] => destruct b
                 end;
          unfold cardsPermuted, cardsInPlay; simpl; reflexivity ]
    | progress cbv beta zeta ].

Lemma cards_handOf : forall p, frames cardsPermuted (handOf p).
Proof. intros p. apply (frames_weaken _ _ _ _ cards_of_readonly), readonly_handOf. Qed.

#[export] Hint Resolve cards_recordEvent cards_handOf : cards_kept.

(** The frame of the statements that remain to be run in [E]. *)
Ltac rest_keeps_cards E H :=
  match type of E with
  | ?m ?st = _ =>
      assert (H : frames cardsPermuted m)
        by (unfold pushLast3, advanceTurn; cards_auto);
      specialize (H st); rewrite E in H; simpl in H
  end.

Lemma conserves_unchanged : forall (A : Type) (m : Method A) s,
  snd (m s) = s -> conserves m s.
Proof.
  intros A m s H. unfold conserves. rewrite H.
  split; [apply noNewCards_refl | intros _; apply cardsPermuted_refl].
Qed.

Lemma conserves_permuted : forall (A : Type) (m : Method A) s,
  cardsPermuted s (snd (m s)) -> conserves m s.
Proof.
  intros A m s H. split; [apply noNewCards_of_permuted, H | intros _; exact H].
Qed.

Lemma cards_processDraw : forall e by_ s hand,
  hands_get by_ (hands (cache s)) = Some hand -> conserves (processDraw e by_) s.
Proof.
  intros e by_ s hand Hhand. unfold conserves.
  destruct (processDraw e by_ s) as [r s'] eqn:E. simpl.
  unfold processDraw in E.
  rewrite (bind_normal _ _ _ _ _ _ _ (lastTwoNonInfoEvents_run s)) in E.
  destruct (firstn 2 (recentMoves s)) as [| lastEvent rest].
  { inversion E; subst. split; [apply noNewCards_refl | intros _; apply cardsPermuted_refl]. }
  rewrite gets_bind in E.
  pose proof (draws_cards (toDraw (lastEvent :: rest) s) s) as Hd.
  destruct (replicateM (toDraw (lastEvent :: rest) s) deckTopCard s)
    as [[cards | t] s1] eqn:Ed.
  - rewrite (bind_normal _ _ _ _ _ _ _ Ed) in E. destruct Hd as [Hp Hh].
    assert (Hhand1 : hands_get by_ (hands (cache s1)) = Some hand) by congruence.
    rewrite (bind_normal _ _ _ _ _ _ _ (handOf_run _ _ _ Hhand1)) in E.
    unfold pushToHand in E. rewrite modify_bind in E.
    rest_keeps_cards E Hrest.
    pose proof (give_cards by_ cards s s1 hand Hp Hhand1) as Hgive.
    pose proof (cardsPermuted_trans _ _ _ Hgive Hrest) as Hall.
    split; [apply noNewCards_of_permuted, Hall | intros _; exact Hall].
  - rewrite (bind_abrupt _ _ _ _ _ _ _ Ed) in E. inversion E; subst.
    destruct Hd as [-> Hn]. split; [exact Hn |]. intros Hc. contradiction Hc. reflexivity.
Qed.

Lemma cards_processBluffCalled : forall e by_ s hand,
  hands_get by_ (hands (cache s)) = Some hand -> conserves (processBluffCalled e by_) s.
Proof.
  intros e by_ s hand Hhand. unfold conserves.
  destruct (processBluffCalled e by_ s) as [r s'] eqn:E. simpl.
  unfold processBluffCalled in E.
  rewrite (bind_normal _ _ _ _ _ _ _ (lastTwoNonInfoEvents_run s)) in E.
  destruct (nth_error (firstn 2 (recentMoves s)) 1) as [secondLastEvent |].
  2:{ inversion E; subst. split; [apply noNewCards_refl | intros _; apply cardsPermuted_refl]. }
  cbv zeta in E.
  destruct (handOf (event_by secondLastEvent) s) as [[accusedHand | t] s0] eqn:Ea.
  2:{ rewrite (bind_abrupt _ _ _ _ _ _ _ Ea) in E. inversion E; subst.
      apply handOf_inv in Ea. destruct Ea as [-> _].
      split; [apply noNewCards_refl | intros _; apply cardsPermuted_refl]. }
  rewrite (bind_normal _ _ _ _ _ _ _ Ea) in E.
  apply handOf_inv in Ea. destruct Ea as [-> Haccused].
  rewrite recordEvent_bind in E. unfold advanceTurn in E. rewrite modify_bind in E.
  set (site := set_index _ _) in E.
  assert (Hcache : cache site = cache s) by (subst site; simpl; apply recordEvent_cache).
  assert (Hsite : cardsInPlay site = cardsInPlay s)
    by (unfold cardsInPlay; rewrite Hcache; reflexivity).
  clearbody site.
  destruct (someValidAtBluffSite
              (filter (fun c => negb (isColorSwitching (card_type c))) accusedHand) site)
    as [[bluffed | t] s0] eqn:Es.
  2:{ rewrite (bind_abrupt _ _ _ _ _ _ _ Es) in E. inversion E; subst.
      rewrite (readonly_run _ _ _ _ _ (readonly_someValidAtBluffSite _) Es).
      assert (Hp : cardsPermuted s site) by (unfold cardsPermuted; rewrite Hsite; reflexivity).
      split; [apply noNewCards_of_permuted, Hp | intros _; exact Hp]. }
  rewrite (bind_normal _ _ _ _ _ _ _ Es) in E.
  rewrite (readonly_run _ _ _ _ _ (readonly_someValidAtBluffSite _) Es) in E.
  clear Es s0.
  destruct bluffed.
  - pose proof (draws_cards 4 site) as Hd.
    destruct (replicateM 4 deckTopCard site) as [[cards | t] s1] eqn:Ed.
    + rewrite (bind_normal _ _ _ _ _ _ _ Ed) in E. destruct Hd as [Hp Hh].
      rewrite Hsite in Hp.
      assert (Hhand1 : hands_get (event_by secondLastEvent) (hands (cache s1))
                       = Some accusedHand) by congruence.
      unfold pushToHand in E. rewrite modify_bind in E.
      rest_keeps_cards E Hrest.
      pose proof (give_cards _ cards s s1 accusedHand Hp Hhand1) as Hgive.
      pose proof (cardsPermuted_trans _ _ _ Hgive Hrest) as Hall.
      split; [apply noNewCards_of_permuted, Hall | intros _; exact Hall].
    + rewrite (bind_abrupt _ _ _ _ _ _ _ Ed) in E. inversion E; subst.
      destruct Hd as [-> Hn]. split.
      * unfold noNewCards in *. rewrite <- Hsite. exact Hn.
      * intros Hc. contradiction Hc. reflexivity.
  - assert (Hhand0 : hands_get by_ (hands (cache site)) = Some hand) by congruence.
    rewrite (bind_normal _ _ _ _ _ _ _ (handOf_run _ _ _ Hhand0)) in E.
    pose proof (draws_cards 6 site) as Hd.
    destruct (replicateM 6 deckTopCard site) as [[cards | t] s1] eqn:Ed.
    + rewrite (bind_normal _ _ _ _ _ _ _ Ed) in E. destruct Hd as [Hp Hh].
      rewrite Hsite in Hp.
      assert (Hhand1 : hands_get by_ (hands (cache s1)) = Some hand) by congruence.
      unfold pushToHand in E. rewrite modify_bind in E.
      rest_keeps_cards E Hrest.
      pose proof (give_cards _ cards s s1 hand Hp Hhand1) as Hgive.
      pose proof (cardsPermuted_trans _ _ _ Hgive Hrest) as Hall.
      split; [apply noNewCards_of_permuted, Hall | intros _; exact Hall].
    + rewrite (bind_abrupt _ _ _ _ _ _ _ Ed) in E. inversion E; subst.
      destruct Hd as [-> Hn]. split.
      * unfold noNewCards in *. rewrite <- Hsite. exact Hn.
      * intros Hc. contradiction Hc. reflexivity.
Qed.

Lemma findIndex_nth : forall (A : Type) (p : A -> bool) (l : list A) (i : nat),
  JS.findIndex p l = Some i -> exists x, nth_error l i = Some x /\ p x = true.
Proof.
  intros A p l. induction l as [| a r IH]; intros i H; simpl in H; [discriminate |].
  destruct (p a) eqn:Ha.
  - inversion H; subst. exists a. split; [reflexivity | exact Ha].
  - destruct (JS.findIndex p r) as [j |]; [| discriminate].
    inversion H; subst. apply (IH j). reflexivity.
Qed.

Lemma cards_processCardPlayed : forall by_ card hand s,
  hands_get by_ (hands (cache s)) = Some hand ->
  cardsPermuted s (snd (processCardPlayed (card_played by_ card) by_ card hand s)).
Proof.
  intros by_ card hand s Hhand.
  destruct (processCardPlayed (card_played by_ card) by_ card hand s) as [r s'] eqn:E.
  simpl. unfold processCardPlayed in E.
  destruct (JS.findIndex (fun c => sameCard c card) hand) as [i |] eqn:Hi.
  2:{ inversion E; subst. apply cardsPermuted_refl. }
  destruct (findIndex_nth _ _ _ _ Hi) as (c & Hn & Hc).
  apply sameCard_eq in Hc. subst c.
  match type of E with
  | context [bind (handOf by_) ?K] =>
      destruct (play_prefix _ by_ card i (bind (handOf by_) K) s)
        as (s3 & E3 & Hh3 & Hp3 & Hd3 & _)
  end.
  rewrite E3 in E. clear E3.
  rest_keeps_cards E Hrest.
  eapply cardsPermuted_trans; [| exact Hrest].
  unfold cardsPermuted, cardsInPlay. rewrite Hh3, Hp3, Hd3.
  pose proof (handCards_remove by_ i card _ _ Hhand Hn) as Hrem. revert Hrem.
  generalize (handCards (hands_update by_ (JS.remove_at i) (hands (cache s))))
             (handCards (hands (cache s))) (deck (cache s)) (pile (cache s)).
  intros a b d p Hrem. perm_count.
Qed.

Lemma cards_processNewEvent : forall e s, conserves (processNewEvent e) s.
Proof.
  intros e s.
  destruct (processNewEvent e s) as [r s'] eqn:E.
  pose proof E as E0. unfold processNewEvent in E.
  change (negb (playerId_safeParse (event_by e))) with false in E. cbv iota in E.
  rewrite ret_bind in E.
  destruct (handOf (event_by e) s) as [[hand | t] s1] eqn:E1.
  2:{ rewrite (bind_abrupt _ _ _ _ _ _ _ E1) in E. inversion E; subst.
      apply handOf_inv in E1. destruct E1 as [-> _].
      apply conserves_unchanged. rewrite E0. reflexivity. }
  rewrite (bind_normal _ _ _ _ _ _ _ E1) in E.
  apply handOf_inv in E1. destruct E1 as [-> Hhand].
  destruct (checkEvent e false s) as [[err | t] s1] eqn:E2.
  2:{ rewrite (bind_abrupt _ _ _ _ _ _ _ E2) in E. inversion E; subst.
      apply conserves_unchanged. rewrite E0. simpl.
      exact (readonly_run _ _ _ _ _ (readonly_checkEvent _ _) E2). }
  rewrite (bind_normal _ _ _ _ _ _ _ E2) in E.
  rewrite (readonly_run _ _ _ _ _ (readonly_checkEvent _ _) E2) in E. clear E2 s1.
  destruct err as [err |].
  { inversion E; subst. apply conserves_unchanged. rewrite E0. reflexivity. }
  destruct e as [by_ card | by_ | by_ color | by_ | by_]; simpl in Hhand.
  - apply conserves_permuted. rewrite E0. simpl.
    pose proof (cards_processCardPlayed by_ card hand s Hhand) as H.
    rewrite E in H. exact H.
  - pose proof (cards_processBluffCalled (bluff_called by_) by_ s hand Hhand) as H.
    unfold conserves in *. rewrite E in H. rewrite E0. exact H.
  - apply conserves_permuted. rewrite E0. simpl.
    rest_keeps_cards E Hrest. exact Hrest.
  - pose proof (cards_processDraw (draw by_) by_ s hand Hhand) as H.
    unfold conserves in *. rewrite E in H. rewrite E0. exact H.
  - apply conserves_permuted. rewrite E0. simpl.
    rest_keeps_cards E Hrest. exact Hrest.
Qed.

Lemma cards_admit : forall playerId s,
  noNewCards s
    (snd ((hand <- replicateM 7 deckTopCard ;;
           modify (fun s => set_players (players s ++ [playerId]) s) ;;;
           modify (fun s => set_hands (hands_set playerId hand (hands (cache s))) s) ;;;
           recordEvent (game_info (player_joined playerId))) s)).
Proof.
  intros playerId s. pose proof (draws_cards 7 s) as Hd.
  destruct (replicateM 7 deckTopCard s) as [[hand | t] s1] eqn:E.
  - rewrite (bind_normal _ _ _ _ _ _ _ E). repeat step. destruct Hd as [Hp _].
    destruct (handCards_set playerId hand (hands (cache s1))) as [lost Hset].
    exists lost. unfold cardsInPlay in *. rewrite recordEvent_cache. simpl.
    revert Hp Hset.
    generalize (handCards (hands_set playerId hand (hands (cache s1))))
               (handCards (hands (cache s1))) (deck (cache s1)) (pile (cache s1))
               (deck (cache s) ++ pile (cache s) ++ handCards (hands (cache s))).
    intros a b d p z Hp Hset. perm_count.
  - rewrite (bind_abrupt _ _ _ _ _ _ _ E). simpl. apply Hd.
Qed.

Lemma cards_join : forall ids, frames noNewCards (join ids).
Proof.
  intros ids. unfold join.
  apply (frames_bind _ noNewCards_trans); [apply (frames_gets _ noNewCards_refl) |].
  intros n. destruct (n =? MAX_PLAYERS)%nat; [apply (frames_throw _ noNewCards_refl) |].
  apply (frames_bind _ noNewCards_trans).
  { intros s.
    assert (Hr : readonly (forEach ids (fun id =>
                   if String.eqb id ENGINE_ID || negb (playerId_safeParse id)
                   then throwUnocab (InvalidId id) else ret tt))) by readonly_auto.
    rewrite <- (Hr s). apply noNewCards_refl. }
  intros _. apply (frames_forEach _ noNewCards_refl noNewCards_trans).
  intros playerId s. apply cards_admit.
Qed.

Lemma cards_leave : forall ids, frames noNewCards (leave ids).
Proof.
  intros ids s. apply noNewCards_of_permuted, cards_of_cache, cache_leave.
Qed.

Lemma onePack_kept : forall s s', noNewCards s s' -> onePack s -> onePack s'.
Proof.
  unfold noNewCards, onePack. intros s s' [l1 H1] [l2 H2]. exists (l1 ++ l2).
  rewrite app_assoc. etransitivity; [| exact H2].
  apply Permutation_app_tail. exact H1.
Qed.

Lemma onePack_init : forall s, hands (cache s) = [] -> onePack (snd (init s)).
Proof.
  intros s Hh. destruct (init_opening s)
    as (top & s' & E & _ & Hpile & Hperm & _ & _ & [_ Hk] & _).
  rewrite E. cbn [snd]. exists []. unfold cardsInPlay. rewrite Hpile.
  rewrite Hh in Hk. cbn [map] in Hk.
  destruct (hands (cache s')); [| discriminate].
  change (handCards []) with (@nil Card).
  revert Hperm. generalize (deck (cache s')). intros d Hperm. perm_count.
Qed.

Lemma onePack_reachable : forall s, reachable s -> onePack s.
Proof.
  apply preserved_reachable.
  - intros ids s. exact (onePack_kept _ _ (cards_join ids s)).
  - intros ids s. exact (onePack_kept _ _ (cards_leave ids s)).
  - intros e s. exact (onePack_kept _ _ (proj1 (cards_processNewEvent e s))).
  - intros s n _ H. exact H.
  - intros entropy seed_. apply onePack_init. reflexivity.
  - intros entropy props. unfold newGame.
    destruct (negb (prop_noInit props)); [apply onePack_init; reflexivity |].
    exists DECK. reflexivity.
Qed.

(** X15 (a move keeps the cards, [processNewEvent]): whatever the event and
    the state, and whether the call returns or throws, the cards in the
    deck, on the discard pile and in the hands after the call are cards
    that were there before (none is created or duplicated); and unless the
    call throws the supply-exhausted error they are exactly the cards that
    were there before, in other places: a card played goes from the hand
    to the pile, cards drawn go from the deck (or the recycled pile) to a
    hand.  Cards are lost only when the supply runs out in the middle of a
    draw. *)
Theorem moves_keep_the_cards : forall (s : GameState) (event : GameEvent),
  (exists lost,
     Permutation (cardsInPlay (snd (processNewEvent event s)) ++ lost) (cardsInPlay s))
  /\ (fst (processNewEvent event s) <> Abrupt (ThrowUnocab DeckPileExhausted) ->
      Permutation (cardsInPlay (snd (processNewEvent event s))) (cardsInPlay s)).
Proof. intros s event. apply cards_processNewEvent. Qed.

(** X16 (one pack): in every reachable state the cards in the deck, on the
    discard pile and in the hands (including the hands of players who have
    left) are part of one pack of 108 cards: together with some set of lost
    cards they are a permutation of [DECK].  No sequence of joins, leaves,
    moves and jumps creates or duplicates a card; there are never more than
    108 cards, and never more copies of a card than the pack has. *)
Theorem cards_come_from_one_pack : forall (s : GameState),
  reachable s ->
  (exists lost, Permutation (cardsInPlay s ++ lost) DECK)
  /\ (length (cardsInPlay s) <= 108)%nat
  /\ (forall c, (count_occ Card_eq_dec (cardsInPlay s) c
                 <= count_occ Card_eq_dec DECK c)%nat).
Proof.
  intros s H. destruct (onePack_reachable s H) as [lost Hp].
  split; [exists lost; exact Hp |]. split.
  - apply Permutation_length in Hp. rewrite length_app in Hp.
    change (length DECK) with 108%nat in Hp. lia.
  - intros c.
    pose proof (proj1 (Permutation_count_occ Card_eq_dec _ _) Hp c) as Hc.
    rewrite count_occ_app in Hc. lia.
Qed.

Lemma reachable_exhausted : reachable Example.exhausted.
Proof.
  unfold Example.exhausted, Example.opening, Example.seeded.
  apply reachable_after, reachable_after, reachable_new.
Qed.

Lemma cards_come_from_one_pack_witness :
  (length (cardsInPlay Example.exhausted) <= 108)%nat.
Proof.
  exact (proj1 (proj2 (cards_come_from_one_pack Example.exhausted reachable_exhausted))).
Defined.

(* ------------------------------------------------------------------------- *)
(** * A seeded game does not consult the platform's randomness *)

Lemma seedKept_refl : forall s, seedKept s s.
Proof. reflexivity. Qed.

Lemma seedKept_trans : forall a b c, seedKept a b -> seedKept b c -> seedKept a c.
Proof. unfold seedKept. intros. congruence. Qed.

Lemma seed_of_piles : forall s s', sameButPiles s s' -> seedKept s s'.
Proof. intros s s' H. unfold seedKept. apply H. Qed.

Lemma seed_of_readonly : forall s s' : GameState, s = s' -> seedKept s s'.
Proof. intros s s' <-. reflexivity. Qed.

Create HintDb seedkept.

Ltac seed_auto :=
  repeat first
    [ assumption
    | solve [auto with seedkept]
    | frames_step seedKept_refl seedKept_trans
    | apply frames_modify; intros; solve
        [ repeat match goal with
                 | |- context [if ?b then _ else _] => destruct b
                 end; reflexivity ]
    | progress cbv beta zeta ].

Lemma seed_recordEvent : forall e, frames seedKept (recordEvent e).
Proof. intros e. apply (frames_weaken _ _ _ _ seed_of_piles), piles_recordEvent. Qed.

Lemma seed_draws : forall n, frames seedKept (replicateM n deckTopCard).
Proof. intros n. apply (frames_weaken _ _ _ _ seed_of_piles), piles_draw. Qed.

Lemma seed_handOf : forall p, frames seedKept (handOf p).
Proof. intros p. apply (frames_weaken _ _ _ _ seed_of_readonly), readonly_handOf. Qed.

Lemma seed_checkEvent : forall e b, frames seedKept (checkEvent e b).
Proof. intros e b. apply (frames_weaken _ _ _ _ seed_of_readonly), readonly_checkEvent. Qed.

Lemma seed_lastTwo : forall i, frames seedKept (lastTwoNonInfoEvents i).
Proof.
  intros i. apply (frames_weaken _ _ _ _ seed_of_readonly), readonly_lastTwoNonInfoEvents.
Qed.

Lemma seed_someValid : forall cards, frames seedKept (someValidAtBluffSite cards).
Proof.
  intros cards.
  apply (frames_weaken _ _ _ _ seed_of_readonly), readonly_someValidAtBluffSite.
Qed.

#[export] Hint Resolve seed_recordEvent seed_draws seed_handOf seed_checkEvent
  seed_lastTwo seed_someValid : seedkept.

Lemma seed_processNewEvent : forall e, frames seedKept (processNewEvent e).
Proof.
  intros e.
  unfold processNewEvent, processCardPlayed, processDraw, processBluffCalled,
    pushLast3, advanceTurn, pushToHand.
  seed_auto.
Qed.

Lemma seed_join : forall ids, frames seedKept (join ids).
Proof. intros ids. unfold join. seed_auto. Qed.

Lemma seed_leave : forall ids, frames seedKept (leave ids).
Proof. intros ids. unfold leave. seed_auto. Qed.

Lemma seed_replay : forall evs, frames seedKept (replay evs).
Proof.
  intros evs. induction evs as [| [e | i] r IH]; simpl.
  - apply (frames_ret _ seedKept_refl).
  - destruct (String.eqb (event_by e) ENGINE_ID); [exact IH |].
    apply (frames_bind _ seedKept_trans); [apply seed_processNewEvent | intros _; exact IH].
  - destruct i; try exact IH.
    + apply (frames_ret _ seedKept_refl).
    + apply (frames_bind _ seedKept_trans); [apply seed_join | intros _; exact IH].
    + apply (frames_bind _ seedKept_trans); [apply seed_leave | intros _; exact IH].
Qed.

Lemma seed_init : forall s, initialSeed (snd (init s)) = initialSeed s.
Proof.
  intros s. destruct (init_opening s)
    as (top & s' & E & _ & _ & _ & _ & _ & _ & _ & Hs & _).
  rewrite E. exact Hs.
Qed.

(** With a non-zero initial seed the scratch game of a jump is built from
    that seed alone. *)
Lemma jump_entropy : forall e1 e2 i s,
  initialSeed s <> 0 -> jumpToEventIndex e1 i s = jumpToEventIndex e2 i s.
Proof.
  intros e1 e2 i s H. unfold jumpToEventIndex.
  assert (Hnew : forall seed_, seed_ <> 0 ->
            newGame e1 (mkProps false None (Some (SeedNumber seed_)) false)
            = newGame e2 (mkProps false None (Some (SeedNumber seed_)) false)).
  { intros seed_ Hs. unfold newGame, blankState, chooseSeed. cbn [prop_initialSeed].
    replace (seed_ =? 0) with false by (symmetry; apply Z.eqb_neq; exact Hs).
    reflexivity. }
  rewrite !gets_bind. destruct (shorthandMode s); [reflexivity |].
  rewrite !gets_bind.
  destruct ((i <? - Z.of_nat (length (events s))) || (i >=? Z.of_nat (length (events s))));
    [reflexivity |].
  cbv zeta. rewrite !gets_bind, !modify_bind, !gets_bind.
  cbn [initialSeed set_events]. rewrite (Hnew _ H). reflexivity.
Qed.

Lemma seed_jump : forall entropy i s,
  initialSeed s <> 0 -> initialSeed (snd (jumpToEventIndex entropy i s)) = initialSeed s.
Proof.
  intros entropy i s H. unfold jumpToEventIndex.
  rewrite gets_bind. destruct (shorthandMode s); [reflexivity |].
  rewrite gets_bind.
  destruct ((i <? - Z.of_nat (length (events s))) || (i >=? Z.of_nat (length (events s))));
    [reflexivity |].
  cbv zeta. rewrite gets_bind, modify_bind, !gets_bind.
  set (cut := set_events _ s).
  assert (Hcut : initialSeed cut = initialSeed s) by reflexivity.
  assert (Hnew : initialSeed (snd (newGame entropy
                   (mkProps false None (Some (SeedNumber (initialSeed cut))) false)))
                 = initialSeed s).
  { unfold newGame. cbn [negb prop_noInit]. rewrite seed_init.
    unfold blankState, chooseSeed. cbn [prop_initialSeed initialSeed]. rewrite Hcut.
    replace (initialSeed s =? 0) with false by (symmetry; apply Z.eqb_neq; exact H).
    reflexivity. }
  destruct (newGame entropy _) as [[[] | t] cg]; [| exact Hcut].
  simpl in Hnew.
  pose proof (seed_replay (events cut) cg) as Hre. unfold seedKept in Hre.
  destruct (replay (events cut) cg) as [[[] | t] cg']; [| exact Hcut].
  simpl in *. congruence.
Qed.

Lemma perform_entropy : forall e1 e2 c s,
  initialSeed s <> 0 ->
  perform (withEntropy e1 c) s = perform (withEntropy e2 c) s
  /\ initialSeed (snd (perform (withEntropy e1 c) s)) = initialSeed s.
Proof.
  intros e1 e2 c s H. destruct c as [ids | ids | e | entropy i]; simpl.
  - split; [reflexivity |]. rewrite answering_state. apply seed_join.
  - split; [reflexivity |]. rewrite answering_state. apply seed_leave.
  - split; [reflexivity |]. rewrite answering_state. apply seed_processNewEvent.
  - split.
    + unfold answering, bind. rewrite (jump_entropy e1 e2 i s H). reflexivity.
    + rewrite answering_state. apply seed_jump, H.
Qed.

Lemma trace_entropy : forall e1 e2 calls s,
  initialSeed s <> 0 ->
  trace (map (withEntropy e1) calls) s = trace (map (withEntropy e2) calls) s.
Proof.
  intros e1 e2 calls. induction calls as [| c r IH]; intros s H; [reflexivity |].
  simpl. destruct (perform_entropy e1 e2 c s H) as [Hp Hs]. rewrite Hp. f_equal.
  apply IH. rewrite <- Hp, Hs. exact H.
Qed.

(** X17 (the seed determines the game): when the constructor is given an
    initial seed that it uses (a non-zero number, or a non-empty string
    whose hash is not zero), the numbers that [crypto.getRandomValues]
    writes, in the constructor and in every later [jumpToEventIndex], have
    no effect: the new game is the same, and so are the completion and the
    state after each call of any sequence of joins, leaves, moves and
    jumps. *)
Theorem seeded_game_ignores_the_platform :
  forall (props : Props) (seed_ : Z) (e1 e2 : Z) (calls : list Call),
  (forall entropy, chooseSeed entropy (prop_initialSeed props) = seed_) ->
  seed_ <> 0 ->
  newGame e1 props = newGame e2 props
  /\ trace (map (withEntropy e1) calls) (snd (newGame e1 props))
     = trace (map (withEntropy e2) calls) (snd (newGame e2 props)).
Proof.
  intros props seed_ e1 e2 calls Hseed Hne.
  assert (Hnew : newGame e1 props = newGame e2 props).
  { unfold newGame, blankState. rewrite (Hseed e1), (Hseed e2). reflexivity. }
  split; [exact Hnew |]. rewrite <- Hnew. apply trace_entropy.
  unfold newGame. destruct (negb (prop_noInit props)).
  - rewrite seed_init. unfold blankState. cbn [initialSeed]. rewrite Hseed. exact Hne.
  - unfold ret, blankState. cbn [snd initialSeed]. rewrite Hseed. exact Hne.
Qed.

Lemma seeded_game_ignores_the_platform_witness :
  newGame 1 (mkProps false None (Some (SeedNumber 7)) false)
  = newGame 2 (mkProps false None (Some (SeedNumber 7)) false).
Proof.
  apply (seeded_game_ignores_the_platform
           (mkProps false None (Some (SeedNumber 7)) false) 7 1 2 []).
  - intros entropy. reflexivity.
  - discriminate.
Defined.

(* ------------------------------------------------------------------------- *)
(** * The contract of [join] *)

Lemma draw_too_many : forall n s,
  (supply s < n)%nat ->
  fst (replicateM n deckTopCard s) = Abrupt (ThrowUnocab DeckPileExhausted).
Proof.
  intros n. induction n as [| n IH]; intros s H; [lia |]. simpl.
  destruct (Nat.eq_dec (supply s) 0) as [H0 | H0].
  - rewrite (bind_abrupt _ _ _ _ _ _ _ (deckTopCard_exhausted s H0)). reflexivity.
  - destruct (deckTopCard_draws s) as (c & s1 & E & Hs); [lia |].
    rewrite (bind_normal _ _ _ _ _ _ _ E).
    specialize (IH s1 ltac:(lia)).
    destruct (replicateM n deckTopCard s1) as [[cards | t] s2] eqn:E2; simpl in IH;
      [discriminate |].
    rewrite (bind_abrupt _ _ _ _ _ _ _ E2). simpl. exact IH.
Qed.

Lemma validate_ids : forall ids s,
  forEach ids (fun id =>
    if String.eqb id ENGINE_ID || negb (playerId_safeParse id)
    then throwUnocab (InvalidId id) else ret tt) s
  = if existsb (fun id => String.eqb id ENGINE_ID) ids
    then (Abrupt (ThrowUnocab (InvalidId ENGINE_ID)), s)
    else (Normal tt, s).
Proof.
  intros ids s. induction ids as [| id r IH]; [reflexivity |].
  cbn [forEach existsb]. unfold playerId_safeParse. cbn [negb]. rewrite orb_false_r.
  destruct (String.eqb id ENGINE_ID) eqn:E.
  - apply String.eqb_eq in E. subst id. reflexivity.
  - rewrite ret_bind. cbn [orb]. exact IH.
Qed.

Lemma admit_run : forall playerId s,
  (7 <= supply s)%nat ->
  exists s',
    (hand <- replicateM 7 deckTopCard ;;
     modify (fun s => set_players (players s ++ [playerId]) s) ;;;
     modify (fun s => set_hands (hands_set playerId hand (hands (cache s))) s) ;;;
     recordEvent (game_info (player_joined playerId))) s = (Normal tt, s')
    /\ players s' = players s ++ [playerId]
    /\ supply s' = (supply s - 7)%nat
    /\ index s' = index s.
Proof.
  intros playerId s H.
  destruct (draw_many 7 s H) as (hand & s1 & E & _ & Hs).
  pose proof (piles_draw 7 s) as Hp. rewrite E in Hp. simpl in Hp.
  destruct Hp as (_ & Hi & _ & Hpl & _).
  rewrite (bind_normal _ _ _ _ _ _ _ E). repeat step. rewrite recordEvent_run.
  eexists. split; [reflexivity |].
  rewrite recordEvent_players, recordEvent_index. unfold supply in *.
  rewrite recordEvent_cache. simpl. rewrite Hpl, Hi.
  split; [reflexivity |]. split; [exact Hs | reflexivity].
Qed.

Lemma deal_run : forall ids s,
  (7 * length ids <= supply s)%nat ->
  exists s',
    forEach ids (fun playerId =>
      hand <- replicateM 7 deckTopCard ;;
      modify (fun s => set_players (players s ++ [playerId]) s) ;;;
      modify (fun s => set_hands (hands_set playerId hand (hands (cache s))) s) ;;;
      recordEvent (game_info (player_joined playerId))) s = (Normal tt, s')
    /\ players s' = players s ++ ids
    /\ supply s' = (supply s - 7 * length ids)%nat
    /\ index s' = index s.
Proof.
  intros ids. induction ids as [| id r IH]; intros s H; cbn [forEach].
  - exists s. rewrite app_nil_r. simpl. split; [reflexivity |].
    split; [reflexivity |]. split; [lia | reflexivity].
  - cbn [length] in H.
    destruct (admit_run id s ltac:(lia)) as (s1 & E1 & Hp1 & Hs1 & Hi1).
    destruct (IH s1 ltac:(lia)) as (s2 & E2 & Hp2 & Hs2 & Hi2).
    rewrite (bind_normal _ _ _ _ _ _ _ E1). exists s2. split; [exact E2 |].
    rewrite Hp2, Hp1, Hs2, Hs1, Hi2, Hi1, <- app_assoc. cbn [length].
    split; [reflexivity |]. split; [lia | reflexivity].
Qed.

Lemma deal_short : forall ids s,
  (supply s < 7 * length ids)%nat ->
  fst (forEach ids (fun playerId =>
         hand <- replicateM 7 deckTopCard ;;
         modify (fun s => set_players (players s ++ [playerId]) s) ;;;
         modify (fun s => set_hands (hands_set playerId hand (hands (cache s))) s) ;;;
         recordEvent (game_info (player_joined playerId))) s)
  = Abrupt (ThrowUnocab DeckPileExhausted).
Proof.
  intros ids. induction ids as [| id r IH]; intros s H; cbn [forEach length] in *; [lia |].
  destruct (Nat.le_gt_cases 7 (supply s)) as [Hle | Hlt].
  - destruct (admit_run id s Hle) as (s1 & E1 & _ & Hs1 & _).
    rewrite (bind_normal _ _ _ _ _ _ _ E1). apply IH. lia.
  - pose proof (draw_too_many 7 s Hlt) as Hd.
    destruct (replicateM 7 deckTopCard s) as [[hand | t] s1] eqn:E; simpl in Hd;
      [discriminate |].
    inversion Hd; subst. rewrite bind_assoc, (bind_abrupt _ _ _ _ _ _ _ E). reflexivity.
Qed.

(** X18 (the contract of [join]): with exactly ten players the call throws
    too-many-players and changes nothing; otherwise, if one of the ids is
    the engine's, it throws invalid-id before anybody is dealt a hand and
    changes nothing; otherwise, if deck and discard pile together hold seven
    cards for each id, it returns, the ids are appended to [players] in
    order, each of them holds seven cards, the supply has gone down by
    seven for each id and the turn counter is untouched; and if the supply
    is short it throws the supply-exhausted error. *)
Theorem join_contract : forall (s : GameState) (ids : list PlayerId),
  (length (players s) = MAX_PLAYERS ->
   join ids s = (Abrupt (ThrowUnocab (TooManyPlayers MAX_PLAYERS)), s))
  /\ (length (players s) <> MAX_PLAYERS -> In ENGINE_ID ids ->
      join ids s = (Abrupt (ThrowUnocab (InvalidId ENGINE_ID)), s))
  /\ (length (players s) <> MAX_PLAYERS -> ~ In ENGINE_ID ids ->
      (7 * length ids <= supply s)%nat ->
      exists s',
        join ids s = (Normal tt, s')
        /\ players s' = players s ++ ids
        /\ supply s' = (supply s - 7 * length ids)%nat
        /\ index s' = index s
        /\ forall p, In p ids -> dealtIn p s')
  /\ (length (players s) <> MAX_PLAYERS -> ~ In ENGINE_ID ids ->
      (supply s < 7 * length ids)%nat ->
      fst (join ids s) = Abrupt (ThrowUnocab DeckPileExhausted)).
Proof.
  intros s ids.
  assert (Hin : In ENGINE_ID ids ->
                existsb (fun id => String.eqb id ENGINE_ID) ids = true).
  { intros H. apply existsb_exists. exists ENGINE_ID. split; [exact H | reflexivity]. }
  assert (Hout : ~ In ENGINE_ID ids ->
                 existsb (fun id => String.eqb id ENGINE_ID) ids = false).
  { intros H. destruct (existsb (fun id => String.eqb id ENGINE_ID) ids) eqn:E;
      [| reflexivity].
    apply existsb_exists in E. destruct E as (id & Hid & Heq).
    apply String.eqb_eq in Heq. subst id. contradiction. }
  split; [| split; [| split]].
  - intros H. unfold join. step. rewrite H, Nat.eqb_refl. reflexivity.
  - intros Hn He. unfold join. step.
    replace (length (players s) =? MAX_PLAYERS)%nat with false
      by (symmetry; apply Nat.eqb_neq; exact Hn).
    unfold bind at 1. rewrite validate_ids, (Hin He). reflexivity.
  - intros Hn He Hs.
    destruct (deal_run ids s Hs) as (s' & E & Hp & Hsup & Hi).
    assert (Ej : join ids s = (Normal tt, s')).
    { unfold join. step.
      replace (length (players s) =? MAX_PLAYERS)%nat with false
        by (symmetry; apply Nat.eqb_neq; exact Hn).
      unfold bind at 1. rewrite validate_ids, (Hout He). exact E. }
    exists s'. split; [exact Ej |]. split; [exact Hp |]. split; [exact Hsup |].
    split; [exact Hi |]. intros p Hp'. exact (join_deals_seven ids s s' Ej p Hp').
  - intros Hn He Hs. unfold join. step.
    replace (length (players s) =? MAX_PLAYERS)%nat with false
      by (symmetry; apply Nat.eqb_neq; exact Hn).
    unfold bind at 1. rewrite validate_ids, (Hout He). apply deal_short, Hs.
Qed.

(* ------------------------------------------------------------------------- *)
(** * Whose turn it is *)

(** X19 ([activePlayer]): the method reads the state only.  With no entry
    in [hands] it returns [undefined]; otherwise it returns a player who
    has an entry in [hands], namely the key at position [|index| mod n] in
    the order of [Object.entries], [n] being the number of entries.  The
    sign of the turn counter is ignored: the counters [i] and [-i] give the
    same player, so that below zero a decreasing counter walks the players
    in the same order as an increasing counter does above zero. *)
Theorem activePlayer_reads_the_counter : forall (s : GameState),
  snd (activePlayer s) = s
  /\ (hands (cache s) = [] -> fst (activePlayer s) = Normal None)
  /\ (hands (cache s) <> [] ->
      fst (activePlayer s)
      = Normal (nth_error (map fst (hands (cache s)))
                  (Z.to_nat (Z.abs (index s)
                             mod Z.of_nat (length (hands (cache s))))))
      /\ exists p, fst (activePlayer s) = Normal (Some p)
                   /\ In p (map fst (hands (cache s))))
  /\ (forall i,
        fst (activePlayer (set_index (- i) s)) = fst (activePlayer (set_index i s))).
Proof.
  intros s. split; [reflexivity |]. split; [| split].
  - intros H. unfold activePlayer, gets. rewrite H. reflexivity.
  - intros H. unfold activePlayer, gets. cbn [fst].
    destruct (hands (cache s)) as [| kv r] eqn:Hh; [contradiction |].
    cbn [map]. set (keys := fst kv :: map fst r).
    assert (Hlen : length keys = length (kv :: r))
      by (subst keys; simpl; rewrite length_map; reflexivity).
    assert (Hpos : 0 < Z.of_nat (length keys)) by (subst keys; simpl; lia).
    assert (Hidx : Z.abs (Z.rem (index s) (Z.of_nat (length keys)))
                   = Z.abs (index s) mod Z.of_nat (length keys)).
    { rewrite <- Z.rem_abs by lia. rewrite (Z.abs_eq (Z.of_nat (length keys))) by lia.
      apply Z.rem_mod_nonneg; lia. }
    rewrite Hidx, <- Hlen. split; [reflexivity |].
    destruct (nth_error keys (Z.to_nat (Z.abs (index s) mod Z.of_nat (length keys))))
      as [p |] eqn:Hn.
    + exists p. split; [reflexivity |]. eapply nth_error_In. exact Hn.
    + apply nth_error_None in Hn.
      pose proof (Z.mod_pos_bound (Z.abs (index s)) (Z.of_nat (length keys)) Hpos). lia.
  - intros i. unfold activePlayer, gets. cbn [fst index set_index cache].
    destruct (map fst (hands (cache s))) as [| k ks]; [reflexivity |].
    rewrite Z.rem_opp_l by (simpl; lia). rewrite Z.abs_opp. reflexivity.
Qed.

(* ------------------------------------------------------------------------- *)
(** * The contract of [jumpToEventIndex] *)

Lemma stackKept_refl : forall s, stackKept s s.
Proof. reflexivity. Qed.

Lemma stackKept_trans : forall a b c, stackKept a b -> stackKept b c -> stackKept a c.
Proof. unfold stackKept. intros. congruence. Qed.

Lemma stack_of_piles : forall s s', sameButPiles s s' -> stackKept s s'.
Proof. intros s s' H. unfold stackKept. apply H. Qed.

Lemma stack_of_readonly : forall s s' : GameState, s = s' -> stackKept s s'.
Proof. intros s s' <-. reflexivity. Qed.

Create HintDb stackkept.

Ltac stack_auto :=
  repeat first
    [ assumption
    | solve [auto with stackkept]
    | frames_step stackKept_refl stackKept_trans
    | apply frames_modify; intros; solve
        [ repeat match goal with
                 | |- context [if ?b then _ else _] => destruct b
                 end; reflexivity ]
    | progress cbv beta zeta ].

Lemma stack_recordEvent : forall e, frames stackKept (recordEvent e).
Proof. intros e. apply (frames_weaken _ _ _ _ stack_of_piles), piles_recordEvent. Qed.

Lemma stack_draws : forall n, frames stackKept (replicateM n deckTopCard).
Proof. intros n. apply (frames_weaken _ _ _ _ stack_of_piles), piles_draw. Qed.

Lemma stack_handOf : forall p, frames stackKept (handOf p).
Proof. intros p. apply (frames_weaken _ _ _ _ stack_of_readonly), readonly_handOf. Qed.

Lemma stack_checkEvent : forall e b, frames stackKept (checkEvent e b).
Proof. intros e b. apply (frames_weaken _ _ _ _ stack_of_readonly), readonly_checkEvent. Qed.

Lemma stack_lastTwo : forall i, frames stackKept (lastTwoNonInfoEvents i).
Proof.
  intros i. apply (frames_weaken _ _ _ _ stack_of_readonly), readonly_lastTwoNonInfoEvents.
Qed.

Lemma stack_someValid : forall cards, frames stackKept (someValidAtBluffSite cards).
Proof.
  intros cards.
  apply (frames_weaken _ _ _ _ stack_of_readonly), readonly_someValidAtBluffSite.
Qed.

#[export] Hint Resolve stack_recordEvent stack_draws stack_handOf stack_checkEvent
  stack_lastTwo stack_someValid : stackkept.

Lemma stack_processNewEvent : forall e, frames stackKept (processNewEvent e).
Proof.
  intros e.
  unfold processNewEvent, processCardPlayed, processDraw, processBluffCalled,
    pushLast3, advanceTurn, pushToHand.
  stack_auto.
Qed.

Lemma stack_join : forall ids, frames stackKept (join ids).
Proof. intros ids. unfold join. stack_auto. Qed.

Lemma stack_leave : forall ids, frames stackKept (leave ids).
Proof. intros ids. unfold leave. stack_auto. Qed.

Lemma stack_replay : forall evs, frames stackKept (replay evs).
Proof.
  intros evs. induction evs as [| [e | i] r IH]; simpl.
  - apply (frames_ret _ stackKept_refl).
  - destruct (String.eqb (event_by e) ENGINE_ID); [exact IH |].
    apply (frames_bind _ stackKept_trans); [apply stack_processNewEvent | intros _; exact IH].
  - destruct i; try exact IH.
    + apply (frames_ret _ stackKept_refl).
    + apply (frames_bind _ stackKept_trans); [apply stack_join | intros _; exact IH].
    + apply (frames_bind _ stackKept_trans); [apply stack_leave | intros _; exact IH].
Qed.

Lemma reachable_step : forall (A : Type) (f : A -> Answer) (m : Method A) c s,
  perform c = answering f m -> reachable s -> reachable (snd (m s)).
Proof.
  intros A f m c s Hc H. rewrite <- (answering_state _ f m s), <- Hc.
  apply reachable_call, H.
Qed.

Lemma reachable_replay : forall evs s, reachable s -> reachable (snd (replay evs s)).
Proof.
  intros evs. induction evs as [| [e | i] r IH]; intros s H; simpl.
  - exact H.
  - destruct (String.eqb (event_by e) ENGINE_ID); [apply IH, H |].
    pose proof (reachable_step _ _ _ (CallProcessNewEvent e) s eq_refl H) as H1.
    unfold bind. destruct (processNewEvent e s) as [[a | t] s1]; simpl in *;
      [apply IH, H1 | exact H1].
  - destruct i; try (apply IH, H).
    + exact H.
    + pose proof (reachable_step _ _ _ (CallJoin [id]) s eq_refl H) as H1.
      unfold bind. destruct (join [id] s) as [[a | t] s1]; simpl in *;
        [apply IH, H1 | exact H1].
    + pose proof (reachable_step _ _ _ (CallLeave [id]) s eq_refl H) as H1.
      unfold bind. destruct (leave [id] s) as [[a | t] s1]; simpl in *;
        [apply IH, H1 | exact H1].
Qed.


(* ------------------------------------------------------------------------- *)
(** * The contract of [leave] *)

Lemma notFound_spec : forall p ps,
  notFound p ps = true <-> (~ In p ps \/ p = EmptyString).
Proof.
  intros p ps. unfold notFound.
  destruct (find (fun id => String.eqb id p) ps) as [id |] eqn:E.
  - apply find_some in E. destruct E as [Hin Heq]. apply String.eqb_eq in Heq. subst id.
    rewrite String.eqb_eq. split; [intros H; right; exact H |].
    intros [H | H]; [contradiction | exact H].
  - split; [| reflexivity]. intros _. left. intros Hin.
    pose proof (find_none _ _ E p Hin) as Hp. cbv beta in Hp.
    rewrite String.eqb_refl in Hp. discriminate.
Qed.

Lemma forEach_cons : forall (A : Type) (f : A -> Method unit) (x : A) (r : list A) s,
  forEach (x :: r) f s = (forEach [x] f ;;; forEach r f) s.
Proof.
  intros A f x r s. cbn [forEach]. rewrite bind_assoc. unfold bind.
  destruct (f x s) as [[[] | t] s1]; reflexivity.
Qed.

(** X21 (the contract of [leave]): [leave] treats its ids one after the
    other, each as a call of its own.  For one id, the call throws
    player-not-in-game and changes nothing if the id is not in [players]
    or is the empty string ([find] returns the id it found, and the empty
    string is falsy); otherwise it returns, the id is filtered out of
    [players], the cache (hands included) and the turn counter are
    untouched, and a full log gains [player_left] (a bounded log
    nothing). *)
Theorem leave_contract : forall (s : GameState) (p : PlayerId) (others : list PlayerId),
  leave (p :: others) s = (leave [p] ;;; leave others) s
  /\ (~ In p (players s) \/ p = EmptyString ->
      leave [p] s = (Abrupt (ThrowUnocab (PlayerNotInGame p)), s))
  /\ (In p (players s) -> p <> EmptyString ->
      exists s',
        leave [p] s = (Normal tt, s')
        /\ players s' = filter (fun id => negb (String.eqb id p)) (players s)
        /\ cache s' = cache s
        /\ index s' = index s
        /\ events s' = (if shorthandMode s then events s
                        else events s ++ [game_info (player_left p)])).
Proof.
  intros s p others. split; [| split].
  - unfold leave. apply forEach_cons.
  - intros H. apply notFound_spec in H. unfold leave. cbn [forEach].
    rewrite bind_assoc, gets_bind, H. reflexivity.
  - intros Hin Hne.
    assert (H : notFound p (players s) = false).
    { destruct (notFound p (players s)) eqn:E; [| reflexivity].
      apply notFound_spec in E. destruct E as [E | E]; contradiction. }
    unfold leave. cbn [forEach]. rewrite bind_assoc, gets_bind, H.
    rewrite bind_assoc, modify_bind.
    destruct (recordEvent_facts (game_info (player_left p))
                (set_players (filter (fun id => negb (String.eqb id p)) (players s)) s))
      as (s' & E & Hc & Hi & Hp & Hm & Hl).
    rewrite (bind_normal _ _ _ _ _ _ _ E). unfold ret.
    exists s'. split; [reflexivity |]. split; [exact Hp |]. split; [exact Hc |].
    split; [exact Hi |].
    destruct (shorthandMode s) eqn:Hs.
    + pose proof (f_equal snd E) as Es. simpl in Es. rewrite <- Es.
      unfold recordEvent. rewrite gets_bind. cbn [shorthandMode set_players].
      rewrite Hs. reflexivity.
    + apply Hl. exact Hs.
Qed.

(* ------------------------------------------------------------------------- *)
(** * What the validator demands of a move *)

Lemma checkEvent_valid_window : forall event s,
  fst (checkEvent event false s) = Normal None ->
  exists lastEvent rest,
    firstn 2 (recentMoves s) = lastEvent :: rest
    /\ playedColorSwitching lastEvent && negb (isChooseColor event) = false
    /\ playedType (Plain plus_two) lastEvent && negb (isDraw event)
       && negb (playedType (Plain plus_two) event) = false
    /\ match rest with
       | secondLastEvent :: _ =>
           playedType (Switching plus_four) secondLastEvent
           && negb (isDraw event) && negb (isBluffCalled event)
       | [] => false
       end = false
    /\ checkKind event false lastEvent s = (Normal None, s).
Proof.
  intros event s H. destruct (checkEvent_valid_inv _ _ H) as (E & _).
  pose proof (valid_not_ended _ _ H) as Hend.
  unfold checkEvent in E.
  apply bind_inv in E. destruct E as [(early & s1 & E1 & E) | (t & _ & E)]; [| discriminate].
  destruct (earlyChecks_inv _ _ _ _ E1) as [-> _].
  destruct early as [err |]; [discriminate |].
  rewrite (bind_normal _ _ _ _ _ _ _ (hasEnded_run s Hend)) in E.
  rewrite (bind_normal _ _ _ _ _ _ _ (lastTwoNonInfoEvents_run s)) in E.
  destruct (firstn 2 (recentMoves s)) as [| lastEvent rest]; [discriminate |].
  exists lastEvent, rest. split; [reflexivity |].
  destruct (playedColorSwitching lastEvent && negb (isChooseColor event));
    [discriminate |].
  destruct (playedType (Plain plus_two) lastEvent && negb (isDraw event)
            && negb (playedType (Plain plus_two) event)); [discriminate |].
  match type of E with
  | (if ?c then _ else _) _ = _ => destruct c; [discriminate |]
  end.
  split; [reflexivity |]. split; [reflexivity |]. split; [reflexivity |].
  pose proof (readonly_run _ _ _ _ _ (readonly_checkKind _ _ _) E) as Hs.
  exact E.
Qed.

Lemma firstn_2_hd : forall (A : Type) (l : list A) x r,
  firstn 2 l = x :: r -> hd_error l = Some x /\ nth_error l 1 = hd_error r.
Proof.
  intros A [| a [| b l]] x r H; simpl in H; inversion H; subst; split; reflexivity.
Qed.

(** X22 (the rules of turn, [checkEvent]): a move that [checkEvent] accepts
    is made by the active player, in a game of at least two players that
    has not ended and whose log holds a previous domain move.  If that
    move played a color-switching card, the accepted move is a choice of
    color; if it played a draw-two, the move is a draw or the play of a
    draw-two; if the move before it played a wild-draw-four, the move is a
    draw or a bluff call.  Moreover an accepted pass follows a draw of the
    same player, an accepted draw does not, an accepted choice of color
    follows a color-switching card played by the same player, an accepted
    bluff call has a wild-draw-four two moves back, and an accepted play
    of a color-switching card is not the play of the last card of the
    hand. *)
Theorem accepted_moves_follow_the_rules : forall (s : GameState) (event : GameEvent),
  fst (checkEvent event false s) = Normal None ->
  exists lastEvent,
    hd_error (recentMoves s) = Some lastEvent
    /\ (MIN_PLAYERS <= length (players s))%nat
    /\ fst (activePlayer s) = Normal (Some (event_by event))
    /\ ended (cache s) = false
    /\ (playedColorSwitching lastEvent = true -> isChooseColor event = true)
    /\ (playedType (Plain plus_two) lastEvent = true ->
        isDraw event = true \/ playedType (Plain plus_two) event = true)
    /\ (forall secondLastEvent,
          nth_error (recentMoves s) 1 = Some secondLastEvent ->
          playedType (Switching plus_four) secondLastEvent = true ->
          isDraw event = true \/ isBluffCalled event = true)
    /\ match event with
       | pass by_ => lastEvent = draw by_
       | draw by_ => lastEvent <> draw by_
       | choose_color by_ _ =>
           exists card,
             lastEvent = card_played by_ card
             /\ isColorSwitching (card_type card) = true
       | bluff_called _ =>
           exists accused,
             nth_error (recentMoves s) 1
             = Some (card_played accused (SwitchingCard plus_four))
       | card_played by_ card =>
           isColorSwitching (card_type card) = true ->
           forall hand, hands_get by_ (hands (cache s)) = Some hand ->
                        length hand <> 1%nat
       end.
Proof.
  intros s event H.
  destruct (checkEvent_valid_inv _ _ H) as (_ & Hcount & Hactive & _).
  pose proof (valid_not_ended _ _ H) as Hend.
  destruct (checkEvent_valid_window _ _ H) as (lastEvent & rest & Hw & H1 & H2 & H3 & Hk).
  destruct (firstn_2_hd _ _ _ _ Hw) as [Hhd Hsnd].
  exists lastEvent. split; [exact Hhd |]. split; [exact Hcount |].
  split; [exact Hactive |]. split; [exact Hend |].
  split.
  { intros Hc. rewrite Hc in H1. simpl in H1. apply negb_false_iff in H1. exact H1. }
  split.
  { intros Hc. rewrite Hc in H2. simpl in H2.
    apply andb_false_iff in H2. destruct H2 as [H2 | H2]; apply negb_false_iff in H2; auto. }
  split.
  { intros secondLastEvent Hn Hc. rewrite Hsnd in Hn.
    destruct rest as [| x rest]; [discriminate |]. simpl in Hn. inversion Hn; subst x.
    rewrite Hc in H3. simpl in H3.
    apply andb_false_iff in H3. destruct H3 as [H3 | H3]; apply negb_false_iff in H3; auto. }
  destruct event as [by_ card | by_ | by_ color | by_ | by_]; simpl checkKind in Hk.
  - intros Hsw hand Hhand Hlen. rewrite Hsw in Hk.
    rewrite bind_assoc, (bind_normal _ _ _ _ _ _ _ (handOf_run _ _ _ Hhand)) in Hk.
    rewrite ret_bind, Hlen in Hk. simpl in Hk. discriminate.
  - rewrite (bind_normal _ _ _ _ _ _ _ (lastTwoNonInfoEvents_run s)) in Hk.
    rewrite Hw in Hk. destruct rest as [| x rest]; [discriminate |].
    cbn [nth_error] in Hk.
    destruct (negb (playedType (Switching plus_four) x)) eqn:Hp; [discriminate |].
    apply negb_false_iff in Hp. rewrite Hsnd. simpl.
    destruct x as [accused [t c | [|]] | | | |]; simpl in Hp; try discriminate.
    exists accused. reflexivity.
  - destruct (negb (playedColorSwitching lastEvent)
              || negb (String.eqb by_ (event_by lastEvent))) eqn:Hc; [discriminate |].
    apply orb_false_iff in Hc. destruct Hc as [Hc1 Hc2].
    apply negb_false_iff in Hc1, Hc2. apply String.eqb_eq in Hc2.
    destruct lastEvent as [p card | | | |]; simpl in Hc1; try discriminate.
    simpl in Hc2. subst p. exists card. split; [reflexivity | exact Hc1].
  - destruct (drawnBy by_ lastEvent) eqn:Hd; [discriminate |].
    intros ->. simpl in Hd. rewrite String.eqb_refl in Hd. discriminate.
  - destruct (drawnBy by_ lastEvent) eqn:Hd; [| discriminate].
    destruct lastEvent as [| | | p |]; simpl in Hd; try discriminate.
    apply String.eqb_eq in Hd. subst p. reflexivity.
Qed.

Lemma accepted_moves_follow_the_rules_witness :
  fst (activePlayer Example.opening) = Normal (Some Example.p1)
  /\ ended (cache Example.opening) = false.
Proof.
  destruct (accepted_moves_follow_the_rules Example.opening (draw Example.p1))
    as (lastEvent & _ & _ & Hactive & Hend & _).
  - vm_compute. reflexivity.
  - split; [exact Hactive | exact Hend].
Defined.

(* ------------------------------------------------------------------------- *)
(** * Passing and choosing a color *)

Lemma valid_mover_has_hand : forall event s,
  fst (checkEvent event false s) = Normal None ->
  exists hand, hands_get (event_by event) (hands (cache s)) = Some hand.
Proof.
  intros event s H. destruct (checkEvent_valid_inv _ _ H) as (_ & _ & Ha & _).
  exact (activePlayer_has_hand s _ Ha).
Qed.

(** X23 (a pass, [processNewEvent] on [pass]): a pass that [checkEvent]
    accepts returns [turn_passed]; the turn counter advances by one step
    in the current direction, the cache (deck, pile, hands, color history)
    and the players are untouched, and the log gains the move (in shorthand
    mode after dropping the oldest entry when it already holds five). *)
Theorem pass_hands_over_the_turn : forall (s : GameState) (by_ : PlayerId),
  fst (checkEvent (pass by_) false s) = Normal None ->
  exists s',
    processNewEvent (pass by_) s = (Normal turn_passed, s')
    /\ index s' = index s + step_value (turnStep (cache s))
    /\ cache s' = cache s
    /\ players s' = players s
    /\ events s'
       = (if shorthandMode s
          then (if (length (events s) =? MAX_SHORTHAND_EVENTS)%nat
                then tl (events s) else events s)
          else events s) ++ [game_event (pass by_)].
Proof.
  intros s by_ Hvalid.
  destruct (checkEvent_valid_inv _ _ Hvalid) as (Hcheck & _).
  destruct (valid_mover_has_hand _ _ Hvalid) as [hand Hhand]. simpl in Hhand.
  unfold processNewEvent.
  change (negb (playerId_safeParse (event_by (pass by_)))) with false.
  cbv iota. step. simpl event_by.
  rewrite (bind_normal _ _ _ _ _ _ _ (handOf_run _ _ _ Hhand)).
  rewrite (bind_normal _ _ _ _ _ _ _ Hcheck).
  step. unfold advanceTurn. step. unfold ret.
  match goal with
  | |- exists s', (_, ?st) = _ /\ _ => exists st
  end.
  split; [reflexivity |]. fields.
  split; [lia |]. split; [reflexivity |]. split; [reflexivity |].
  unfold recordEvent. rewrite gets_bind.
  destruct (shorthandMode s); [| reflexivity].
  rewrite !modify_bind. unfold modify. cbn [snd].
  destruct (length (events s) =? MAX_SHORTHAND_EVENTS)%nat; reflexivity.
Qed.

Lemma pass_hands_over_the_turn_witness :
  exists s',
    processNewEvent (pass Example.p1) afterDraw = (Normal turn_passed, s')
    /\ index s' = index afterDraw + step_value (turnStep (cache afterDraw)).
Proof.
  destruct (pass_hands_over_the_turn afterDraw Example.p1) as (s' & E & Hi & _).
  - vm_compute. reflexivity.
  - exists s'. split; [exact E | exact Hi].
Defined.

(** X24 (a choice of color, [processNewEvent] on [choose-color]): a choice
    of color that [checkEvent] accepts returns [color_changed] with the
    color; the color becomes the last entry of the color history (which
    keeps at most three entries), so that [expectedCard] then reports it as
    the expected color, with the expected type unchanged; the turn counter
    advances by one step, deck, pile, hands and players are untouched, and
    a full log gains the move. *)
Theorem color_choice_sets_the_expected_color :
  forall (s : GameState) (by_ : PlayerId) (color : CardColor),
  fst (checkEvent (choose_color by_ color) false s) = Normal None ->
  exists s',
    processNewEvent (choose_color by_ color) s = (Normal (color_changed color), s')
    /\ last3CardPlayOrColorChanges (cache s')
       = (if (length (last3CardPlayOrColorChanges (cache s)) =? 3)%nat
          then tl (last3CardPlayOrColorChanges (cache s))
          else last3CardPlayOrColorChanges (cache s)) ++ [ChosenColor color]
    /\ (length (last3CardPlayOrColorChanges (cache s)) <= 3 ->
        length (last3CardPlayOrColorChanges (cache s')) <= 3)%nat
    /\ fst (expectedCard false s') = Normal (expectedRank s, Some color)
    /\ index s' = index s + step_value (turnStep (cache s))
    /\ hands (cache s') = hands (cache s)
    /\ deck (cache s') = deck (cache s)
    /\ pile (cache s') = pile (cache s)
    /\ players s' = players s
    /\ (shorthandMode s = false ->
        events s' = events s ++ [game_event (choose_color by_ color)]).
Proof.
  intros s by_ color Hvalid.
  destruct (checkEvent_valid_inv _ _ Hvalid) as (Hcheck & _).
  destruct (valid_mover_has_hand _ _ Hvalid) as [hand Hhand]. simpl in Hhand.
  unfold processNewEvent.
  change (negb (playerId_safeParse (event_by (choose_color by_ color)))) with false.
  cbv iota. step. simpl event_by.
  rewrite (bind_normal _ _ _ _ _ _ _ (handOf_run _ _ _ Hhand)).
  rewrite (bind_normal _ _ _ _ _ _ _ Hcheck).
  unfold pushLast3, advanceTurn. rewrite bind_assoc.
  destruct (length (last3CardPlayOrColorChanges (cache s)) =? 3)%nat eqn:El3;
    repeat step; rewrite ?El3; unfold ret.
  all: match goal with
       | |- exists s', (_, ?st) = _ /\ _ => exists st
       end.
  all: split; [reflexivity |].
  all: fields.
  all: split; [reflexivity |].
  all: split;
    [ intros Hle; rewrite length_app; cbn [length];
      first [ apply Nat.eqb_eq in El3;
              destruct (last3CardPlayOrColorChanges (cache s)); [discriminate |];
              cbn [length tl] in *; lia
            | apply Nat.eqb_neq in El3; lia ] |].
  all: split;
    [ unfold expectedCard, gets; cbn [fst]; fields;
      rewrite !at_back_1, rev_app_distr; cbn [rev app hd_error];
      unfold expectedRank;
      destruct (rev (pile (cache s))) as [| top r]; cbn [hd_error];
      try destruct (isColorSwitching (card_type top)); reflexivity |].
  all: split; [lia |].
  all: split; [reflexivity |].
  all: split; [reflexivity |].
  all: split; [reflexivity |].
  all: split; [reflexivity |].
  all: intros Hfull; rewrite recordEvent_log by (fields; exact Hfull); fields; reflexivity.
Qed.

Lemma color_choice_sets_the_expected_color_witness :
  exists s',
    processNewEvent (choose_color Example.p1 red) afterWild
    = (Normal (color_changed red), s')
    /\ fst (expectedCard false s') = Normal (expectedRank afterWild, Some red).
Proof.
  destruct (color_choice_sets_the_expected_color afterWild Example.p1 red)
    as (s' & E & _ & _ & Hexp & _).
  - vm_compute. reflexivity.
  - exists s'. split; [exact E | exact Hexp].
Defined.
